(** * Change synchronisation of the MQTT bridge configuration UI

    A shallow embedding of the change-synchronisation code of the [App]
    component ([generateJSONPatch], [loadConfig], [cleanConfig],
    [sendPatchToServer] and [connectToSSE]; the text that follows the
    broker form in [src/components/BrokerForm.tsx]) and of the document
    types of [src/types/mqtt-bridge.ts].

    - [Json]: the JSON value tree the diff works on, and the few
      JavaScript primitives the code applies to it.
    - [Diff]: [generateJSONPatch], and a JSON-Patch applier.
    - [Sync]: the configuration records, [cleanConfig], [loadConfig] and
      [sendPatchToServer], with the in-flight requests of the event loop.
    - [Live]: the server-sent-event handlers, the two status maps and the
      reconnect timer. *)

From stdpp Require Import gmap strings list fin_maps pretty.
From Stdlib Require Import ZArith Lia Ascii.

Local Open Scope string_scope.
Local Open Scope list_scope.

(* ===================================================================== *)
(** * JSON values and the JavaScript primitives used on them *)
(* ===================================================================== *)

Module Json.

Unset Elimination Schemes.

(** A parsed JSON document.  Numbers are the integers (the only numbers
    of the configuration documents: ports, channels, QoS levels and
    keep-alive seconds).  An object is the list of its own enumerable
    properties in the order [Object.keys] lists them. *)
Inductive Value : Type :=
| Null
| Bool (b : bool)
| Num (n : Z)
| Str (s : string)
| Seq (items : list Value)
| Map (fields : list (string * Value)).

Set Elimination Schemes.

(** Induction with the hypothesis on every item of an array and on every
    property value of an object. *)
Section ValueInduction.
Variable P : Value -> Prop.
Hypothesis HNull : P Null.
Hypothesis HBool : forall b, P (Bool b).
Hypothesis HNum : forall n, P (Num n).
Hypothesis HStr : forall s, P (Str s).
Hypothesis HSeq : forall items, Forall P items -> P (Seq items).
Hypothesis HMap : forall fields, Forall (fun kv => P kv.2) fields -> P (Map fields).

Fixpoint Value_nested_ind (v : Value) : P v :=
  match v with
  | Null => HNull
  | Bool b => HBool b
  | Num n => HNum n
  | Str s => HStr s
  | Seq items =>
      HSeq items
        ((fix all (l : list Value) : Forall P l :=
            match l with
            | [] => @List.Forall_nil _ P
            | x :: l' => @List.Forall_cons _ P x l' (Value_nested_ind x) (all l')
            end) items)
  | Map fields =>
      HMap fields
        ((fix all (l : list (string * Value)) : Forall (fun kv => P kv.2) l :=
            match l with
            | [] => @List.Forall_nil _ _
            | kv :: l' => @List.Forall_cons _ _ kv l' (Value_nested_ind kv.2) (all l')
            end) fields)
  end.
End ValueInduction.

(** Structural equality of the ordered trees.  [JSON.stringify] prints
    the properties of an object in their own order and is injective on
    parsed JSON, so the source's test
    [JSON.stringify(a) !== JSON.stringify(b)] is [negb (Value_eqb a b)]. *)
Fixpoint Value_eqb (a b : Value) {struct a} : bool :=
  match a, b with
  | Null, Null => true
  | Bool x, Bool y => Bool.eqb x y
  | Num x, Num y => Z.eqb x y
  | Str x, Str y => String.eqb x y
  | Seq xs, Seq ys =>
      (fix all (xs ys : list Value) : bool :=
         match xs, ys with
         | [], [] => true
         | x :: xs', y :: ys' => Value_eqb x y && all xs' ys'
         | _, _ => false
         end) xs ys
  | Map xs, Map ys =>
      (fix all (xs ys : list (string * Value)) : bool :=
         match xs, ys with
         | [], [] => true
         | (k, x) :: xs', (k', y) :: ys' =>
             String.eqb k k' && Value_eqb x y && all xs' ys'
         | _, _ => false
         end) xs ys
  | _, _ => false
  end.

(** [typeof v === "object" && v !== null]: arrays and objects. *)
Definition is_object (v : Value) : bool :=
  match v with
  | Seq _ | Map _ => true
  | _ => false
  end.

(** [Array.isArray(v)]. *)
Definition Array_isArray (v : Value) : bool :=
  match v with
  | Seq _ => true
  | _ => false
  end.

(** [a === b] where at most one side is an array or an object (the only
    way the source uses it): primitives compare by value, and an object
    is never identical to a primitive. *)
Definition strict_eqb (a b : Value) : bool :=
  match a, b with
  | Null, Null => true
  | Bool x, Bool y => Bool.eqb x y
  | Num x, Num y => Z.eqb x y
  | Str x, Str y => String.eqb x y
  | _, _ => false
  end.

(** Truthiness, for [if (x)] and [x && y]. *)
Definition truthy (v : Value) : bool :=
  match v with
  | Null => false
  | Bool b => b
  | Num n => negb (Z.eqb n 0)
  | Str s => negb (String.eqb s "")
  | Seq _ | Map _ => true
  end.

(** The property name of array index [i], as [`${i}`] prints it. *)
Definition index_key (i : nat) : string := pretty i.

(** The own enumerable properties, name and value, in [Object.keys]
    order: an array has its indices, a primitive has none. *)
Fixpoint entries_from (i : nat) (items : list Value) : list (string * Value) :=
  match items with
  | [] => []
  | x :: items' => (index_key i, x) :: entries_from (S i) items'
  end.

Definition own_entries (v : Value) : list (string * Value) :=
  match v with
  | Seq items => entries_from 0 items
  | Map fields => fields
  | _ => []
  end.

Definition Object_keys (v : Value) : list string := (own_entries v).*1.

(** The first property called [key]. *)
Fixpoint assoc (key : string) (fields : list (string * Value)) : option Value :=
  match fields with
  | [] => None
  | (k, x) :: fields' => if String.eqb key k then Some x else assoc key fields'
  end.

(** [v[key]] for an own property; [None] is [undefined], which is also
    the answer of [key in v] being false.  An array has the own property
    [length] besides its indices.  Names inherited from the prototypes
    ([toString], [constructor], ...) are not modelled: the documents of
    the configuration do not use them as keys, and a statement that
    would differ on a document that does keeps to the plain ones. *)
Definition get_prop (v : Value) (key : string) : option Value :=
  match v with
  | Seq items =>
      if String.eqb key "length" then Some (Num (Z.of_nat (length items)))
      else assoc key (entries_from 0 items)
  | Map fields => assoc key fields
  | _ => None
  end.

(** [String(v)], as a template literal or a computed property name
    converts a value.  A number is printed with all its digits, which is
    what [String] gives for the whole numbers below 1e21 only (from there
    on it prints an exponent): the statements about keys take the
    converted value to be a string. *)
Fixpoint toString (v : Value) : string :=
  match v with
  | Null => "null"
  | Bool true => "true"
  | Bool false => "false"
  | Num n => pretty n
  | Str s => s
  | Seq items =>
      (fix join (l : list Value) : string :=
         match l with
         | [] => ""
         | [x] => match x with Null => "" | _ => toString x end
         | x :: l' => (match x with Null => "" | _ => toString x end) +:+ "," +:+ join l'
         end) items
  | Map _ => "[object Object]"
  end.

(** Structural ("deep") equality of two documents: arrays item by item,
    objects by name whatever the order of the properties, primitives by
    value. *)
Fixpoint deep_equal (a b : Value) {struct a} : bool :=
  match a, b with
  | Null, Null => true
  | Bool x, Bool y => Bool.eqb x y
  | Num x, Num y => Z.eqb x y
  | Str x, Str y => String.eqb x y
  | Seq xs, Seq ys =>
      (fix all (xs ys : list Value) : bool :=
         match xs, ys with
         | [], [] => true
         | x :: xs', y :: ys' => deep_equal x y && all xs' ys'
         | _, _ => false
         end) xs ys
  | Map xs, Map ys =>
      forallb
        (fun key =>
           match assoc key ys with
           | None => false
           | Some y =>
               (fix find (l : list (string * Value)) : bool :=
                  match l with
                  | [] => false
                  | (k, x) :: l' => if String.eqb key k then deep_equal x y else find l'
                  end) xs
           end)
        (xs.*1 ++ ys.*1)
  | _, _ => false
  end.

(** [s.split(sep)] for a one-character separator. *)
Fixpoint String_split (sep : ascii) (s : string) : list string :=
  match s with
  | EmptyString => [""]
  | String c s' =>
      if Ascii.eqb c sep then "" :: String_split sep s'
      else match String_split sep s' with
           | w :: ws => String c w :: ws
           | [] => [String c ""]
           end
  end.

(** [s.includes(c)] for a one-character string [c]. *)
Fixpoint String_includes (c : ascii) (s : string) : bool :=
  match s with
  | EmptyString => false
  | String c' s' => Ascii.eqb c' c || String_includes c s'
  end.

End Json.

(* ===================================================================== *)
(** * The diff engine *)
(* ===================================================================== *)

Module Diff.
Import Json.

(** One operation of a patch: [{op, path, value}], [remove] without a
    value.  The path is the slash-delimited pointer string the source
    builds. *)
Inductive PatchOp : Type :=
| Add (path : string) (value : Value)
| Replace (path : string) (value : Value)
| Remove (path : string).

Definition op_path (o : PatchOp) : string :=
  match o with
  | Add p _ | Replace p _ | Remove p => p
  end.

(** [new Set([...a, ...b])]: the names in the order of their first
    occurrence. *)
Fixpoint Set_from (seen : list string) (names : list string) : list string :=
  match names with
  | [] => []
  | k :: names' =>
      if bool_decide (k ∈ seen) then Set_from seen names'
      else k :: Set_from (k :: seen) names'
  end.

Section Body.
(** [self key] is the recursive call on the child that [oldObj] holds
    under the own property [key]. *)
Variable self : string -> Value -> string -> list PatchOp.

(** The changed-element case shared by the two loops: recurse when both
    sides are arrays or objects, replace otherwise. *)
Definition changed (key : string) (oldValue newValue : Value) (at_path : string)
  : list PatchOp :=
  if negb (Value_eqb oldValue newValue) then
    if is_object oldValue && is_object newValue then self key newValue at_path
    else [Replace at_path newValue]
  else [].

(** The body of the array loop at index [i]. *)
Definition array_step (oldItems newItems : list Value) (path : string) (i : nat)
  : list PatchOp :=
  let elementPath := path +:+ "/" +:+ index_key i in
  match newItems !! i with
  | None => [Remove elementPath]
  | Some newElement =>
      match oldItems !! i with
      | None => [Add elementPath newElement]
      | Some oldElement => changed (index_key i) oldElement newElement elementPath
      end
  end.

(** The body of the object loop at [key]. *)
Definition object_step (oldObj newObj : Value) (path : string) (key : string)
  : list PatchOp :=
  let newPath := if String.eqb path "" then "/" +:+ key else path +:+ "/" +:+ key in
  match get_prop newObj key with
  | None => [Remove newPath]
  | Some newValue =>
      match get_prop oldObj key with
      | None => [Add newPath newValue]
      | Some oldValue => changed key oldValue newValue newPath
      end
  end.

Definition generateJSONPatch_body (oldObj newObj : Value) (path : string)
  : list PatchOp :=
  match oldObj, newObj with
  | Seq oldItems, Seq newItems =>
      let maxLength := Nat.max (length oldItems) (length newItems) in
      flat_map (array_step oldItems newItems path) (seq 0 maxLength)
  | _, _ =>
      if is_object oldObj && is_object newObj then
        let allKeys := Set_from [] (Object_keys oldObj ++ Object_keys newObj) in
        flat_map (object_step oldObj newObj path) allKeys
      else if negb (strict_eqb oldObj newObj) then
        [Replace (if String.eqb path "" then "/" else path) newObj]
      else []
  end.
End Body.

(** [generateJSONPatch(oldObj, newObj, path)].  The recursive calls are
    made on children of [oldObj]; [self] finds the child by its key. *)
Fixpoint generateJSONPatch (oldObj newObj : Value) (path : string) {struct oldObj}
  : list PatchOp :=
  generateJSONPatch_body
    (fun key =>
       match oldObj with
       | Seq items =>
           (fix child (i : nat) (l : list Value) : Value -> string -> list PatchOp :=
              match l with
              | [] => fun _ _ => []
              | x :: l' =>
                  if String.eqb key (index_key i) then generateJSONPatch x
                  else child (S i) l'
              end) 0%nat items
       | Map fields =>
           (fix child (l : list (string * Value)) : Value -> string -> list PatchOp :=
              match l with
              | [] => fun _ _ => []
              | (k, x) :: l' =>
                  if String.eqb key k then generateJSONPatch x else child l'
              end) fields
       | _ => fun _ _ => []
       end)
    oldObj newObj path.

(** The recursive call that [generateJSONPatch oldObj] makes for the
    child under [key]. *)
Definition child_diff (oldObj : Value) (key : string)
  : Value -> string -> list PatchOp :=
  match assoc key (own_entries oldObj) with
  | Some x => generateJSONPatch x
  | None => fun _ _ => []
  end.

(** ** Applying a patch *)

(** A reference token of a pointer, unescaped: [~1] is a slash and [~0]
    a tilde. *)
Fixpoint unescape (s : string) : string :=
  match s with
  | String "~" (String "1" s') => String "/" (unescape s')
  | String "~" (String "0" s') => String "~" (unescape s')
  | String c s' => String c (unescape s')
  | EmptyString => EmptyString
  end.

(** No slash and no tilde: the reference token of such a name is the name
    itself. *)
Fixpoint plain (s : string) : bool :=
  match s with
  | EmptyString => true
  | String c s' => negb (Ascii.eqb c "/") && negb (Ascii.eqb c "~") && plain s'
  end.

(** The reference tokens of a pointer: none for the whole document,
    otherwise the pieces after each slash; a non-empty pointer that does
    not start with a slash is ill-formed. *)
Definition parse_pointer (p : string) : option (list string) :=
  match p with
  | EmptyString => Some []
  | String c p' =>
      if Ascii.eqb c "/" then Some (unescape <$> String_split "/" p') else None
  end.

(** The array index a token denotes among the first [bound] indices: the
    decimal numeral without leading zeros. *)
Definition parse_index (bound : nat) (token : string) : option nat :=
  List.find (fun i => String.eqb token (index_key i)) (seq 0 bound).

Inductive Edit : Type :=
| EAdd (value : Value)
| EReplace (value : Value)
| ERemove.

(** Setting an existing member in place, or adding a new last one. *)
Fixpoint set_field (key : string) (v : Value) (fields : list (string * Value))
  : list (string * Value) :=
  match fields with
  | [] => [(key, v)]
  | (k, x) :: fields' =>
      if String.eqb key k then (k, v) :: fields' else (k, x) :: set_field key v fields'
  end.

Definition remove_field (key : string) (fields : list (string * Value))
  : list (string * Value) :=
  filter (fun kv => kv.1 <> key) fields.

(** The edit at the last token of the pointer, inside [target]. *)
Definition edit_member (e : Edit) (token : string) (target : Value) : option Value :=
  match target with
  | Map fields =>
      match e with
      | EAdd v => Some (Map (set_field token v fields))
      | EReplace v =>
          _ ← assoc token fields; Some (Map (set_field token v fields))
      | ERemove =>
          _ ← assoc token fields; Some (Map (remove_field token fields))
      end
  | Seq items =>
      match e with
      | EAdd v =>
          if String.eqb token "-" then Some (Seq (items ++ [v]))
          else i ← parse_index (S (length items)) token;
               Some (Seq (take i items ++ v :: drop i items))
      | EReplace v =>
          i ← parse_index (length items) token; Some (Seq (<[i:=v]> items))
      | ERemove =>
          i ← parse_index (length items) token; Some (Seq (delete i items))
      end
  | _ => None
  end.

(** Modelled from the spec: the Patch Applier [apply], which the
    repository does not contain (the server applies the patches the
    client sends).  It is the standard JSON-Patch application: the
    pointer is resolved token by token, every token but the last must
    name an existing member or element, [add] inserts into an array
    (shifting the tail; the token [-] appends) or sets a member,
    [replace] and [remove] need their target to exist, [remove] shifts
    the tail of an array down, and an operation that cannot be applied is
    an error ([None]). *)
Fixpoint apply_at (e : Edit) (tokens : list string) (doc : Value) {struct tokens}
  : option Value :=
  match tokens with
  | [] =>
      match e with
      | EAdd v | EReplace v => Some v
      | ERemove => None
      end
  | [token] => edit_member e token doc
  | token :: rest =>
      match doc with
      | Map fields =>
          child ← assoc token fields;
          child' ← apply_at e rest child;
          Some (Map (set_field token child' fields))
      | Seq items =>
          i ← parse_index (length items) token;
          child ← items !! i;
          child' ← apply_at e rest child;
          Some (Seq (<[i:=child']> items))
      | _ => None
      end
  end.

Definition apply_op (doc : Value) (o : PatchOp) : option Value :=
  tokens ← parse_pointer (op_path o);
  match o with
  | Add _ v => apply_at (EAdd v) tokens doc
  | Replace _ v => apply_at (EReplace v) tokens doc
  | Remove _ => apply_at ERemove tokens doc
  end.

(** Modelled from the spec: [apply(doc, ops)], the operations applied one
    after the other, the whole patch failing with the first operation
    that fails. *)
Fixpoint apply (doc : Value) (ops : list PatchOp) : option Value :=
  match ops with
  | [] => Some doc
  | o :: ops' => doc' ← apply_op doc o; apply doc' ops'
  end.

End Diff.

(* ===================================================================== *)
(** * Notifications and the network boundary *)
(* ===================================================================== *)

Module Env.

(** A call of [toast.success] or [toast.error] (the user-visible
    notifications), with the description when one is given. *)
Inductive Toast : Type :=
| toast_success (message : string)
| toast_error (message : string) (description : option string).

(** A call of [console.error] or [console.log]. *)
Inductive LogLine : Type :=
| console_error (message : string)
| console_log (message : string).

End Env.

(* ===================================================================== *)
(** * The sync client: documents, [cleanConfig], load and save *)
(* ===================================================================== *)

Module Sync.
Import Json Diff Env.

(** ** The document types of [types/mqtt-bridge.ts]

    An optional property ([disabled?], [prefix?], [mqtt?], [in?], ...) is
    an [option]; field names that several interfaces share carry the
    interface as a prefix. *)

Inductive Protocol : Type := proto_in | proto_in6 | proto_l2 | proto_rc | proto_un.
Inductive Encryption : Type := legacy | tls.
Inductive Transport : Type := stream | websocket.

Record Topic : Type := { topic : string; qos : Z }.

Record Mqtt : Type := {
  client_id : string;
  keep_alive : Z;
  clean_session : bool;
  will_topic : string;
  will_message : string;
  will_qos : Z;
  will_retain : bool;
  username : string;
  password : string;
  loop_prevention : bool
}.

Record NetIn : Type := { in_host : string; in_port : Z }.
Record NetIn6 : Type := { in6_host : string; in6_port : Z }.
Record NetRc : Type := { rc_host : string; rc_channel : Z }.
Record NetL2 : Type := { l2_host : string; l2_psm : Z }.
Record NetUn : Type := { un_path : string }.

Record Network : Type := {
  instance_name : string;
  protocol : Protocol;
  encryption : Encryption;
  transport : Transport;
  net_in : option NetIn;
  net_in6 : option NetIn6;
  net_rc : option NetRc;
  net_l2 : option NetL2;
  net_un : option NetUn
}.

Record Broker : Type := {
  broker_disabled : option bool;
  session_store : string;
  mqtt : option Mqtt;
  network : Network;
  broker_prefix : option string;
  topics : list Topic
}.

Record Bridge : Type := {
  bridge_disabled : option bool;
  name : string;
  bridge_prefix : option string;
  brokers : list Broker
}.

Record BridgesConfig : Type := { bridges : list Bridge }.

(** The default values. *)
Definition defaultMqtt : Mqtt := {|
  client_id := ""; keep_alive := 60; clean_session := true;
  will_topic := ""; will_message := ""; will_qos := 0; will_retain := false;
  username := ""; password := ""; loop_prevention := false |}.

Definition defaultTopic : Topic := {| topic := "#"; qos := 0 |}.

Definition defaultNetwork : Network := {|
  instance_name := ""; protocol := proto_in; encryption := legacy;
  transport := stream;
  net_in := Some {| in_host := ""; in_port := 1883 |};
  net_in6 := None; net_rc := None; net_l2 := None; net_un := None |}.

Definition defaultBroker : Broker := {|
  broker_disabled := None; session_store := ""; mqtt := Some defaultMqtt;
  network := defaultNetwork; broker_prefix := None; topics := [defaultTopic] |}.

Definition defaultBridge : Bridge := {|
  bridge_disabled := None; name := ""; bridge_prefix := None;
  brokers := [defaultBroker; defaultBroker] |}.

(** ** The documents as JSON objects *)

Definition Protocol_string (p : Protocol) : string :=
  match p with
  | proto_in => "in" | proto_in6 => "in6" | proto_l2 => "l2"
  | proto_rc => "rc" | proto_un => "un"
  end.

Definition Encryption_string (e : Encryption) : string :=
  match e with legacy => "legacy" | tls => "tls" end.

Definition Transport_string (t : Transport) : string :=
  match t with stream => "stream" | websocket => "websocket" end.

Definition Topic_value (t : Topic) : Value :=
  Map [("topic", Str (topic t)); ("qos", Num (qos t))].

Definition Mqtt_value (m : Mqtt) : Value :=
  Map [("client_id", Str (client_id m)); ("keep_alive", Num (keep_alive m));
       ("clean_session", Bool (clean_session m)); ("will_topic", Str (will_topic m));
       ("will_message", Str (will_message m)); ("will_qos", Num (will_qos m));
       ("will_retain", Bool (will_retain m)); ("username", Str (username m));
       ("password", Str (password m)); ("loop_prevention", Bool (loop_prevention m))].

Definition NetIn_value (a : NetIn) : Value :=
  Map [("host", Str (in_host a)); ("port", Num (in_port a))].
Definition NetIn6_value (a : NetIn6) : Value :=
  Map [("host", Str (in6_host a)); ("port", Num (in6_port a))].
Definition NetRc_value (a : NetRc) : Value :=
  Map [("host", Str (rc_host a)); ("channel", Num (rc_channel a))].
Definition NetL2_value (a : NetL2) : Value :=
  Map [("host", Str (l2_host a)); ("psm", Num (l2_psm a))].
Definition NetUn_value (a : NetUn) : Value :=
  Map [("path", Str (un_path a))].

(** ** [cleanConfig] *)

(** A property that is assigned only when its value is truthy. *)
Definition when_some {A} (key : string) (f : A -> Value) (x : option A)
  : list (string * Value) :=
  match x with
  | Some a => [(key, f a)]
  | None => []
  end.

Definition truthy_bool (b : option bool) : option bool :=
  match b with Some true => Some true | _ => None end.

Definition truthy_string (s : option string) : option string :=
  match s with
  | Some s => if String.eqb s "" then None else Some s
  | None => None
  end.

(** The protocol-specific address, assigned to [cleanBroker.network] by
    the [switch] when the working document has it. *)
Definition address_field (n : Network) : list (string * Value) :=
  match protocol n with
  | proto_in => when_some "in" NetIn_value (net_in n)
  | proto_in6 => when_some "in6" NetIn6_value (net_in6 n)
  | proto_rc => when_some "rc" NetRc_value (net_rc n)
  | proto_l2 => when_some "l2" NetL2_value (net_l2 n)
  | proto_un => when_some "un" NetUn_value (net_un n)
  end.

Definition cleanBroker (broker : Broker) : Value :=
  Map ([("network",
         Map ([("instance_name", Str (instance_name (network broker)));
               ("protocol", Str (Protocol_string (protocol (network broker))));
               ("encryption", Str (Encryption_string (encryption (network broker))));
               ("transport", Str (Transport_string (transport (network broker))))]
              ++ address_field (network broker)));
        ("mqtt", match mqtt broker with Some m => Mqtt_value m | None => Map [] end);
        ("topics", Seq (Topic_value <$> topics broker))]
       ++ when_some "disabled" Bool (truthy_bool (broker_disabled broker))
       ++ when_some "session_store" Str (truthy_string (Some (session_store broker)))
       ++ when_some "prefix" Str (truthy_string (broker_prefix broker))).

Definition cleanBridge (bridge : Bridge) : Value :=
  Map ([("name", Str (name bridge));
        ("brokers", Seq (cleanBroker <$> brokers bridge))]
       ++ when_some "disabled" Bool (truthy_bool (bridge_disabled bridge))
       ++ when_some "prefix" Str (truthy_string (bridge_prefix bridge))).

Definition cleanConfig (cfg : BridgesConfig) : Value :=
  Map [("bridges", Seq (cleanBridge <$> bridges cfg))].

(** ** The network boundary *)

(** What [response.json()] gives for the document endpoint: a rejection
    (the body is not JSON), a value that fails the structural test of
    [loadConfig] ([data === null || typeof data !== 'object' ||
    !Array.isArray(data.bridges)]), or a configuration document. *)
Inductive Body : Type :=
| BodyNotJSON (message : string)
| BodyInvalid
| BodyConfig (data : BridgesConfig).

(** How an awaited [fetch] settles: rejected, or resolved with a
    response. *)
Inductive Response : Type :=
| NetworkError (message : string)
| HttpResponse (ok : bool) (statusText : string) (body : Body).

Inductive Request : Type :=
| GET (url : string)
| PATCH (url : string) (contentType : string) (body : list PatchOp).

(** ** The component state the sync client uses *)

Record State : Type := {
  config : BridgesConfig;
  isLoading : bool;
  lastSavedConfigRef : option BridgesConfig;
  latestConfigRef : BridgesConfig;
  toasts : list Toast
}.

Definition initial : State := {|
  config := {| bridges := [defaultBridge] |};
  isLoading := true;
  lastSavedConfigRef := None;
  latestConfigRef := {| bridges := [defaultBridge] |};
  toasts := []
|}.

Definition toast (t : Toast) (st : State) : State :=
  {| config := config st; isLoading := isLoading st;
     lastSavedConfigRef := lastSavedConfigRef st;
     latestConfigRef := latestConfigRef st; toasts := toasts st ++ [t] |}.

Definition set_lastSavedConfigRef (c : BridgesConfig) (st : State) : State :=
  {| config := config st; isLoading := isLoading st;
     lastSavedConfigRef := Some c;
     latestConfigRef := latestConfigRef st; toasts := toasts st |}.

Definition set_latestConfigRef (c : BridgesConfig) (st : State) : State :=
  {| config := config st; isLoading := isLoading st;
     lastSavedConfigRef := lastSavedConfigRef st;
     latestConfigRef := c; toasts := toasts st |}.

Definition setConfig (c : BridgesConfig) (st : State) : State :=
  {| config := c; isLoading := isLoading st;
     lastSavedConfigRef := lastSavedConfigRef st;
     latestConfigRef := latestConfigRef st; toasts := toasts st |}.

Definition setIsLoading (b : bool) (st : State) : State :=
  {| config := config st; isLoading := b;
     lastSavedConfigRef := lastSavedConfigRef st;
     latestConfigRef := latestConfigRef st; toasts := toasts st |}.

(** [JSON.parse(JSON.stringify(c))]: a fresh copy of the same document. *)
Definition deep_clone (c : BridgesConfig) : BridgesConfig := c.

(** ** [loadConfig]

    The function runs to its [await fetch(...)], and is resumed with the
    way the request settled.  [config] is the component state its closure
    holds. *)
Definition loadConfig_begin (st : State) : State * Request :=
  (setIsLoading true st, GET "/api/bridge/config").

(** The [catch] block followed by [finally]. *)
Definition loadConfig_catch (config : BridgesConfig) (message : string) (st : State)
  : State :=
  setIsLoading false
    (set_latestConfigRef config
       (set_lastSavedConfigRef (deep_clone config)
          (toast (toast_error "Failed to load configuration" (Some message)) st))).

Definition loadConfig_resume (config : BridgesConfig) (r : Response) (st : State)
  : State :=
  match r with
  | NetworkError message => loadConfig_catch config message st
  | HttpResponse ok statusText body =>
      if negb ok then
        loadConfig_catch config ("Failed to load configuration: " +:+ statusText) st
      else
        match body with
        | BodyNotJSON message => loadConfig_catch config message st
        | BodyInvalid =>
            loadConfig_catch config
              "Invalid configuration format received from server" st
        | BodyConfig data =>
            setIsLoading false
              (toast (toast_success "Configuration loaded successfully")
                 (set_latestConfigRef data
                    (set_lastSavedConfigRef (deep_clone data)
                       (setConfig data st))))
        end
  end.

(** ** [sendPatchToServer]

    Up to the [await fetch(...)]: the request that is issued, or [None]
    when the function returns before (no reference document yet, or an
    empty patch). *)
Definition sendPatchToServer_begin (newConfig : BridgesConfig) (st : State)
  : option Request :=
  match lastSavedConfigRef st with
  | None => None
  | Some saved =>
      let cleanedOld := cleanConfig saved in
      let cleanedNew := cleanConfig newConfig in
      let patch := generateJSONPatch cleanedOld cleanedNew "" in
      match patch with
      | [] => None
      | _ => Some (PATCH "/api/bridge/config" "application/json-patch+json" patch)
      end
  end.

(** After the [await]: the response, on the state as it is then. *)
Definition sendPatchToServer_resume (newConfig : BridgesConfig) (r : Response)
  (st : State) : State :=
  match r with
  | NetworkError message =>
      toast (toast_error "Failed to save configuration" (Some message)) st
  | HttpResponse ok statusText _ =>
      if negb ok then
        toast (toast_error "Failed to save configuration"
                 (Some ("Failed to save configuration: " +:+ statusText))) st
      else set_lastSavedConfigRef (deep_clone newConfig) st
  end.

(** [response.ok] of a fetch that resolved. *)
Definition succeeded (r : Response) : bool :=
  match r with
  | HttpResponse ok _ _ => ok
  | NetworkError _ => false
  end.

(** A call of [sendPatchToServer] that nothing else interleaves with,
    its request settling with [r]. *)
Definition sendPatchToServer (newConfig : BridgesConfig) (r : Response) (st : State)
  : State :=
  match sendPatchToServer_begin newConfig st with
  | Some _ => sendPatchToServer_resume newConfig r st
  | None => st
  end.

(** A call of [loadConfig] that nothing else interleaves with. *)
Definition loadConfig (r : Response) (st : State) : State :=
  loadConfig_resume (config st) r (loadConfig_begin st).1.

(** The load succeeds: the response is a success and its body is a
    configuration document. *)
Definition loaded (r : Response) : option BridgesConfig :=
  match r with
  | HttpResponse true _ (BodyConfig data) => Some data
  | _ => None
  end.

(** ** The event loop

    The component with the requests that are in flight, each with the
    continuation that awaits it.  [Trigger newConfig] is a call
    [sendPatchToServer(newConfig)], as [addBridge], [removeBridge],
    [duplicateBridge] and [handleSaveToServer] make; [Settle i r] settles
    the [i]-th request in flight with [r]. *)
Inductive Awaiting : Type :=
| AwaitLoad (config : BridgesConfig)
| AwaitSave (newConfig : BridgesConfig).

Record System : Type := {
  app : State;
  inflight : list (Request * Awaiting);
  sent : list Request
}.

Inductive Event : Type :=
| Mount
| Trigger (newConfig : BridgesConfig)
| Settle (i : nat) (r : Response).

Definition issue (req : Request) (k : Awaiting) (st : State) (sys : System) : System :=
  {| app := st; inflight := inflight sys ++ [(req, k)]; sent := sent sys ++ [req] |}.

Definition resume (k : Awaiting) (r : Response) (st : State) : State :=
  match k with
  | AwaitLoad config => loadConfig_resume config r st
  | AwaitSave newConfig => sendPatchToServer_resume newConfig r st
  end.

Definition step (sys : System) (e : Event) : System :=
  match e with
  | Mount =>
      let '(st, req) := loadConfig_begin (app sys) in
      issue req (AwaitLoad (config (app sys))) st sys
  | Trigger newConfig =>
      match sendPatchToServer_begin newConfig (app sys) with
      | Some req => issue req (AwaitSave newConfig) (app sys) sys
      | None => sys
      end
  | Settle i r =>
      match inflight sys !! i with
      | Some (_, k) =>
          {| app := resume k r (app sys);
             inflight := delete i (inflight sys);
             sent := sent sys |}
      | None => sys
      end
  end.

Definition run (sys : System) (es : list Event) : System := foldl step sys es.

Definition boot : System := {| app := initial; inflight := []; sent := [] |}.

(** The PATCH bodies among the requests in flight. *)
Definition patches_in_flight (sys : System) : list (list PatchOp) :=
  omap (fun rk => match rk.1 with PATCH _ _ body => Some body | GET _ => None end)
       (inflight sys).

End Sync.

(* ===================================================================== *)
(** * The live event channel and the status maps *)
(* ===================================================================== *)

Module Live.
Import Json Env.

Inductive BridgeState : Type :=
| BridgeDisabled | BridgeStarting | BridgeStarted | BridgeStopping | BridgeStopped.

Inductive BrokerState : Type :=
| BrokerDisabled | BrokerConnecting | BrokerConnected
| BrokerDisconnecting | BrokerDisconnected.

Inductive BridgesSystemState : Type :=
| SystemStarting | SystemStarted | SystemStopping | SystemStopped.

#[global] Instance BridgeState_eq_dec : EqDecision BridgeState.
Proof. solve_decision. Defined.

#[global] Instance BrokerState_eq_dec : EqDecision BrokerState.
Proof. solve_decision. Defined.

#[global] Instance BridgesSystemState_eq_dec : EqDecision BridgesSystemState.
Proof. solve_decision. Defined.

(** A JavaScript time value: milliseconds, or [NaN] of an invalid date. *)
Inductive Millis : Type :=
| NaN
| Ms (ms : Z).

(** The state and the refs of the component that the channel uses, with
    the notifications and the console lines it has produced.  A timer
    handle of [window.setTimeout] is a positive integer, an [EventSource]
    is known by the number of its creation. *)
Record State : Type := {
  bridgeStates : gmap string BridgeState;
  brokerStates : gmap string BrokerState;
  bridgesSystemState : option BridgesSystemState;
  systemStartTime : option Millis;
  eventSourceRef : option nat;
  reconnectTimeoutRef : option positive;
  toasts : list Toast;
  console : list LogLine
}.

Definition initial : State := {|
  bridgeStates := ∅; brokerStates := ∅;
  bridgesSystemState := None; systemStartTime := None;
  eventSourceRef := None; reconnectTimeoutRef := None;
  toasts := []; console := []
|}.

Definition setBridgeStates (f : gmap string BridgeState -> gmap string BridgeState)
  (st : State) : State :=
  {| bridgeStates := f (bridgeStates st); brokerStates := brokerStates st;
     bridgesSystemState := bridgesSystemState st;
     systemStartTime := systemStartTime st;
     eventSourceRef := eventSourceRef st;
     reconnectTimeoutRef := reconnectTimeoutRef st;
     toasts := toasts st; console := console st |}.

Definition setBrokerStates (f : gmap string BrokerState -> gmap string BrokerState)
  (st : State) : State :=
  {| bridgeStates := bridgeStates st; brokerStates := f (brokerStates st);
     bridgesSystemState := bridgesSystemState st;
     systemStartTime := systemStartTime st;
     eventSourceRef := eventSourceRef st;
     reconnectTimeoutRef := reconnectTimeoutRef st;
     toasts := toasts st; console := console st |}.

Definition setBridgesSystemState (s : BridgesSystemState) (st : State) : State :=
  {| bridgeStates := bridgeStates st; brokerStates := brokerStates st;
     bridgesSystemState := Some s;
     systemStartTime := systemStartTime st;
     eventSourceRef := eventSourceRef st;
     reconnectTimeoutRef := reconnectTimeoutRef st;
     toasts := toasts st; console := console st |}.

Definition setSystemStartTime (t : option Millis) (st : State) : State :=
  {| bridgeStates := bridgeStates st; brokerStates := brokerStates st;
     bridgesSystemState := bridgesSystemState st;
     systemStartTime := t;
     eventSourceRef := eventSourceRef st;
     reconnectTimeoutRef := reconnectTimeoutRef st;
     toasts := toasts st; console := console st |}.

Definition set_eventSourceRef (r : option nat) (st : State) : State :=
  {| bridgeStates := bridgeStates st; brokerStates := brokerStates st;
     bridgesSystemState := bridgesSystemState st;
     systemStartTime := systemStartTime st;
     eventSourceRef := r;
     reconnectTimeoutRef := reconnectTimeoutRef st;
     toasts := toasts st; console := console st |}.

Definition set_reconnectTimeoutRef (r : option positive) (st : State) : State :=
  {| bridgeStates := bridgeStates st; brokerStates := brokerStates st;
     bridgesSystemState := bridgesSystemState st;
     systemStartTime := systemStartTime st;
     eventSourceRef := eventSourceRef st;
     reconnectTimeoutRef := r;
     toasts := toasts st; console := console st |}.

Definition toast (t : Toast) (st : State) : State :=
  {| bridgeStates := bridgeStates st; brokerStates := brokerStates st;
     bridgesSystemState := bridgesSystemState st;
     systemStartTime := systemStartTime st;
     eventSourceRef := eventSourceRef st;
     reconnectTimeoutRef := reconnectTimeoutRef st;
     toasts := toasts st ++ [t]; console := console st |}.

Definition log (l : LogLine) (st : State) : State :=
  {| bridgeStates := bridgeStates st; brokerStates := brokerStates st;
     bridgesSystemState := bridgesSystemState st;
     systemStartTime := systemStartTime st;
     eventSourceRef := eventSourceRef st;
     reconnectTimeoutRef := reconnectTimeoutRef st;
     toasts := toasts st; console := console st ++ [l] |}.

(** ** The event listener *)

(** The event names a listener is registered for. *)
Definition events : list string :=
  ["bridges_starting"; "bridges_started"; "bridges_stopping"; "bridges_stopped";
   "bridge_disabled"; "bridge_starting"; "bridge_started"; "bridge_stopping";
   "bridge_stopped";
   "broker_disabled"; "broker_connecting"; "broker_connected";
   "broker_disconnecting"; "broker_disconnected"].

(** [data.key] used as a condition: the property is there and truthy. *)
Definition truthy_prop (data : Value) (key : string) : bool :=
  match get_prop data key with
  | Some v => truthy v
  | None => false
  end.

(** [String(data.key)] where the property is there. *)
Definition prop_string (data : Value) (key : string) : string :=
  match get_prop data key with
  | Some v => toString v
  | None => "undefined"
  end.

(** The last piece of [data.instance] after a plus sign when it is a
    string that has one, [data.instance] itself otherwise; as the template
    literal prints it. *)
Definition instanceName (data : Value) : string :=
  match get_prop data "instance" with
  | Some (Str s) =>
      if String_includes "+" s then List.last (String_split "+" s) "" else s
  | Some v => toString v
  | None => "undefined"
  end.

Definition brokerKey (data : Value) : string :=
  prop_string data "bridge" +:+ "/" +:+ instanceName data.

Section Listener.
(** [new Date(v).getTime()] on a JSON value. *)
Variable Date_getTime : Value -> Millis.

(** The first block of the listener: the bridge states. *)
Definition update_bridge (eventName : string) (data : Value) (st : State) : State :=
  let set s := setBridgeStates (insert (prop_string data "name") s) st in
  if String.eqb eventName "bridge_disabled" && truthy_prop data "name"
  then set BridgeDisabled
  else if String.eqb eventName "bridge_starting" && truthy_prop data "name"
  then set BridgeStarting
  else if String.eqb eventName "bridge_started" && truthy_prop data "name"
  then set BridgeStarted
  else if String.eqb eventName "bridge_stopping" && truthy_prop data "name"
  then set BridgeStopping
  else if String.eqb eventName "bridge_stopped" && truthy_prop data "name"
  then set BridgeStopped
  else st.

(** The second block: the broker states. *)
Definition update_broker (eventName : string) (data : Value) (st : State) : State :=
  if truthy_prop data "bridge" && truthy_prop data "instance" then
    let set s := setBrokerStates (insert (brokerKey data) s) st in
    if String.eqb eventName "broker_disabled" then set BrokerDisabled
    else if String.eqb eventName "broker_connecting" then set BrokerConnecting
    else if String.eqb eventName "broker_connected" then set BrokerConnected
    else if String.eqb eventName "broker_disconnecting" then set BrokerDisconnecting
    else if String.eqb eventName "broker_disconnected" then set BrokerDisconnected
    else st
  else st.

(** [data.at ? new Date(data.at).getTime() : Date.now()].  On an array
    or a string [data.at] is the method [at] of the prototype, a truthy
    function, which is not a date. *)
Definition startTime (data : Value) (now : Z) : Millis :=
  match data with
  | Seq _ | Str _ => NaN
  | _ =>
      match get_prop data "at" with
      | Some v => if truthy v then Date_getTime v else Ms now
      | None => Ms now
      end
  end.

(** The third block: the state of the whole system. *)
Definition update_system (eventName : string) (data : Value) (now : Z) (st : State)
  : State :=
  if String.eqb eventName "bridges_starting" then
    setSystemStartTime None (setBridgesSystemState SystemStarting st)
  else if String.eqb eventName "bridges_started" then
    setSystemStartTime (Some (startTime data now))
      (setBridgesSystemState SystemStarted st)
  else if String.eqb eventName "bridges_stopping" then
    setBridgesSystemState SystemStopping st
  else if String.eqb eventName "bridges_stopped" then
    setSystemStartTime None (setBridgesSystemState SystemStopped st)
  else st.

(** The [catch] block of the listener. *)
Definition listener_catch (eventName : string) (st : State) : State :=
  toast (toast_error ("Error processing " +:+ eventName +:+ " event") None)
    (log (console_error ("Error handling SSE event [" +:+ eventName +:+ "]:")) st).

(** The listener of [eventName].  [payload] is what
    [JSON.parse(event.data)] gives, [None] when it throws.  Reading a
    property of [null] throws as well, and every path through the
    [try] block reads one before it updates anything. *)
Definition listener (eventName : string) (payload : option Value) (now : Z)
  (st : State) : State :=
  match payload with
  | None | Some Null => listener_catch eventName st
  | Some data =>
      update_system eventName data now
        (update_broker eventName data (update_bridge eventName data st))
  end.

(** An event of the stream: the listeners are registered for [events]
    only. *)
Definition dispatch (eventName : string) (payload : option Value) (now : Z)
  (st : State) : State :=
  if bool_decide (eventName ∈ events) then listener eventName payload now st
  else st.
End Listener.

(** ** The channel and its reconnect timer *)

(** The component in its browser: the [EventSource] objects that are not
    closed, the timeouts that are pending with the time each is due, and
    the clock, in milliseconds. *)
Record World : Type := {
  ui : State;
  sources : list nat;
  next_source : nat;
  timers : list (positive * Z);
  next_timer : positive;
  now : Z
}.

Definition boot : World := {|
  ui := initial; sources := []; next_source := 0;
  timers := []; next_timer := 1; now := 0
|}.

Definition on_ui (f : State -> State) (w : World) : World :=
  {| ui := f (ui w); sources := sources w; next_source := next_source w;
     timers := timers w; next_timer := next_timer w; now := now w |}.

(** [es.close()]. *)
Definition close (es : nat) (w : World) : World :=
  {| ui := ui w; sources := filter (fun x => x <> es) (sources w);
     next_source := next_source w;
     timers := timers w; next_timer := next_timer w; now := now w |}.

(** [new EventSource(url)], when the constructor returns. *)
Definition new_EventSource (w : World) : nat * World :=
  (next_source w,
   {| ui := ui w; sources := sources w ++ [next_source w];
      next_source := S (next_source w);
      timers := timers w; next_timer := next_timer w; now := now w |}).

(** [clearTimeout(t)]. *)
Definition clearTimeout (t : positive) (w : World) : World :=
  {| ui := ui w; sources := sources w; next_source := next_source w;
     timers := filter (fun p => p.1 <> t) (timers w);
     next_timer := next_timer w; now := now w |}.

(** [window.setTimeout(callback, delay)]: the handle, and the timeout
    pending. *)
Definition setTimeout (delay : Z) (w : World) : positive * World :=
  (next_timer w,
   {| ui := ui w; sources := sources w; next_source := next_source w;
      timers := timers w ++ [(next_timer w, now w + delay)%Z];
      next_timer := Pos.succ (next_timer w); now := now w |}).

(** The reconnect delay. *)
Definition reconnect_delay : Z := 5000.

(** Scheduling [connectToSSE] after the delay and keeping the handle in
    [reconnectTimeoutRef]. *)
Definition schedule_reconnect (w : World) : World :=
  let '(t, w') := setTimeout reconnect_delay w in
  on_ui (set_reconnectTimeoutRef (Some t)) w'.

(** [connectToSSE()].  [constructs] tells whether [new EventSource]
    returns; when it throws, the [catch] block schedules a retry. *)
Definition connectToSSE (constructs : bool) (w : World) : World :=
  let w1 :=
    match eventSourceRef (ui w) with
    | Some es => close es w
    | None => w
    end in
  let w2 :=
    match reconnectTimeoutRef (ui w1) with
    | Some t => on_ui (set_reconnectTimeoutRef None) (clearTimeout t w1)
    | None => w1
    end in
  if constructs then
    let '(es, w3) := new_EventSource w2 in
    on_ui (set_eventSourceRef (Some es)) w3
  else
    schedule_reconnect
      (on_ui (log (console_error "Failed to create SSE connection:")) w2).

(** [eventSource.onopen]. *)
Definition onopen (w : World) : World :=
  on_ui (log (console_log "SSE connection established")) w.

(** [eventSource.onerror]. *)
Definition onerror (w : World) : World :=
  let w1 := on_ui (log (console_error "SSE connection error:")) w in
  let w2 :=
    match eventSourceRef (ui w1) with
    | Some es => on_ui (set_eventSourceRef None) (close es w1)
    | None => w1
    end in
  schedule_reconnect
    (on_ui (log (console_log "Attempting to reconnect in 5 seconds...")) w2).

(** The pending timeout [t] fires: it is not pending any more, and its
    callback runs [connectToSSE]. *)
Definition timeout_fires (t : positive) (constructs : bool) (w : World) : World :=
  connectToSSE constructs (clearTimeout t w).

(** The cleanup of the mount effect. *)
Definition cleanup (w : World) : World :=
  let w1 :=
    match eventSourceRef (ui w) with
    | Some es => on_ui (set_eventSourceRef None) (close es w)
    | None => w
    end in
  match reconnectTimeoutRef (ui w1) with
  | Some t => on_ui (set_reconnectTimeoutRef None) (clearTimeout t w1)
  | None => w1
  end.

(** Time passes. *)
Definition tick (d : Z) (w : World) : World :=
  {| ui := ui w; sources := sources w; next_source := next_source w;
     timers := timers w; next_timer := next_timer w; now := (now w + d)%Z |}.

(** What the browser can do to the component.  An [EventSource] that is
    closed delivers nothing: [error] and the named events come from an
    open one only.  A timeout fires when it is pending and due. *)
Inductive step : World -> World -> Prop :=
| step_mount constructs w :
    step w (connectToSSE constructs w)
| step_cleanup w :
    step w (cleanup w)
| step_tick d w :
    (0 <= d)%Z -> step w (tick d w)
| step_open es w :
    es ∈ sources w -> step w (onopen w)
| step_error es w :
    es ∈ sources w -> step w (onerror w)
| step_event Date_getTime es eventName payload w :
    es ∈ sources w ->
    step w (on_ui (dispatch Date_getTime eventName payload (now w)) w)
| step_timeout t due constructs w :
    (t, due) ∈ timers w -> (due <= now w)%Z ->
    step w (timeout_fires t constructs w).

Definition reachable (w : World) : Prop := rtc step boot w.


(** What holds of the channel in every reachable world: an open source
    is the one [eventSourceRef] holds, and a pending timeout is the only
    one, is the one [reconnectTimeoutRef] holds, and is pending while no
    source is open. *)
Definition channel_inv (w : World) : Prop :=
  (forall es, es ∈ sources w -> eventSourceRef (ui w) = Some es)
  /\ (timers w = []
      \/ exists t due,
           timers w = [(t, due)]
           /\ reconnectTimeoutRef (ui w) = Some t
           /\ sources w = []).


End Live.

(* ===================================================================== *)
(** * What the forms show of the live state *)
(* ===================================================================== *)

Module View.
Import Json Sync Live.

(** The state a bridge form is given: [bridgeStates[bridge.name]]. *)
Definition bridgeState_shown (bridgeStates : gmap string BridgeState) (bridge : Bridge)
  : option BridgeState :=
  bridgeStates !! name bridge.

(** The state a broker form is given by the form of its bridge:
    [brokerStates[`${bridge.name}/${broker.network.instance_name}`]]. *)
Definition brokerState_shown (brokerStates : gmap string BrokerState)
  (bridge : Bridge) (broker : Broker) : option BrokerState :=
  brokerStates !! (name bridge +:+ "/" +:+ instance_name (network broker)).

(** [formatUptime(seconds)], on a whole number of seconds.  The source
    divides doubles; on the whole numbers below 2^53 the quotients it
    floors and the digits it prints are the ones of the integer
    division written here, and the statements keep to that range. *)
Definition formatUptime (seconds : Z) : string :=
  if (seconds <? 60)%Z then pretty seconds +:+ " sec"
  else if (seconds <? 3600)%Z then
    let minutes := (seconds / 60)%Z in
    pretty minutes +:+ " min"
  else
    let hours := (seconds / 3600)%Z in
    let minutes := (Z.rem seconds 3600 / 60)%Z in
    pretty hours +:+ " h " +:+ pretty minutes +:+ " min".

(** A time value used as a condition: a number that is neither [NaN] nor
    zero. *)
Definition truthy_time (t : option Millis) : bool :=
  match t with
  | Some (Ms ms) => negb (ms =? 0)%Z
  | _ => false
  end.

(** The uptime the effect of [SystemStatusText] stores, at the time [now]
    of its run: [Math.floor((Date.now() - startTime) / 1000) + 1] when the
    system is started and has a start time, the value it had otherwise. *)
Definition uptime_effect (state : option BridgesSystemState)
  (startTime : option Millis) (now : Z) (uptime : Z) : Z :=
  match state, startTime with
  | Some SystemStarted, Some (Ms ms) =>
      if truthy_time startTime then ((now - ms) / 1000 + 1)%Z else uptime
  | _, _ => uptime
  end.

(** The text [SystemStatusText] renders, [None] where it renders
    nothing. *)
Definition statusText (state : option BridgesSystemState) (uptime : Z)
  : option string :=
  match state with
  | None => None
  | Some SystemStarting => Some "system pending..."
  | Some SystemStarted => Some ("running - uptime: " +:+ formatUptime uptime)
  | Some SystemStopping => Some "shutting down"
  | Some SystemStopped => Some "system down"
  end.

End View.

(* ===================================================================== *)
(** * The forms and the handlers of the application *)
(* ===================================================================== *)

(** The two array idioms of the handlers. *)
Module Arrays.

(** [array.filter((_, i) => i !== index)]. *)
Definition filter_index {A} (index : nat) (l : list A) : list A :=
  (filter (fun p => p.1 <> index) (imap pair l)).*2.

(** [copy = [...array]; copy[index] = x].  An index at the length appends;
    one beyond it leaves holes in the copy, which no list has: [None]. *)
Definition set_index {A} (index : nat) (x : A) (l : list A) : option (list A) :=
  if decide (index < length l) then Some (<[index := x]> l)
  else if decide (index = length l) then Some (l ++ [x])
  else None.

End Arrays.

Module NetworkAddressForm.
Import Json Sync.

Definition with_in (a : option NetIn) (n : Network) : Network :=
  {| instance_name := instance_name n; protocol := protocol n;
     encryption := encryption n; transport := transport n;
     net_in := a; net_in6 := net_in6 n; net_rc := net_rc n;
     net_l2 := net_l2 n; net_un := net_un n |}.

Definition with_in6 (a : option NetIn6) (n : Network) : Network :=
  {| instance_name := instance_name n; protocol := protocol n;
     encryption := encryption n; transport := transport n;
     net_in := net_in n; net_in6 := a; net_rc := net_rc n;
     net_l2 := net_l2 n; net_un := net_un n |}.

Definition with_rc (a : option NetRc) (n : Network) : Network :=
  {| instance_name := instance_name n; protocol := protocol n;
     encryption := encryption n; transport := transport n;
     net_in := net_in n; net_in6 := net_in6 n; net_rc := a;
     net_l2 := net_l2 n; net_un := net_un n |}.

Definition with_l2 (a : option NetL2) (n : Network) : Network :=
  {| instance_name := instance_name n; protocol := protocol n;
     encryption := encryption n; transport := transport n;
     net_in := net_in n; net_in6 := net_in6 n; net_rc := net_rc n;
     net_l2 := a; net_un := net_un n |}.

Definition with_un (a : option NetUn) (n : Network) : Network :=
  {| instance_name := instance_name n; protocol := protocol n;
     encryption := encryption n; transport := transport n;
     net_in := net_in n; net_in6 := net_in6 n; net_rc := net_rc n;
     net_l2 := net_l2 n; net_un := a |}.

(** The calls [updateProtocolField(protocol, field, value)] that the
    inputs of [renderAddressFields] make: the protocol with a field of
    its address and a value of the type of that field. *)
Inductive AddressEdit : Type :=
| edit_in_host (value : string)
| edit_in_port (value : Z)
| edit_in6_host (value : string)
| edit_in6_port (value : Z)
| edit_rc_host (value : string)
| edit_rc_channel (value : Z)
| edit_l2_host (value : string)
| edit_l2_psm (value : Z)
| edit_un_path (value : string).

Definition edit_protocol (e : AddressEdit) : Protocol :=
  match e with
  | edit_in_host _ | edit_in_port _ => proto_in
  | edit_in6_host _ | edit_in6_port _ => proto_in6
  | edit_rc_host _ | edit_rc_channel _ => proto_rc
  | edit_l2_host _ | edit_l2_psm _ => proto_l2
  | edit_un_path _ => proto_un
  end.

(** [updateProtocolField]: the network handed to [onChange].  The address
    that is spread is the one the network has, or the default one. *)
Definition updateProtocolField (network : Network) (e : AddressEdit) : Network :=
  match e with
  | edit_in_host value =>
      let a := default {| in_host := ""; in_port := 1883 |} (net_in network) in
      with_in (Some {| in_host := value; in_port := in_port a |}) network
  | edit_in_port value =>
      let a := default {| in_host := ""; in_port := 1883 |} (net_in network) in
      with_in (Some {| in_host := in_host a; in_port := value |}) network
  | edit_in6_host value =>
      let a := default {| in6_host := ""; in6_port := 1883 |} (net_in6 network) in
      with_in6 (Some {| in6_host := value; in6_port := in6_port a |}) network
  | edit_in6_port value =>
      let a := default {| in6_host := ""; in6_port := 1883 |} (net_in6 network) in
      with_in6 (Some {| in6_host := in6_host a; in6_port := value |}) network
  | edit_rc_host value =>
      let a := default {| rc_host := ""; rc_channel := 1 |} (net_rc network) in
      with_rc (Some {| rc_host := value; rc_channel := rc_channel a |}) network
  | edit_rc_channel value =>
      let a := default {| rc_host := ""; rc_channel := 1 |} (net_rc network) in
      with_rc (Some {| rc_host := rc_host a; rc_channel := value |}) network
  | edit_l2_host value =>
      let a := default {| l2_host := ""; l2_psm := 1 |} (net_l2 network) in
      with_l2 (Some {| l2_host := value; l2_psm := l2_psm a |}) network
  | edit_l2_psm value =>
      let a := default {| l2_host := ""; l2_psm := 1 |} (net_l2 network) in
      with_l2 (Some {| l2_host := l2_host a; l2_psm := value |}) network
  | edit_un_path value =>
      with_un (Some {| un_path := value |}) network
  end.

(** [parseInt(text) || fallback], on what [parseInt] gives: a whole
    number, or [NaN], which is [None]. *)
Definition parseInt_or (parsed : option Z) (fallback : Z) : Z :=
  match parsed with
  | Some n => if (n =? 0)%Z then fallback else n
  | None => fallback
  end.

(** What is typed into the inputs that [renderAddressFields] renders for
    the protocol of the network: the text of the first input, or the
    text of the number input beside it, as [parseInt] reads it. *)
Inductive Typed : Type :=
| typed_text (text : string)
| typed_number (parsed : option Z).

(** The [onChange] handlers of [renderAddressFields]; the form of a
    socket path has no number input. *)
Definition renderAddressFields (network : Network) (typed : Typed)
  : option AddressEdit :=
  match protocol network, typed with
  | proto_in, typed_text text => Some (edit_in_host text)
  | proto_in, typed_number parsed => Some (edit_in_port (parseInt_or parsed 1883))
  | proto_in6, typed_text text => Some (edit_in6_host text)
  | proto_in6, typed_number parsed => Some (edit_in6_port (parseInt_or parsed 1883))
  | proto_rc, typed_text text => Some (edit_rc_host text)
  | proto_rc, typed_number parsed => Some (edit_rc_channel (parseInt_or parsed 1))
  | proto_l2, typed_text text => Some (edit_l2_host text)
  | proto_l2, typed_number parsed => Some (edit_l2_psm (parseInt_or parsed 1))
  | proto_un, typed_text text => Some (edit_un_path text)
  | proto_un, typed_number _ => None
  end.

(** The text (host, or socket path) and the number (port, channel or
    PSM) of the address that a network holds for its protocol, if it
    holds one. *)
Definition address_text (n : Network) : option string :=
  match protocol n with
  | proto_in => in_host <$> net_in n
  | proto_in6 => in6_host <$> net_in6 n
  | proto_rc => rc_host <$> net_rc n
  | proto_l2 => l2_host <$> net_l2 n
  | proto_un => un_path <$> net_un n
  end.

Definition address_number (n : Network) : option Z :=
  match protocol n with
  | proto_in => in_port <$> net_in n
  | proto_in6 => in6_port <$> net_in6 n
  | proto_rc => rc_channel <$> net_rc n
  | proto_l2 => l2_psm <$> net_l2 n
  | proto_un => None
  end.

(** The address of a protocol as a JSON object, from its text and its
    number; a socket path has no number. *)
Definition address_value (p : Protocol) (text : string) (number : Z) : Value :=
  match p with
  | proto_in | proto_in6 => Map [("host", Str text); ("port", Num number)]
  | proto_rc => Map [("host", Str text); ("channel", Num number)]
  | proto_l2 => Map [("host", Str text); ("psm", Num number)]
  | proto_un => Map [("path", Str text)]
  end.

(** The number the form falls back to: 1883 for a port, 1 for a channel
    and for a PSM. *)
Definition default_number (p : Protocol) : Z :=
  match p with
  | proto_in | proto_in6 => 1883
  | _ => 1
  end.

End NetworkAddressForm.

Module TopicsForm.
Import Json Sync Arrays.

Inductive TopicField : Type :=
| field_topic (value : string)
| field_qos (value : Z).

Definition addTopic (topics : list Topic) : list Topic :=
  topics ++ [{| topic := ""; qos := 0 |}].

Definition removeTopic (topics : list Topic) (index : nat) : list Topic :=
  filter_index index topics.

(** [updateTopic], for the index of a topic of the list. *)
Definition updateTopic (topics : list Topic) (index : nat) (f : TopicField)
  : option (list Topic) :=
  t ← topics !! index;
  Some (<[index :=
           match f with
           | field_topic value => {| topic := value; qos := qos t |}
           | field_qos value => {| topic := topic t; qos := value |}
           end]> topics).

End TopicsForm.

Module BrokerForm.
Import Json Sync NetworkAddressForm.

(** [getNetworkAddress(network)]: the address in the header of a folded
    broker form.  The case of [l2] reads the property [channel], which no
    [NetL2] has: the template prints [undefined]. *)
Definition getNetworkAddress (network : Network) : string :=
  match protocol network with
  | proto_in =>
      match net_in network with
      | Some a => in_host a +:+ ":" +:+ pretty (in_port a)
      | None => ""
      end
  | proto_in6 =>
      match net_in6 network with
      | Some a => in6_host a +:+ ":" +:+ pretty (in6_port a)
      | None => ""
      end
  | proto_l2 =>
      match net_l2 network with
      | Some a => l2_host a +:+ ":" +:+ "undefined"
      | None => ""
      end
  | proto_rc =>
      match net_rc network with
      | Some a => rc_host a +:+ ":" +:+ pretty (rc_channel a)
      | None => ""
      end
  | proto_un =>
      match net_un network with
      | Some a => un_path a
      | None => ""
      end
  end.

(** A property of [Broker] with a value for it. *)
Inductive BrokerField : Type :=
| field_disabled (value : option bool)
| field_session_store (value : string)
| field_mqtt (value : option Mqtt)
| field_network (value : Network)
| field_prefix (value : option string)
| field_topics (value : list Topic).

(** [updateField(field, value)]: the broker handed to [onChange]. *)
Definition updateField (broker : Broker) (f : BrokerField) : Broker :=
  {| broker_disabled :=
       match f with field_disabled v => v | _ => broker_disabled broker end;
     session_store :=
       match f with field_session_store v => v | _ => session_store broker end;
     mqtt := match f with field_mqtt v => v | _ => mqtt broker end;
     network := match f with field_network v => v | _ => network broker end;
     broker_prefix :=
       match f with field_prefix v => v | _ => broker_prefix broker end;
     topics := match f with field_topics v => v | _ => topics broker end |}.

(** A property of [Network] with a value for it. *)
Inductive NetworkField : Type :=
| field_instance_name (value : string)
| field_protocol (value : Protocol)
| field_encryption (value : Encryption)
| field_transport (value : Transport)
| field_in (value : option NetIn)
| field_in6 (value : option NetIn6)
| field_rc (value : option NetRc)
| field_l2 (value : option NetL2)
| field_un (value : option NetUn).

(** [{ ...broker.network, [field]: value }]. *)
Definition assign (network : Network) (f : NetworkField) : Network :=
  {| instance_name :=
       match f with field_instance_name v => v | _ => instance_name network end;
     protocol := match f with field_protocol v => v | _ => protocol network end;
     encryption := match f with field_encryption v => v | _ => encryption network end;
     transport := match f with field_transport v => v | _ => transport network end;
     net_in := match f with field_in v => v | _ => net_in network end;
     net_in6 := match f with field_in6 v => v | _ => net_in6 network end;
     net_rc := match f with field_rc v => v | _ => net_rc network end;
     net_l2 := match f with field_l2 v => v | _ => net_l2 network end;
     net_un := match f with field_un v => v | _ => net_un network end |}.

(** [updateNetworkField(field, value)]: the broker handed to [onChange].
    When the field is the protocol, the five addresses are deleted and
    the one of the new protocol is set to its default. *)
Definition updateNetworkField (broker : Broker) (f : NetworkField) : Broker :=
  let updatedNetwork := assign (network broker) f in
  let updatedNetwork :=
    match f with
    | field_protocol value =>
        let cleared :=
          with_un None (with_l2 None (with_rc None (with_in6 None
            (with_in None updatedNetwork)))) in
        match value with
        | proto_in => with_in (Some {| in_host := ""; in_port := 1883 |}) cleared
        | proto_in6 => with_in6 (Some {| in6_host := ""; in6_port := 1883 |}) cleared
        | proto_rc => with_rc (Some {| rc_host := ""; rc_channel := 1 |}) cleared
        | proto_l2 => with_l2 (Some {| l2_host := ""; l2_psm := 1 |}) cleared
        | proto_un => with_un (Some {| un_path := "" |}) cleared
        end
    | _ => updatedNetwork
    end in
  updateField broker (field_network updatedNetwork).

End BrokerForm.

Module BridgeForm.
Import Json Sync Arrays.

(** A property of [Bridge] with a value for it. *)
Inductive BridgeField : Type :=
| field_disabled (value : option bool)
| field_name (value : string)
| field_prefix (value : option string)
| field_brokers (value : list Broker).

(** [updateField(field, value)]: the bridge handed to [onChange]. *)
Definition updateField (bridge : Bridge) (f : BridgeField) : Bridge :=
  {| bridge_disabled :=
       match f with field_disabled v => v | _ => bridge_disabled bridge end;
     name := match f with field_name v => v | _ => name bridge end;
     bridge_prefix :=
       match f with field_prefix v => v | _ => bridge_prefix bridge end;
     brokers := match f with field_brokers v => v | _ => brokers bridge end |}.

Definition addBroker (bridge : Bridge) : Bridge :=
  updateField bridge (field_brokers (brokers bridge ++ [defaultBroker])).

Definition removeBroker (bridge : Bridge) (brokerIndex : nat) : Bridge :=
  updateField bridge (field_brokers (filter_index brokerIndex (brokers bridge))).

Definition updateBroker (bridge : Bridge) (brokerIndex : nat) (broker : Broker)
  : option Bridge :=
  newBrokers ← set_index brokerIndex broker (brokers bridge);
  Some (updateField bridge (field_brokers newBrokers)).

(** [canDelete], the condition under which a broker form renders its
    delete button: [bridge.brokers.length > 2]. *)
Definition canDelete (bridge : Bridge) : bool :=
  bool_decide (2 < length (brokers bridge)).

(** The buttons of the form that change the list of brokers: [Add
    Broker], and the delete button of the form of each broker. *)
Inductive Button : Type :=
| add_broker
| delete_broker (brokerIndex : nat).

(** A click on a button that the form renders: [None] for a button it
    does not render, the delete button of a broker that the bridge does
    not have, or of any broker when [canDelete] is false. *)
Definition click (bridge : Bridge) (b : Button) : option Bridge :=
  match b with
  | add_broker => Some (addBroker bridge)
  | delete_broker brokerIndex =>
      if canDelete bridge && bool_decide (brokerIndex < length (brokers bridge))
      then Some (removeBroker bridge brokerIndex)
      else None
  end.

(** Clicks one after the other, each on the form as it is rendered
    then. *)
Fixpoint clicks (bridge : Bridge) (bs : list Button) : option Bridge :=
  match bs with
  | [] => Some bridge
  | b :: bs' => bridge' ← click bridge b; clicks bridge' bs'
  end.

End BridgeForm.

(** The handlers of the application component.  Each is called from the
    render of the state it is applied to; [sendPatchToServer] runs up to
    its [await], which is the step [Trigger] of the event loop. *)
Module App.
Import Json Sync Arrays.

Definition on_app (f : State -> State) (sys : System) : System :=
  {| app := f (app sys); inflight := inflight sys; sent := sent sys |}.

(** [setConfig(newConfig); latestConfigRef.current = newConfig]. *)
Definition show (newConfig : BridgesConfig) (sys : System) : System :=
  on_app (fun st => set_latestConfigRef newConfig (setConfig newConfig st)) sys.

Definition addBridge (sys : System) : System :=
  let newConfig := {| bridges := bridges (config (app sys)) ++ [defaultBridge] |} in
  step (show newConfig sys) (Trigger newConfig).

Definition removeBridge (index : nat) (sys : System) : System :=
  let newConfig := {| bridges := filter_index index (bridges (config (app sys))) |} in
  step (show newConfig sys) (Trigger newConfig).

(** [duplicateBridge(index)].  Where the document has no bridge at the
    index, [JSON.parse(JSON.stringify(undefined))] throws before
    anything is changed: [None]. *)
Definition duplicateBridge (index : nat) (sys : System) : option System :=
  bridgeToDuplicate ← bridges (config (app sys)) !! index;
  let duplicatedBridge :=
    {| bridge_disabled := bridge_disabled bridgeToDuplicate;
       name := if negb (String.eqb (name bridgeToDuplicate) "")
               then name bridgeToDuplicate +:+ "-copy" else "copy";
       bridge_prefix := bridge_prefix bridgeToDuplicate;
       brokers := brokers bridgeToDuplicate |} in
  let newConfig := {| bridges := bridges (config (app sys)) ++ [duplicatedBridge] |} in
  Some (step (show newConfig sys) (Trigger newConfig)).

(** [updateBridge(index, bridge)]: nothing is sent. *)
Definition updateBridge (index : nat) (bridge : Bridge) (sys : System)
  : option System :=
  newBridges ← set_index index bridge (bridges (config (app sys)));
  Some (show {| bridges := newBridges |} sys).

Definition handleSaveToServer (sys : System) : System :=
  step sys (Trigger (latestConfigRef (app sys))).

(** The [onChange] of the form of the bridge at [index], as the
    application renders it: [(updatedBridge) => updateBridge(index,
    updatedBridge)], on the bridge the form is given. *)
Definition bridge_changed (index : nat) (change : Bridge -> option Bridge)
  (sys : System) : option System :=
  bridge ← bridges (config (app sys)) !! index;
  updatedBridge ← change bridge;
  updateBridge index updatedBridge sys.

(** The [onChange] of the form of the broker at [brokerIndex] of that
    bridge, as the bridge form renders it: [(updatedBroker) =>
    updateBroker(brokerIndex, updatedBroker)]. *)
Definition broker_changed (index brokerIndex : nat) (change : Broker -> Broker)
  (sys : System) : option System :=
  bridge_changed index
    (fun bridge =>
       broker ← brokers bridge !! brokerIndex;
       BridgeForm.updateBroker bridge brokerIndex (change broker))
    sys.

End App.

(* ===================================================================== *)
(** * Notions the statements about the diff engine use *)
(* ===================================================================== *)

Module Shape.
Import Json.

(** The path of the property [key] of the value compared at [p]:
    [path ? `${path}/${key}` : `/${key}`]. *)
Definition property_path (p key : string) : string :=
  if String.eqb p "" then "/" +:+ key else p +:+ "/" +:+ key.

(** The pointer [p] is [path] itself or lies below it: it is [path]
    followed by nothing, or by a slash and more. *)
Definition below (path p : string) : Prop :=
  exists suffix,
    p = path +:+ suffix /\ (suffix = "" \/ exists rest, suffix = "/" +:+ rest).

(** Two documents are aligned when nowhere an array stands where the
    other has an object: at no index that two arrays share and under no
    name that two objects share. *)
Fixpoint aligned (a b : Value) {struct a} : bool :=
  match a, b with
  | Seq xs, Seq ys =>
      (fix all (xs ys : list Value) : bool :=
         match xs, ys with
         | x :: xs', y :: ys' => aligned x y && all xs' ys'
         | _, _ => true
         end) xs ys
  | Map xs, Map ys =>
      (fix all (l : list (string * Value)) : bool :=
         match l with
         | [] => true
         | (k, x) :: l' =>
             match assoc k ys with
             | Some y => aligned x y
             | None => true
             end && all l'
         end) xs
  | Seq _, Map _ | Map _, Seq _ => false
  | _, _ => true
  end.

(** The names every object inherits from [Object.prototype]: for these
    [key in obj] and [obj[key]] do not tell an own property from an
    inherited one. *)
Definition Object_prototype_names : list string :=
  ["constructor"; "__defineGetter__"; "__defineSetter__"; "hasOwnProperty";
   "__lookupGetter__"; "__lookupSetter__"; "isPrototypeOf";
   "propertyIsEnumerable"; "toString"; "valueOf"; "__proto__";
   "toLocaleString"].

(** A plain document: no object of it has a property named like an
    inherited one, and every number of it is a whole number a double
    holds exactly (at most 2^53 in absolute value).  On plain documents
    [get_prop] is what [in] and the bracket read, and two numbers are
    equal exactly when they print alike. *)
Fixpoint plain_document (v : Value) : bool :=
  match v with
  | Null | Bool _ | Str _ => true
  | Num n => (Z.abs n <=? 2 ^ 53)%Z
  | Seq items => forallb plain_document items
  | Map fields =>
      forallb
        (fun kv =>
           match kv with
           | (k, x) =>
               negb (bool_decide (k ∈ Object_prototype_names)) && plain_document x
           end)
        fields
  end.

End Shape.

(* ===================================================================== *)
(** * Facts about JSON values *)
(* ===================================================================== *)

Module JsonFacts.
Import Json.

Lemma Value_eqb_refl (v : Value) : Value_eqb v v = true.
Proof.
  induction v as [| b | n | s | items IH | fields IH] using Value_nested_ind; simpl.
  - reflexivity.
  - by destruct b.
  - apply Z.eqb_refl.
  - apply String.eqb_refl.
  - induction IH as [| x l Hx _ IHl]; [reflexivity |].
    by rewrite Hx, IHl.
  - induction IH as [| [k x] l Hx _ IHl]; [reflexivity |].
    simpl in Hx. by rewrite String.eqb_refl, Hx, IHl.
Qed.

Lemma Value_eqb_eq (a b : Value) : Value_eqb a b = true <-> a = b.
Proof.
  split; [| intros ->; apply Value_eqb_refl].
  revert b.
  induction a as [| x | x | x | items IH | fields IH] using Value_nested_ind;
    intros [| y | y | y | ys | ys];
    simpl; try discriminate; try reflexivity.
  - intros H. f_equal. by apply Bool.eqb_prop.
  - intros H. f_equal. by apply Z.eqb_eq.
  - intros H. f_equal. by apply String.eqb_eq.
  - intros H. f_equal. revert ys H.
    induction IH as [| x l Hx _ IHl]; intros [| y ys]; try discriminate; [done |].
    intros [H1 H2]%andb_prop. f_equal; [by apply Hx | by apply IHl].
  - intros H. f_equal. revert ys H.
    induction IH as [| [k x] l Hx _ IHl]; intros [| [k' y] ys]; try discriminate; [done |].
    intros [[H0 H1]%andb_prop H2]%andb_prop. simpl in Hx.
    apply String.eqb_eq in H0 as ->.
    f_equal; [f_equal; by apply Hx | by apply IHl].
Qed.

(** On a pair with a primitive side, deep equality is the equality
    [JSON.stringify] tests, and it is [===]. *)
Lemma deep_equal_primitive (a b : Value) :
  is_object a && is_object b = false ->
  deep_equal a b = Value_eqb a b /\ deep_equal a b = strict_eqb a b.
Proof.
  destruct a, b; simpl; try discriminate; by intros _.
Qed.

Lemma assoc_Some_elem (key : string) (fields : list (string * Value)) (v : Value) :
  assoc key fields = Some v -> (key, v) ∈ fields.
Proof.
  induction fields as [| [k x] l IH]; simpl; [discriminate |].
  destruct (String.eqb_spec key k) as [-> | Hne].
  - intros [= ->]. left.
  - intros H. right. by apply IH.
Qed.

Lemma assoc_is_Some (key : string) (fields : list (string * Value)) :
  key ∈ fields.*1 -> is_Some (assoc key fields).
Proof.
  induction fields as [| [k x] l IH]; simpl.
  - by intros ?%elem_of_nil.
  - intros [-> | H]%elem_of_cons.
    + rewrite String.eqb_refl. eauto.
    + destruct (String.eqb key k); [eauto | by apply IH].
Qed.

Lemma index_key_inj (i j : nat) : index_key i = index_key j -> i = j.
Proof. apply pretty_nat_inj. Qed.

(** The element at index [i] is the property [index_key i]. *)
Lemma assoc_entries_from (base i : nat) (items : list Value) :
  assoc (index_key (base + i)) (entries_from base items) = items !! i.
Proof.
  revert base i. induction items as [| x l IH]; intros base i; simpl; [done |].
  destruct i as [| i]; simpl.
  - by rewrite Nat.add_0_r, String.eqb_refl.
  - destruct (String.eqb_spec (index_key (base + S i)) (index_key base)) as [E | _].
    + apply index_key_inj in E. lia.
    + replace (base + S i)%nat with (S base + i)%nat by lia. apply IH.
Qed.

Lemma assoc_index_key (i : nat) (items : list Value) :
  assoc (index_key i) (entries_from 0 items) = items !! i.
Proof. apply (assoc_entries_from 0 i). Qed.

End JsonFacts.

(* ===================================================================== *)
(** * The diff engine: equal documents, mismatched types, round trip *)
(* ===================================================================== *)

Module DiffFacts.
Import Json Diff JsonFacts.

Lemma flat_map_nil {A B} (f : A -> list B) (l : list A) :
  (forall x, x ∈ l -> f x = []) -> flat_map f l = [].
Proof.
  induction l as [| x l IH]; intros H; simpl; [done |].
  rewrite H by left. apply IH. intros y Hy. apply H. by right.
Qed.

Lemma flat_map_ext_elem {A B} (f g : A -> list B) (l : list A) :
  (forall x, x ∈ l -> f x = g x) -> flat_map f l = flat_map g l.
Proof.
  induction l as [| x l IH]; intros H; simpl; [done |].
  rewrite H by left. f_equal. apply IH. intros y Hy. apply H. by right.
Qed.

Lemma Set_from_subset (seen names : list string) (k : string) :
  k ∈ Set_from seen names -> k ∈ names.
Proof.
  revert seen. induction names as [| x l IH]; intros seen; simpl.
  - by intros ?%elem_of_nil.
  - case_bool_decide.
    + intros Hk. right. by eapply IH.
    + intros [-> | Hk]%elem_of_cons; [left | right; by eapply IH].
Qed.

(** The body depends on [self] through its values only. *)
Lemma generateJSONPatch_body_ext self1 self2 (oldObj newObj : Value) (path : string) :
  (forall key v p, self1 key v p = self2 key v p) ->
  generateJSONPatch_body self1 oldObj newObj path
  = generateJSONPatch_body self2 oldObj newObj path.
Proof.
  intros Hself.
  assert (Hchanged : forall key o n p, changed self1 key o n p = changed self2 key o n p).
  { intros. unfold changed. by rewrite Hself. }
  assert (Hobj : forall o n p key, object_step self1 o n p key = object_step self2 o n p key).
  { intros. unfold object_step. by repeat case_match. }
  assert (Harr : forall o n p i, array_step self1 o n p i = array_step self2 o n p i).
  { intros. unfold array_step. by repeat case_match. }
  unfold generateJSONPatch_body.
  destruct oldObj, newObj; simpl; try reflexivity;
    apply flat_map_ext_elem; intros; auto.
Qed.

(** The unfolding of the function: its body, with the recursive calls on
    the children. *)
Lemma generateJSONPatch_unfold (oldObj newObj : Value) (path : string) :
  generateJSONPatch oldObj newObj path
  = generateJSONPatch_body (child_diff oldObj) oldObj newObj path.
Proof.
  destruct oldObj as [| b | n | s | items | fields];
    cbn -[generateJSONPatch_body]; apply generateJSONPatch_body_ext; intros key v p;
    unfold child_diff; simpl; try reflexivity.
  - generalize 0%nat.
    induction items as [| x l IH]; intros i; simpl; [done |].
    destruct (String.eqb key (index_key i)); [done | apply IH].
  - induction fields as [| [k x] l IH]; simpl; [done |].
    destruct (String.eqb key k); [done | apply IH].
Qed.

(** The recursive call for a key is the call on the value the source
    reads under that key, [oldObj[key]], whenever that value is an array
    or an object. *)
Lemma child_diff_get_prop (oldObj : Value) (key : string) (oldValue : Value) :
  get_prop oldObj key = Some oldValue -> is_object oldValue = true ->
  child_diff oldObj key = generateJSONPatch oldValue.
Proof.
  unfold child_diff.
  destruct oldObj as [| b | n | s | items | fields]; simpl; try discriminate.
  - destruct (String.eqb key "length"); [by intros [= <-] |].
    by intros ->.
  - by intros ->.
Qed.

(** So the changed-value case of both loops is the one of the source. *)
Lemma changed_child_diff (oldObj : Value) (key : string) (oldValue newValue : Value)
  (at_path : string) :
  get_prop oldObj key = Some oldValue ->
  changed (child_diff oldObj) key oldValue newValue at_path
  = if negb (Value_eqb oldValue newValue) then
      if is_object oldValue && is_object newValue
      then generateJSONPatch oldValue newValue at_path
      else [Replace at_path newValue]
    else [].
Proof.
  intros Hget. unfold changed.
  destruct (negb (Value_eqb oldValue newValue)); [| done].
  destruct (is_object oldValue) eqn:Hobj; [| done].
  by rewrite (child_diff_get_prop oldObj key oldValue Hget Hobj).
Qed.

(** Whatever the recursive calls do, nothing is emitted for two
    documents that print the same. *)
Lemma generateJSONPatch_body_same self (v : Value) (path : string) :
  generateJSONPatch_body self v v path = [].
Proof.
  assert (Hchanged : forall key x p, changed self key x x p = []).
  { intros. unfold changed. by rewrite Value_eqb_refl. }
  destruct v as [| b | n | s | items | fields]; simpl; try reflexivity.
  - by destruct b.
  - by rewrite Z.eqb_refl.
  - by rewrite String.eqb_refl.
  - apply flat_map_nil. intros i Hi%elem_of_seq. unfold array_step.
    destruct (lookup_lt_is_Some_2 items i) as [x ->]; [lia | apply Hchanged].
  - apply flat_map_nil. intros key Hkey%Set_from_subset. unfold object_step.
    simpl. destruct (assoc key fields) eqn:E; [apply Hchanged |].
    exfalso. unfold Object_keys in Hkey. simpl in Hkey.
    assert (Hin : key ∈ fields.*1) by (apply elem_of_app in Hkey; tauto).
    apply assoc_is_Some in Hin as [? Hs]. congruence.
Qed.

Lemma deep_equal_Seq (xs ys : list Value) :
  deep_equal (Seq xs) (Seq ys) = true ->
  Forall2 (fun x y => deep_equal x y = true) xs ys.
Proof.
  simpl. revert ys.
  induction xs as [| x xs IH]; intros [| y ys]; try discriminate.
  - constructor.
  - intros [H1 H2]%andb_prop. constructor; [done | by apply IH].
Qed.

Lemma deep_equal_Map (xs ys : list (string * Value)) (key : string) :
  deep_equal (Map xs) (Map ys) = true ->
  key ∈ xs.*1 ++ ys.*1 ->
  exists x y, assoc key xs = Some x /\ assoc key ys = Some y /\ deep_equal x y = true.
Proof.
  simpl. intros H Hkey.
  rewrite forallb_forall in H. apply list_elem_of_In, H in Hkey.
  destruct (assoc key ys) as [y |]; [| discriminate].
  clear H. induction xs as [| [k x] l IH]; [discriminate |].
  simpl. destruct (String.eqb key k); eauto.
Qed.

(** Nothing is emitted for two deep-equal documents, whatever the order
    of the properties of their objects. *)
Lemma generateJSONPatch_deep_equal (a b : Value) (path : string) :
  deep_equal a b = true -> generateJSONPatch a b path = [].
Proof.
  revert b path.
  induction a as [| x | x | x | items IH | fields IH] using Value_nested_ind;
    intros b path Heq; rewrite generateJSONPatch_unfold.
  1-4: destruct b; try discriminate; simpl in *; by rewrite ?Heq.
  - destruct b as [| | | | ys |]; try discriminate.
    apply deep_equal_Seq in Heq.
    pose proof (Forall2_length _ _ _ Heq) as Hlen.
    simpl. apply flat_map_nil. intros i Hi%elem_of_seq.
    destruct (lookup_lt_is_Some_2 items i) as [x Hx]; [lia |].
    destruct (lookup_lt_is_Some_2 ys i) as [y Hy]; [lia |].
    pose proof (Forall2_lookup_lr _ _ _ _ _ _ Heq Hx Hy) as Hxy.
    unfold array_step, changed. rewrite Hx, Hy.
    destruct (Value_eqb x y) eqn:Eqb; [done |]. simpl.
    destruct (is_object x && is_object y) eqn:Eobj.
    + unfold child_diff. simpl. rewrite assoc_index_key, Hx.
      rewrite Forall_lookup in IH. by eapply IH.
    + destruct (deep_equal_primitive x y Eobj). congruence.
  - destruct b as [| | | | | ys]; try discriminate.
    simpl. apply flat_map_nil. intros key Hkey%Set_from_subset.
    destruct (deep_equal_Map _ _ key Heq Hkey) as (x & y & Hx & Hy & Hxy).
    unfold object_step, changed. simpl. rewrite Hx, Hy.
    destruct (Value_eqb x y) eqn:Eqb; [done |]. simpl.
    destruct (is_object x && is_object y) eqn:Eobj.
    + unfold child_diff. simpl. rewrite Hx.
      rewrite Forall_forall in IH. apply assoc_Some_elem in Hx.
      by apply (IH _ Hx).
    + destruct (deep_equal_primitive x y Eobj). congruence.
Qed.

Lemma deep_equal_refl (v : Value) : deep_equal v v = true.
Proof.
  induction v as [| b | n | s | items IH | fields IH] using Value_nested_ind; simpl.
  - reflexivity.
  - by destruct b.
  - apply Z.eqb_refl.
  - apply String.eqb_refl.
  - induction IH as [| x l Hx _ IHl]; [reflexivity |]. by rewrite Hx, IHl.
  - apply forallb_forall. intros key Hkey%list_elem_of_In.
    assert (Hin : key ∈ fields.*1) by (apply elem_of_app in Hkey; tauto).
    clear Hkey. induction IH as [| [k x] l Hx _ IHl]; simpl in *.
    + by apply elem_of_nil in Hin.
    + destruct (String.eqb_spec key k) as [-> | Hne]; [done |].
      apply elem_of_cons in Hin as [? | Hin]; [done |].
      specialize (IHl Hin). by destruct (assoc key l).
Qed.

Lemma generateJSONPatch_same (D : Value) (path : string) :
  generateJSONPatch D D path = [].
Proof. rewrite generateJSONPatch_unfold. apply generateJSONPatch_body_same. Qed.

(** ** Two documents that are equal *)

(** C8.  For every value [D], [generateJSONPatch D D path] is the empty
    list of operations; and so is [generateJSONPatch D D' path] for every
    [D'] deep-equal to [D], whatever the order in which the two documents
    list the properties of their objects. *)
Theorem generateJSONPatch_equal_documents (D : Value) (path : string) :
  generateJSONPatch D D path = []
  /\ forall D', deep_equal D D' = true -> generateJSONPatch D D' path = [].
Proof.
  split.
  - apply generateJSONPatch_same.
  - intros D' H. by apply generateJSONPatch_deep_equal.
Qed.

Lemma generateJSONPatch_equal_documents_witness :
  deep_equal (Map [("a", Num 1); ("b", Seq [Map [("x", Null); ("y", Str "s")]])])
             (Map [("b", Seq [Map [("y", Str "s"); ("x", Null)]]); ("a", Num 1)]) = true
  /\ generateJSONPatch
       (Map [("a", Num 1); ("b", Seq [Map [("x", Null); ("y", Str "s")]])])
       (Map [("b", Seq [Map [("y", Str "s"); ("x", Null)]]); ("a", Num 1)])
       "" = [].
Proof.
  split; [reflexivity |].
  apply (proj2 (generateJSONPatch_equal_documents
                  (Map [("a", Num 1); ("b", Seq [Map [("x", Null); ("y", Str "s")]])])
                  "")).
  reflexivity.
Defined.

(** ** Two values of different types *)

(** Where the claim C7 fails.  An array against an object is taken by the
    object branch of the function ([typeof] of an array is ["object"]),
    which compares the two key by key: an empty array against an empty
    object gives no operation at all, and a non-empty pair gives [remove]
    and [add] operations for the keys; and a replacement at the root path
    is addressed to ["/"]. *)
Lemma mismatch_without_replace :
  deep_equal (Seq []) (Map []) = false
  /\ generateJSONPatch (Seq []) (Map []) "/x" = []
  /\ generateJSONPatch (Seq [Num 1]) (Map [("a", Num 2)]) "/x"
     = [Remove "/x/0"; Add "/x/a" (Num 2)]
  /\ generateJSONPatch (Num 1) (Str "a") "" = [Replace "/" (Str "a")].
Proof. repeat split; reflexivity. Qed.

(** C7, amended.  For every pair of deep-unequal values of which at least
    one is a primitive (null, boolean, number or string),
    [generateJSONPatch oldV newV path] is exactly one [Replace] carrying
    [newV], addressed to [path], or to ["/"] when [path] is the empty
    root path. *)
Theorem mismatch_with_primitive_replaces (oldV newV : Value) (path : string) :
  is_object oldV && is_object newV = false ->
  deep_equal oldV newV = false ->
  generateJSONPatch oldV newV path
  = [Replace (if String.eqb path "" then "/" else path) newV].
Proof.
  intros Hprim Hneq.
  destruct (deep_equal_primitive oldV newV Hprim) as [_ Hstrict].
  rewrite Hneq in Hstrict.
  rewrite generateJSONPatch_unfold. unfold generateJSONPatch_body.
  rewrite Hprim, <- Hstrict. simpl.
  destruct oldV, newV; try reflexivity; discriminate.
Qed.

Lemma mismatch_with_primitive_replaces_witness :
  generateJSONPatch (Num 1) (Seq [Str "a"]) "/bridges/0/name"
  = [Replace "/bridges/0/name" (Seq [Str "a"])].
Proof.
  apply (mismatch_with_primitive_replaces (Num 1) (Seq [Str "a"]) "/bridges/0/name");
    reflexivity.
Defined.

(** ** Applying the patch to the old document *)

(** The scenarios of a growing and of a shrinking tail: the patch of the
    function brings the old document to the new one. *)
Example tail_growth_round_trip :
  let old := Map [("bridges", Seq [Map [("name", Str "a");
                                        ("topics", Seq [Str "t"])]])] in
  let new := Map [("bridges", Seq [Map [("name", Str "a");
                                        ("topics", Seq [Str "t"; Str "u"])]])] in
  generateJSONPatch old new "" = [Add "/bridges/0/topics/1" (Str "u")]
  /\ apply old (generateJSONPatch old new "") = Some new.
Proof. split; reflexivity. Qed.

Example tail_shrink_by_one_round_trip :
  let old := Map [("bridges", Seq [Map [("name", Str "a")]; Map [("name", Str "b")]])] in
  let new := Map [("bridges", Seq [Map [("name", Str "a")]])] in
  generateJSONPatch old new "" = [Remove "/bridges/1"]
  /\ apply old (generateJSONPatch old new "") = Some new.
Proof. split; reflexivity. Qed.

(** ** Arrays that grow or shrink at the tail, in general *)

Lemma pretty_N_go_plain (x : N) (s : string) :
  plain s = true -> plain (pretty_N_go x s) = true.
Proof.
  revert s. induction (N.lt_wf_0 x) as [x _ IH]; intros s Hs.
  destruct (decide (x = 0)%N) as [-> | Hx]; [by rewrite pretty_N_go_0 |].
  rewrite pretty_N_go_step by lia. apply IH; [apply N.div_lt; lia |].
  simpl. rewrite Hs. unfold pretty_N_char. by repeat case_match.
Qed.

Lemma index_key_plain (i : nat) : plain (index_key i) = true.
Proof.
  unfold index_key, pretty, pretty_nat, pretty, pretty_N.
  case_decide; [done | by apply pretty_N_go_plain].
Qed.

Lemma plain_split (s : string) : plain s = true -> String_split "/" s = [s].
Proof.
  induction s as [| c s IH]; [done |].
  simpl. intros [[Hslash _]%andb_prop Hs]%andb_prop.
  apply negb_true_iff in Hslash. rewrite Hslash. by rewrite IH.
Qed.

Lemma plain_unescape (s : string) : plain s = true -> unescape s = s.
Proof.
  induction s as [| c s IH]; [done |].
  intros H. pose proof H as [[_ Htilde]%andb_prop Hs]%andb_prop.
  apply negb_true_iff in Htilde.
  assert (Hc : c <> "~"%char) by (intros ->; discriminate).
  specialize (IH Hs). clear H Htilde.
  destruct c as [[] [] [] [] [] [] [] []]; try done; simpl; try by rewrite IH.
  all: destruct s as [| c' s']; [done |]; by rewrite <- IH at 2.
Qed.

Lemma parse_pointer_plain (key : string) :
  plain key = true -> parse_pointer ("/" +:+ key) = Some [key].
Proof.
  intros Hkey. unfold parse_pointer. simpl.
  rewrite plain_split by done. simpl. by rewrite plain_unescape.
Qed.

Lemma find_index_key (i a n : nat) :
  List.find (fun j => String.eqb (index_key i) (index_key j)) (seq a n)
  = if bool_decide (a <= i < a + n) then Some i else None.
Proof.
  revert a. induction n as [| n IH]; intros a; simpl.
  - case_bool_decide; [lia | done].
  - destruct (String.eqb_spec (index_key i) (index_key a)) as [E | Hne].
    + apply index_key_inj in E as ->. rewrite bool_decide_true by lia. done.
    + rewrite IH. assert (i <> a) by congruence.
      repeat case_bool_decide; try done; lia.
Qed.

Lemma parse_index_key (bound i : nat) :
  parse_index bound (index_key i) = if bool_decide (i < bound) then Some i else None.
Proof.
  unfold parse_index. rewrite find_index_key.
  repeat case_bool_decide; try done; lia.
Qed.

(** Removing the element of index [i] of a root array. *)
Lemma apply_op_remove_index (items : list Value) (i : nat) :
  apply_op (Seq items) (Remove ("/" +:+ index_key i))
  = if bool_decide (i < length items) then Some (Seq (delete i items)) else None.
Proof.
  unfold apply_op. cbn [op_path].
  rewrite parse_pointer_plain by apply index_key_plain. simpl.
  rewrite parse_index_key. by case_bool_decide.
Qed.

(** Adding an element at the index that is the length of a root array. *)
Lemma apply_op_add_at_end (items : list Value) (v : Value) :
  apply_op (Seq items) (Add ("/" +:+ index_key (length items)) v)
  = Some (Seq (items ++ [v])).
Proof.
  unfold apply_op. cbn [op_path].
  rewrite parse_pointer_plain by apply index_key_plain. simpl.
  destruct (String.eqb_spec (index_key (length items)) "-") as [E | _].
  { pose proof (index_key_plain (length items)) as Hp. by rewrite E in Hp. }
  rewrite parse_index_key, bool_decide_true by lia. simpl.
  by rewrite firstn_all, drop_all.
Qed.

Lemma flat_map_singletons {A B} (f : A -> list B) (g : A -> B) (l : list A) :
  (forall x, x ∈ l -> f x = [g x]) -> flat_map f l = g <$> l.
Proof.
  induction l as [| x l IH]; intros H; simpl; [done |].
  rewrite H by left. simpl. f_equal. apply IH. intros y Hy. apply H. by right.
Qed.

Lemma flat_map_seq_imap {A B} (f : nat -> list B) (g : nat -> A -> B)
  (n : nat) (l : list A) :
  (forall j v, l !! j = Some v -> f (n + j) = [g (n + j) v]) ->
  flat_map f (seq n (length l)) = imap (fun j v => g (n + j) v) l.
Proof.
  revert n. induction l as [| v l IH]; intros n H; simpl; [done |].
  rewrite <- (Nat.add_0_r n) at 1. rewrite (H 0 v) by done. simpl. f_equal.
  rewrite IH.
  - apply imap_ext. intros j x _. simpl. f_equal. lia.
  - intros j x Hj. replace (S n + j) with (n + S j) by lia. by apply H.
Qed.

(** The patch of a root array against a prefix of itself: the removals
    of the tail, by ascending index. *)
Lemma generateJSONPatch_shrink (items extra : list Value) :
  generateJSONPatch (Seq (items ++ extra)) (Seq items) ""
  = (fun i => Remove ("/" +:+ index_key i)) <$> seq (length items) (length extra).
Proof.
  rewrite generateJSONPatch_unfold. simpl.
  rewrite length_app.
  replace (Nat.max (length items + length extra) (length items))
    with (length items + length extra) by lia.
  rewrite seq_app, flat_map_app. simpl.
  rewrite flat_map_nil.
  2:{ intros i Hi%elem_of_seq. unfold array_step, changed.
      rewrite lookup_app_l by lia.
      destruct (lookup_lt_is_Some_2 items i) as [x ->]; [lia |].
      by rewrite Value_eqb_refl. }
  simpl. apply flat_map_singletons.
  intros i Hi%elem_of_seq. unfold array_step.
  by rewrite (lookup_ge_None_2 items i) by lia.
Qed.

(** The patch of a root array against itself with a longer tail: the
    additions of the tail. *)
Lemma generateJSONPatch_growth (items extra : list Value) :
  generateJSONPatch (Seq items) (Seq (items ++ extra)) ""
  = imap (fun j v => Add ("/" +:+ index_key (length items + j)) v) extra.
Proof.
  rewrite generateJSONPatch_unfold. simpl.
  rewrite length_app.
  replace (Nat.max (length items) (length items + length extra))
    with (length items + length extra) by lia.
  rewrite seq_app, flat_map_app. simpl.
  rewrite flat_map_nil.
  2:{ intros i Hi%elem_of_seq. unfold array_step, changed.
      rewrite lookup_app_l by lia.
      destruct (lookup_lt_is_Some_2 items i) as [x ->]; [lia |].
      by rewrite Value_eqb_refl. }
  simpl. apply (flat_map_seq_imap _ (fun i v => Add ("/" +:+ index_key i) v)).
  intros j v Hj. unfold array_step.
  rewrite lookup_app_r by lia.
  replace (length items + j - length items) with j by lia. rewrite Hj.
  by rewrite (lookup_ge_None_2 items) by lia.
Qed.

Lemma apply_additions (extra items : list Value) :
  apply (Seq items)
    (imap (fun j v => Add ("/" +:+ index_key (length items + j)) v) extra)
  = Some (Seq (items ++ extra)).
Proof.
  revert items. induction extra as [| v l IH]; intros items; simpl.
  - by rewrite app_nil_r.
  - rewrite Nat.add_0_r, apply_op_add_at_end. simpl.
    rewrite (imap_ext _ (fun j x => Add ("/" +:+ index_key (length (items ++ [v]) + j)) x)).
    + rewrite IH. by rewrite <- app_assoc.
    + intros j x _. simpl. rewrite length_app. simpl. do 3 f_equal. lia.
Qed.

(** Removals by ascending index run out of elements as soon as the last
    index is not below the length that is left. *)
Lemma apply_removals_fail (m i : nat) (items : list Value) :
  1 <= m -> length items <= i + 2 * (m - 1) ->
  apply (Seq items) ((fun j => Remove ("/" +:+ index_key j)) <$> seq i m) = None.
Proof.
  revert i items. induction m as [| m IH]; intros i items Hm Hlen; [lia |].
  simpl. rewrite apply_op_remove_index.
  case_bool_decide as Hi; [| done]. simpl.
  apply IH; [lia |].
  rewrite length_delete by (by apply lookup_lt_is_Some_2). lia.
Qed.

(** A root array whose tail grows: the patch applies and gives the new
    array. *)
Theorem root_tail_growth_round_trip (items extra : list Value) :
  apply (Seq items) (generateJSONPatch (Seq items) (Seq (items ++ extra)) "")
  = Some (Seq (items ++ extra)).
Proof. rewrite generateJSONPatch_growth. apply apply_additions. Qed.

(** A root array whose tail shrinks by one element: the patch applies
    and gives the new array. *)
Theorem root_tail_shrink_by_one_round_trip (items : list Value) (x : Value) :
  apply (Seq (items ++ [x])) (generateJSONPatch (Seq (items ++ [x])) (Seq items) "")
  = Some (Seq items).
Proof.
  rewrite generateJSONPatch_shrink. simpl.
  rewrite apply_op_remove_index, length_app. simpl.
  rewrite bool_decide_true by lia. simpl.
  do 2 f_equal.
  induction items as [| y l IH]; simpl; [done | by rewrite IH].
Qed.

(** A root array whose tail shrinks by two elements or more: the patch
    cannot be applied. *)
Theorem root_tail_shrink_not_applicable (items extra : list Value) :
  2 <= length extra ->
  apply (Seq (items ++ extra)) (generateJSONPatch (Seq (items ++ extra)) (Seq items) "")
  = None.
Proof.
  intros Hextra. rewrite generateJSONPatch_shrink.
  apply apply_removals_fail; [lia |]. rewrite length_app. lia.
Qed.

(** C1 on the code.  A tail that shrinks by two elements: the function
    emits the [remove] operations by ascending index, each index taken in
    the old array.  After the first removal the array has two elements,
    no element has index 2, and the patch cannot be applied. *)
Theorem tail_shrink_by_two_not_applicable :
  let old := Map [("bridges", Seq [Map [("name", Str "a")]; Map [("name", Str "b")];
                                   Map [("name", Str "c")]])] in
  let new := Map [("bridges", Seq [Map [("name", Str "a")]])] in
  generateJSONPatch old new "" = [Remove "/bridges/1"; Remove "/bridges/2"]
  /\ apply_op old (Remove "/bridges/1")
     = Some (Map [("bridges", Seq [Map [("name", Str "a")]; Map [("name", Str "c")]])])
  /\ apply old (generateJSONPatch old new "") = None.
Proof. repeat split; reflexivity. Qed.

End DiffFacts.

(* ===================================================================== *)
(** * The sync client: when the reference document moves *)
(* ===================================================================== *)

Module SyncFacts.
Import Json Diff Env Sync DiffFacts.

(** The continuation of [sendPatchToServer] touches the reference
    document on success only, and sets it to the working document it was
    called with. *)
Lemma sendPatchToServer_resume_ref (newConfig : BridgesConfig) (r : Response) (st : State) :
  lastSavedConfigRef (sendPatchToServer_resume newConfig r st)
  = if succeeded r then Some newConfig else lastSavedConfigRef st.
Proof. by destruct r as [m | [] txt body]. Qed.

(** A request is issued only for a working document that differs from
    the reference document. *)
Lemma sendPatchToServer_begin_differs (newConfig : BridgesConfig) (st : State) :
  is_Some (sendPatchToServer_begin newConfig st) ->
  lastSavedConfigRef st <> Some newConfig.
Proof.
  unfold sendPatchToServer_begin. intros [req Hreq] Href. rewrite Href in Hreq.
  by rewrite generateJSONPatch_same in Hreq.
Qed.

(** ** Saving *)

(** C2.  A call of [sendPatchToServer] moves the reference document
    ([lastSavedConfigRef]) if and only if it issues the PATCH request and
    the request succeeds; the reference document is then the working
    document the call was given, as it is and not as [cleanConfig]
    reduces it.  When the request fails the reference document is the
    one before, so the next call, whatever its working document, diffs
    against the same reference again. *)
Theorem reference_moves_iff_patch_succeeds
  (newConfig : BridgesConfig) (r : Response) (st : State) :
  let st' := sendPatchToServer newConfig r st in
  (lastSavedConfigRef st' <> lastSavedConfigRef st
   <-> is_Some (sendPatchToServer_begin newConfig st) /\ succeeded r = true)
  /\ (lastSavedConfigRef st' <> lastSavedConfigRef st ->
      lastSavedConfigRef st' = Some newConfig)
  /\ (succeeded r = false ->
      lastSavedConfigRef st' = lastSavedConfigRef st
      /\ forall next,
          sendPatchToServer_begin next st' = sendPatchToServer_begin next st).
Proof.
  unfold sendPatchToServer.
  destruct (sendPatchToServer_begin newConfig st) as [req |] eqn:Hbegin; simpl.
  - assert (Hdiff : lastSavedConfigRef st <> Some newConfig).
    { apply sendPatchToServer_begin_differs. rewrite Hbegin. eauto. }
    rewrite sendPatchToServer_resume_ref.
    destruct (succeeded r) eqn:Hr.
    + repeat split; eauto; try congruence.
    + repeat split; try congruence; try (by intros [_ ?]).
      intros next. unfold sendPatchToServer_begin.
      by rewrite sendPatchToServer_resume_ref, Hr.
  - repeat split; try congruence; try tauto.
    by intros [[? ?] _].
Qed.

Lemma reference_moves_iff_patch_succeeds_witness :
  let st := set_lastSavedConfigRef {| bridges := [defaultBridge] |} initial in
  let newConfig := {| bridges := [defaultBridge; defaultBridge] |} in
  succeeded (NetworkError "Failed to fetch") = false
  /\ is_Some (sendPatchToServer_begin newConfig st)
  /\ sendPatchToServer_begin newConfig
       (sendPatchToServer newConfig (NetworkError "Failed to fetch") st)
     = sendPatchToServer_begin newConfig st.
Proof.
  intros st newConfig. split; [reflexivity |]. split; [vm_compute; eauto |].
  apply (proj2 (proj2 (reference_moves_iff_patch_succeeds
                         newConfig (NetworkError "Failed to fetch") st))).
  reflexivity.
Defined.

(** ** Triggers while a request is in flight *)

(** Where the claim C3 fails.  The document is loaded, then two bridges
    are added one after the other before any response: two PATCH requests
    are in flight together, and the second patch is computed against the
    same reference document as the first (it adds both bridges). *)
Lemma two_requests_in_flight :
  let c0 := {| bridges := [defaultBridge] |} in
  let w1 := {| bridges := [defaultBridge; defaultBridge] |} in
  let w2 := {| bridges := [defaultBridge; defaultBridge; defaultBridge] |} in
  let sys := run boot [Mount; Settle 0 (HttpResponse true "OK" (BodyConfig c0));
                       Trigger w1; Trigger w2] in
  lastSavedConfigRef (app sys) = Some c0
  /\ patches_in_flight sys
     = [ [Add "/bridges/1" (cleanBridge defaultBridge)];
         [Add "/bridges/1" (cleanBridge defaultBridge);
          Add "/bridges/2" (cleanBridge defaultBridge)] ]
  /\ length (inflight sys) = 2.
Proof. repeat split; reflexivity. Qed.

(** The two responses may settle in either order, and each success sets
    the reference document to the working document of its own call: when
    the second request settles first, the reference document ends as the
    older working document. *)
Example responses_out_of_order :
  let c0 := {| bridges := [defaultBridge] |} in
  let w1 := {| bridges := [defaultBridge; defaultBridge] |} in
  let w2 := {| bridges := [defaultBridge; defaultBridge; defaultBridge] |} in
  let ok := HttpResponse true "OK" BodyInvalid in
  let sys := run boot [Mount; Settle 0 (HttpResponse true "OK" (BodyConfig c0));
                       Trigger w1; Trigger w2; Settle 1 ok; Settle 0 ok] in
  lastSavedConfigRef (app sys) = Some w1 /\ inflight sys = [].
Proof. split; reflexivity. Qed.

(** C3, amended.  The requests are not serialised.  Every call of
    [sendPatchToServer] whose patch against the reference document of
    that moment is not empty issues its own PATCH request at once,
    whatever requests are in flight; a call made while a request is in
    flight diffs against the same reference document, which no response
    has moved yet; and nothing is sent when a request settles. *)
Theorem trigger_sends_whatever_is_in_flight
  (sys : System) (newConfig saved : BridgesConfig) :
  lastSavedConfigRef (app sys) = Some saved ->
  generateJSONPatch (cleanConfig saved) (cleanConfig newConfig) "" <> [] ->
  let req := PATCH "/api/bridge/config" "application/json-patch+json"
               (generateJSONPatch (cleanConfig saved) (cleanConfig newConfig) "") in
  step sys (Trigger newConfig)
  = {| app := app sys;
       inflight := inflight sys ++ [(req, AwaitSave newConfig)];
       sent := sent sys ++ [req] |}
  /\ forall i r, sent (step sys (Settle i r)) = sent sys.
Proof.
  intros Href Hpatch req. split.
  - subst req. unfold step, sendPatchToServer_begin. rewrite Href. cbv zeta.
    by destruct (generateJSONPatch (cleanConfig saved) (cleanConfig newConfig) "").
  - intros i r. simpl. by destruct (inflight sys !! i) as [[? ?] |].
Qed.

Lemma trigger_sends_whatever_is_in_flight_witness :
  let c0 := {| bridges := [defaultBridge] |} in
  let w1 := {| bridges := [defaultBridge; defaultBridge] |} in
  let w2 := {| bridges := [] |} in
  let sys := run boot [Mount; Settle 0 (HttpResponse true "OK" (BodyConfig c0));
                       Trigger w1] in
  length (inflight sys) = 1
  /\ inflight (step sys (Trigger w2))
     = inflight sys
       ++ [(PATCH "/api/bridge/config" "application/json-patch+json"
              [Remove "/bridges/0"], AwaitSave w2)].
Proof.
  intros c0 w1 w2 sys. split; [reflexivity |].
  pose proof (proj1 (trigger_sends_whatever_is_in_flight sys w2 c0
                       eq_refl ltac:(vm_compute; discriminate))) as H.
  rewrite H. reflexivity.
Defined.

(** ** Loading *)

(** Where the claim C4 fails.  The load is answered with an error status:
    the reference document is set, to the local default document, and the
    next call of [sendPatchToServer] issues a request against it. *)
Lemma failed_load_sets_reference :
  let st := loadConfig (HttpResponse false "Internal Server Error" BodyInvalid) initial in
  lastSavedConfigRef st = Some {| bridges := [defaultBridge] |}
  /\ lastSavedConfigRef st <> None
  /\ sendPatchToServer_begin {| bridges := [] |} st
     = Some (PATCH "/api/bridge/config" "application/json-patch+json"
               [Remove "/bridges/0"]).
Proof. repeat split; try reflexivity. discriminate. Qed.

(** C4, amended.  A load that fails (the request is rejected, the
    response is not a success, or its body is not JSON or not of the
    expected shape) shows an error notification, keeps the local document
    and sets the reference document to a copy of that local document; a
    load that succeeds sets the document and the reference document to
    the loaded one.  Either way the reference document is set once the
    load has settled. *)
Theorem load_sets_reference (r : Response) (st : State) :
  let st' := loadConfig r st in
  isLoading st' = false
  /\ match loaded r with
     | Some data =>
         lastSavedConfigRef st' = Some data
         /\ config st' = data /\ latestConfigRef st' = data
         /\ toasts st' = toasts st ++ [toast_success "Configuration loaded successfully"]
     | None =>
         lastSavedConfigRef st' = Some (config st)
         /\ config st' = config st /\ latestConfigRef st' = config st
         /\ exists message,
             toasts st' = toasts st
                          ++ [toast_error "Failed to load configuration" (Some message)]
     end.
Proof.
  destruct r as [m | [] txt [m | | data]]; simpl; repeat split; eauto.
Qed.

End SyncFacts.

(* ===================================================================== *)
(** * The live channel: events, status maps, reconnection *)
(* ===================================================================== *)

Module LiveFacts.
Import Json Env Live.

(** ** Splitting the instance name *)

(** [s.split("+")] has one piece, [s], when [s] has no plus sign;
    otherwise it has several, and the last one is what follows the last
    plus sign of [s]. *)
Lemma String_split_plus (s : string) :
  (String_includes "+" s = false /\ String_split "+" s = [s])
  \/ (String_includes "+" s = true
      /\ exists w x ws before,
          String_split "+" s = w :: x :: ws
          /\ s = before +:+ "+" +:+ List.last (x :: ws) ""
          /\ String_includes "+" (List.last (x :: ws) "") = false).
Proof.
  induction s as [| c s IH]; [by left |].
  simpl. destruct (Ascii.eqb_spec c "+") as [-> | Hc]; simpl.
  - right. split; [done |].
    destruct IH as [[Hno ->] | [_ (w & x & ws & before & -> & Hs & Hlast)]].
    + exists "", s, [], "". by repeat split.
    + exists "", w, (x :: ws), (String "+" before). repeat split; [| done].
      change (List.last (w :: x :: ws) "") with (List.last (x :: ws) "").
      by rewrite Hs at 1.
  - destruct IH as [[Hno ->] | [Hyes (w & x & ws & before & -> & Hs & Hlast)]].
    + left. by rewrite Hno.
    + right. split; [done |].
      exists (String c w), x, ws, (String c before). repeat split; [| done].
      by rewrite Hs at 1.
Qed.

(** The piece of the instance string that the key is built from. *)
Lemma last_segment (s : string) :
  let segment := if String_includes "+" s
                 then List.last (String_split "+" s) "" else s in
  if String_includes "+" s
  then (exists before, s = before +:+ "+" +:+ segment)
       /\ String_includes "+" segment = false
  else segment = s.
Proof.
  destruct (String_split_plus s)
    as [[-> _] | [-> (w & x & ws & before & -> & Hs & Hlast)]]; simpl; [done |].
  change (List.last (w :: x :: ws) "") with (List.last (x :: ws) "").
  split; [by exists before | done].
Qed.

(** ** What the listener leaves alone *)

(** Membership of a given name in a given list of names, or not. *)
Ltac decide_name := solve [ apply (bool_decide_unpack _); vm_compute; exact I ].


Lemma update_bridge_other (eventName : string) (data : Value) (st : State) :
  eventName ∉ ["bridge_disabled"; "bridge_starting"; "bridge_started";
               "bridge_stopping"; "bridge_stopped"] ->
  update_bridge eventName data st = st.
Proof.
  intros Hname. unfold update_bridge.
  repeat match goal with
         | |- context [String.eqb eventName ?n] =>
             destruct (String.eqb_spec eventName n) as [-> | _];
             [exfalso; apply Hname; decide_name |]
         end.
  reflexivity.
Qed.

Lemma update_broker_other (eventName : string) (data : Value) (st : State) :
  eventName ∉ ["broker_disabled"; "broker_connecting"; "broker_connected";
               "broker_disconnecting"; "broker_disconnected"] ->
  update_broker eventName data st = st.
Proof.
  intros Hname. unfold update_broker.
  destruct (truthy_prop data "bridge" && truthy_prop data "instance"); [| done].
  repeat match goal with
         | |- context [String.eqb eventName ?n] =>
             destruct (String.eqb_spec eventName n) as [-> | _];
             [exfalso; apply Hname; decide_name |]
         end.
  reflexivity.
Qed.

Lemma update_system_other Date_getTime (eventName : string) (data : Value) (now : Z)
  (st : State) :
  eventName ∉ ["bridges_starting"; "bridges_started"; "bridges_stopping";
               "bridges_stopped"] ->
  update_system Date_getTime eventName data now st = st.
Proof.
  intros Hname. unfold update_system.
  repeat match goal with
         | |- context [String.eqb eventName ?n] =>
             destruct (String.eqb_spec eventName n) as [-> | _];
             [exfalso; apply Hname; decide_name |]
         end.
  reflexivity.
Qed.



(** ** Broker events *)

(** C9.  The event [broker_connected] with the payload
    [{bridge: "b1", instance: "i1"}] sets the entry ["b1/i1"] of the
    broker status map to [connected]; it leaves the other entries of that
    map and the whole bridge status map as they are. *)
Theorem broker_connected_sets_entry Date_getTime (now : Z) (st : State) :
  let st' := dispatch Date_getTime "broker_connected"
               (Some (Map [("bridge", Str "b1"); ("instance", Str "i1")])) now st in
  brokerStates st' !! "b1/i1" = Some BrokerConnected
  /\ (forall key, key <> "b1/i1" -> brokerStates st' !! key = brokerStates st !! key)
  /\ bridgeStates st' = bridgeStates st.
Proof.
  assert (E : dispatch Date_getTime "broker_connected"
                (Some (Map [("bridge", Str "b1"); ("instance", Str "i1")])) now st
              = setBrokerStates (insert "b1/i1" BrokerConnected) st) by reflexivity.
  cbv zeta. rewrite E. simpl. split; [apply lookup_insert_eq |].
  split; [| done]. intros key Hkey. by apply lookup_insert_ne.
Qed.

Lemma broker_connected_sets_entry_witness :
  let st' := dispatch (fun _ => NaN) "broker_connected"
               (Some (Map [("bridge", Str "b1"); ("instance", Str "i1")])) 0
               (setBrokerStates (insert "b2/i2" BrokerConnecting) initial) in
  "b2/i2" <> "b1/i1"
  /\ brokerStates st' !! "b2/i2" = Some BrokerConnecting.
Proof.
  intros st'. split; [discriminate |]. subst st'.
  etrans.
  - apply (proj1 (proj2 (broker_connected_sets_entry (fun _ => NaN) 0
                           (setBrokerStates (insert "b2/i2" BrokerConnecting) initial)))).
    discriminate.
  - reflexivity.
Defined.

(** C10.  For every [broker_*] event whose payload has a non-empty
    string as [bridge] and a non-empty string as [instance], the listener
    writes the entry of the broker status map whose key is the bridge, a
    slash, and a segment of the instance string: when the string contains
    a plus sign, the segment is what follows its last plus sign (it has
    no plus sign, and the string is something, a plus sign, and the
    segment); when the string has no plus sign, the segment is the whole
    string. *)
Theorem broker_key_uses_last_segment Date_getTime
  (eventName : string) (state : BrokerState) (data : Value) (bridge s : string)
  (now : Z) (st : State) :
  (eventName, state) ∈ [("broker_disabled", BrokerDisabled);
                        ("broker_connecting", BrokerConnecting);
                        ("broker_connected", BrokerConnected);
                        ("broker_disconnecting", BrokerDisconnecting);
                        ("broker_disconnected", BrokerDisconnected)] ->
  get_prop data "bridge" = Some (Str bridge) -> bridge <> "" ->
  get_prop data "instance" = Some (Str s) -> s <> "" ->
  exists segment,
    dispatch Date_getTime eventName (Some data) now st
    = setBrokerStates (insert (bridge +:+ "/" +:+ segment) state) st
    /\ if String_includes "+" s
       then (exists before, s = before +:+ "+" +:+ segment)
            /\ String_includes "+" segment = false
       else segment = s.
Proof.
  intros Hname Hbridge Hb Hinstance Hs.
  exists (if String_includes "+" s then List.last (String_split "+" s) "" else s).
  split; [| apply last_segment].
  assert (Hkey : brokerKey data
                 = bridge +:+ "/"
                   +:+ (if String_includes "+" s
                        then List.last (String_split "+" s) "" else s)).
  { unfold brokerKey, prop_string, instanceName. by rewrite Hbridge, Hinstance. }
  assert (Hboth : truthy_prop data "bridge" && truthy_prop data "instance" = true).
  { unfold truthy_prop. rewrite Hbridge, Hinstance. simpl.
    by destruct (String.eqb_spec bridge ""), (String.eqb_spec s ""). }
  assert (Hdata : data <> Null) by (intros ->; discriminate).
  repeat (apply elem_of_cons in Hname as [[= -> ->] | Hname]);
    [ .. | by apply elem_of_nil in Hname ];
    unfold dispatch; (rewrite bool_decide_true by decide_name);
    destruct data; try done; unfold listener;
    (rewrite update_bridge_other by decide_name);
    (rewrite update_system_other by decide_name);
    unfold update_broker; rewrite Hboth, Hkey; reflexivity.
Qed.

Lemma broker_key_uses_last_segment_witness :
  exists segment,
    dispatch (fun _ => NaN) "broker_disconnected"
      (Some (Map [("bridge", Str "b1"); ("instance", Str "host+7+i1")])) 0 initial
    = setBrokerStates (insert ("b1" +:+ "/" +:+ segment) BrokerDisconnected) initial
    /\ (exists before, "host+7+i1" = before +:+ "+" +:+ segment)
    /\ String_includes "+" segment = false.
Proof.
  apply (broker_key_uses_last_segment (fun _ => NaN)
           "broker_disconnected" BrokerDisconnected
           (Map [("bridge", Str "b1"); ("instance", Str "host+7+i1")])
           "b1" "host+7+i1" 0 initial);
    [decide_name | reflexivity | discriminate | reflexivity | discriminate].
Defined.

(** ** Malformed payloads *)




(** ** The reconnect timer *)

Lemma filter_all_out {A} (P : A -> Prop) `{forall x, Decision (P x)} (l : list A) :
  (forall x, x ∈ l -> ~ P x) -> filter P l = [].
Proof.
  induction l as [| x l IH]; intros Hall; [done |].
  rewrite filter_cons_False by (apply Hall; left).
  apply IH. intros y Hy. apply Hall. by right.
Qed.

(** The listener touches neither ref of the channel. *)
Lemma dispatch_refs Date_getTime (eventName : string) (payload : option Value)
  (now : Z) (st : State) :
  eventSourceRef (dispatch Date_getTime eventName payload now st) = eventSourceRef st
  /\ reconnectTimeoutRef (dispatch Date_getTime eventName payload now st)
     = reconnectTimeoutRef st.
Proof.
  unfold dispatch. case_bool_decide; [| done].
  assert (Hbridge : forall data s,
            eventSourceRef (update_bridge eventName data s) = eventSourceRef s
            /\ reconnectTimeoutRef (update_bridge eventName data s)
               = reconnectTimeoutRef s).
  { intros. unfold update_bridge. repeat case_match; split; reflexivity. }
  assert (Hbroker : forall data s,
            eventSourceRef (update_broker eventName data s) = eventSourceRef s
            /\ reconnectTimeoutRef (update_broker eventName data s)
               = reconnectTimeoutRef s).
  { intros. unfold update_broker. repeat case_match; split; reflexivity. }
  assert (Hsystem : forall data s,
            eventSourceRef (update_system Date_getTime eventName data now s)
            = eventSourceRef s
            /\ reconnectTimeoutRef (update_system Date_getTime eventName data now s)
               = reconnectTimeoutRef s).
  { intros. unfold update_system. repeat case_match; split; reflexivity. }
  assert (Hall : forall data,
            eventSourceRef
              (update_system Date_getTime eventName data now
                 (update_broker eventName data (update_bridge eventName data st)))
            = eventSourceRef st
            /\ reconnectTimeoutRef
                 (update_system Date_getTime eventName data now
                    (update_broker eventName data (update_bridge eventName data st)))
               = reconnectTimeoutRef st).
  { intros data.
    destruct (Hsystem data (update_broker eventName data (update_bridge eventName data st)))
      as [-> ->].
    destruct (Hbroker data (update_bridge eventName data st)) as [-> ->].
    apply Hbridge. }
  destruct payload as [data |]; [| split; reflexivity].
  destruct data; first [apply Hall | split; reflexivity].
Qed.

(** Closing the source of [eventSourceRef] leaves none open. *)
Lemma close_current (w : World) (es : nat) :
  channel_inv w -> eventSourceRef (ui w) = Some es -> sources (close es w) = [].
Proof.
  intros [Hsrc _] Href. simpl. apply filter_all_out.
  intros x Hx Hne. apply Hsrc in Hx. congruence.
Qed.

Lemma no_ref_no_source (w : World) :
  channel_inv w -> eventSourceRef (ui w) = None -> sources w = [].
Proof.
  intros [Hsrc _] Href. destruct (sources w) as [| x l]; [done |].
  specialize (Hsrc x ltac:(left)). congruence.
Qed.

(** Clearing the timeout of [reconnectTimeoutRef] leaves none pending. *)
Lemma clear_current (w : World) (t : positive) :
  channel_inv w -> reconnectTimeoutRef (ui w) = Some t -> timers (clearTimeout t w) = [].
Proof.
  intros [_ [Hnone | (t' & due & Hone & Href' & _)]] Href; simpl.
  - by rewrite Hnone.
  - rewrite Hone. assert (t' = t) as -> by congruence.
    apply filter_all_out. intros x ->%list_elem_of_singleton. simpl. tauto.
Qed.

Lemma no_ref_no_timer (w : World) :
  channel_inv w -> reconnectTimeoutRef (ui w) = None -> timers w = [].
Proof.
  intros [_ [Hnone | (t' & due & _ & Href' & _)]] Href; [done | congruence].
Qed.

(** [connectToSSE] starts from a clean slate: whatever was open or
    pending, it leaves one open source and no timeout when the source can
    be constructed, and no source and one timeout otherwise. *)
Lemma connectToSSE_result (constructs : bool) (w : World) :
  channel_inv w ->
  let w' := connectToSSE constructs w in
  if constructs
  then sources w' = [next_source w] /\ timers w' = []
       /\ eventSourceRef (ui w') = Some (next_source w)
  else sources w' = [] /\ timers w' = [(next_timer w, (now w + reconnect_delay)%Z)]
       /\ reconnectTimeoutRef (ui w') = Some (next_timer w).
Proof.
  intros Hinv. unfold connectToSSE. cbv zeta.
  set (w1 := match eventSourceRef (ui w) with Some es => close es w | None => w end).
  assert (H1 : sources w1 = [] /\ timers w1 = timers w
               /\ reconnectTimeoutRef (ui w1) = reconnectTimeoutRef (ui w)
               /\ next_source w1 = next_source w /\ next_timer w1 = next_timer w
               /\ now w1 = now w).
  { subst w1. destruct (eventSourceRef (ui w)) as [es |] eqn:Href.
    - split; [by apply close_current | done].
    - split; [by apply no_ref_no_source | done]. }
  clearbody w1. destruct H1 as (Hs1 & Ht1 & Hr1 & Hns1 & Hnt1 & Hnow1).
  set (w2 := match reconnectTimeoutRef (ui w1) with
             | Some t => on_ui (set_reconnectTimeoutRef None) (clearTimeout t w1)
             | None => w1
             end).
  assert (H2 : sources w2 = [] /\ timers w2 = []
               /\ next_source w2 = next_source w /\ next_timer w2 = next_timer w
               /\ now w2 = now w).
  { subst w2. rewrite Hr1.
    destruct (reconnectTimeoutRef (ui w)) as [t |] eqn:Href; simpl.
    - pose proof (clear_current w t Hinv Href) as Hc. simpl in Hc.
      by rewrite Ht1, Hc.
    - by rewrite Ht1, (no_ref_no_timer w Hinv Href). }
  clearbody w2. destruct H2 as (Hs2 & Ht2 & Hns2 & Hnt2 & Hnow2).
  destruct constructs; simpl; unfold schedule_reconnect; simpl;
    by rewrite ?Hs2, ?Ht2, ?Hns2, ?Hnt2, ?Hnow2.
Qed.

Lemma connectToSSE_inv (constructs : bool) (w : World) :
  channel_inv w -> channel_inv (connectToSSE constructs w).
Proof.
  intros Hinv. pose proof (connectToSSE_result constructs w Hinv) as Hres.
  destruct constructs; cbv beta zeta iota in Hres.
  - destruct Hres as (Hs & Ht & Hr). split; [| by left].
    intros es. rewrite Hs. by intros ->%list_elem_of_singleton.
  - destruct Hres as (Hs & Ht & Hr). split.
    + intros es. rewrite Hs. by intros ?%elem_of_nil.
    + right. eauto.
Qed.

(** The error handler of the open source: it finds no timeout pending,
    closes the source and leaves one timeout, due after the delay. *)
Lemma onerror_result (w : World) (es : nat) :
  channel_inv w -> es ∈ sources w ->
  timers w = []
  /\ sources (onerror w) = []
  /\ timers (onerror w) = [(next_timer w, (now w + reconnect_delay)%Z)]
  /\ reconnectTimeoutRef (ui (onerror w)) = Some (next_timer w).
Proof.
  intros Hinv Hes.
  assert (Ht : timers w = []).
  { destruct Hinv as [_ [Hnone | (t & due & _ & _ & Hs)]]; [done |].
    rewrite Hs in Hes. by apply elem_of_nil in Hes. }
  split; [done |].
  pose proof (proj1 Hinv es Hes) as Href.
  pose proof (close_current w es Hinv Href) as Hclose.
  unfold onerror, schedule_reconnect. simpl. rewrite Href. simpl in *.
  by rewrite Hclose, Ht.
Qed.

Lemma cleanup_inv (w : World) : channel_inv w -> channel_inv (cleanup w).
Proof.
  intros Hinv. unfold cleanup.
  set (w1 := match eventSourceRef (ui w) with
             | Some es => on_ui (set_eventSourceRef None) (close es w)
             | None => w
             end).
  assert (H1 : sources w1 = [] /\ timers w1 = timers w
               /\ reconnectTimeoutRef (ui w1) = reconnectTimeoutRef (ui w)).
  { subst w1. destruct (eventSourceRef (ui w)) as [es |] eqn:Href.
    - pose proof (close_current w es Hinv Href) as Hc. simpl in *. by rewrite Hc.
    - split; [by apply no_ref_no_source | done]. }
  destruct H1 as (Hs1 & Ht1 & Hr1). rewrite Hr1.
  destruct (reconnectTimeoutRef (ui w)) as [t |] eqn:Href.
  - pose proof (clear_current w t Hinv Href) as Hc. simpl in Hc.
    split; simpl; [rewrite Hs1; by intros es ?%elem_of_nil | left].
    by rewrite Ht1, Hc.
  - split; [rewrite Hs1; by intros es ?%elem_of_nil | left].
    by rewrite Ht1, (no_ref_no_timer w Hinv Href).
Qed.

Lemma clearTimeout_pending_inv (w : World) (t : positive) (due : Z) :
  channel_inv w -> (t, due) ∈ timers w ->
  timers w = [(t, due)] /\ sources w = [] /\ channel_inv (clearTimeout t w).
Proof.
  intros [Hsrc [Hnone | (t' & due' & Hone & Href & Hs)]] Ht.
  - rewrite Hnone in Ht. by apply elem_of_nil in Ht.
  - rewrite Hone in Ht. apply list_elem_of_singleton in Ht as [= -> ->].
    split; [done |]. split; [done |].
    split; [exact Hsrc | left]. simpl. rewrite Hone.
    apply filter_all_out. intros x ->%list_elem_of_singleton. simpl. tauto.
Qed.

Lemma step_inv (w w' : World) : step w w' -> channel_inv w -> channel_inv w'.
Proof.
  intros Hstep Hinv.
  destruct Hstep as [c w | w | d w Hd | es w Hes | es w Hes
                    | D es name payload w Hes | t due c w Ht Hdue].
  - by apply connectToSSE_inv.
  - by apply cleanup_inv.
  - exact Hinv.
  - exact Hinv.
  - destruct (onerror_result w es Hinv Hes) as (_ & Hs & Htm & Hr).
    split; [rewrite Hs; by intros ? ?%elem_of_nil | right; eauto].
  - destruct (dispatch_refs D name payload (now w) (ui w)) as [He Hr].
    destruct Hinv as [Hsrc Htm]. split; simpl.
    + intros x Hx. rewrite He. by apply Hsrc.
    + rewrite Hr. exact Htm.
  - apply connectToSSE_inv. by eapply clearTimeout_pending_inv.
Qed.

Lemma reachable_inv (w : World) : reachable w -> channel_inv w.
Proof.
  unfold reachable. intros Hreach.
  assert (Hboot : channel_inv boot).
  { split; [by intros es ?%elem_of_nil | by left]. }
  induction Hreach as [| w1 w2 w3 Hstep _ IH]; [done |].
  apply IH. by eapply step_inv.
Qed.







(** The error handler clears nothing: whatever timeouts are pending when
    it runs stay pending, and it adds one, due after the delay. *)
Lemma onerror_timers (w : World) :
  timers (onerror w) = timers w ++ [(next_timer w, (now w + reconnect_delay)%Z)].
Proof.
  unfold onerror, schedule_reconnect. simpl.
  by destruct (eventSourceRef (ui w)).
Qed.




End LiveFacts.

(* ===================================================================== *)
(** * More on the live channel and on what the forms show *)
(* ===================================================================== *)

Module LiveMore.
Import Json Env Sync Live View LiveFacts.

(** ** How an event changes the status maps *)

(** The bridge map is left alone or gets one entry written. *)
Lemma update_bridge_shape (eventName : string) (data : Value) (st : State) :
  update_bridge eventName data st = st
  \/ exists s, update_bridge eventName data st
               = setBridgeStates (insert (prop_string data "name") s) st.
Proof. unfold update_bridge. repeat case_match; eauto. Qed.

Lemma update_broker_shape (eventName : string) (data : Value) (st : State) :
  update_broker eventName data st = st
  \/ exists s, update_broker eventName data st
               = setBrokerStates (insert (brokerKey data) s) st.
Proof. unfold update_broker. repeat case_match; eauto. Qed.

Lemma update_system_maps Date_getTime (eventName : string) (data : Value) (now : Z)
  (st : State) :
  bridgeStates (update_system Date_getTime eventName data now st) = bridgeStates st
  /\ brokerStates (update_system Date_getTime eventName data now st) = brokerStates st.
Proof. unfold update_system. repeat case_match; done. Qed.

Lemma dispatch_maps_shape Date_getTime (eventName : string) (payload : option Value)
  (now : Z) (st : State) :
  let st' := dispatch Date_getTime eventName payload now st in
  (bridgeStates st' = bridgeStates st
   \/ exists k s, bridgeStates st' = <[k:=s]> (bridgeStates st))
  /\ (brokerStates st' = brokerStates st
      \/ exists k s, brokerStates st' = <[k:=s]> (brokerStates st)).
Proof.
  unfold dispatch. case_bool_decide; [| by split; left].
  destruct payload as [data |]; [| by split; left].
  assert (Hgo :
    let st' := update_system Date_getTime eventName data now
                 (update_broker eventName data (update_bridge eventName data st)) in
    (bridgeStates st' = bridgeStates st
     \/ exists k s, bridgeStates st' = <[k:=s]> (bridgeStates st))
    /\ (brokerStates st' = brokerStates st
        \/ exists k s, brokerStates st' = <[k:=s]> (brokerStates st))).
  { cbv zeta.
    destruct (update_system_maps Date_getTime eventName data now
                (update_broker eventName data (update_bridge eventName data st)))
      as [-> ->].
    destruct (update_broker_shape eventName data (update_bridge eventName data st))
      as [-> | [s ->]];
      destruct (update_bridge_shape eventName data st) as [-> | [s' ->]];
      simpl; (split; [first [by left | right; by eexists _, _]
                     | first [by left | right; by eexists _, _]]). }
  destruct data; first [exact Hgo | by split; left].
Qed.

(** X1: an event never removes an entry of a status map, and changes at
    most one key of each. *)
Theorem status_entries_are_kept Date_getTime (eventName : string)
  (payload : option Value) (now : Z) (st : State) :
  let st' := dispatch Date_getTime eventName payload now st in
  (forall key, is_Some (bridgeStates st !! key) -> is_Some (bridgeStates st' !! key))
  /\ (forall key, is_Some (brokerStates st !! key) -> is_Some (brokerStates st' !! key))
  /\ (exists k, forall key, key <> k ->
        bridgeStates st' !! key = bridgeStates st !! key)
  /\ (exists k, forall key, key <> k ->
        brokerStates st' !! key = brokerStates st !! key).
Proof.
  destruct (dispatch_maps_shape Date_getTime eventName payload now st)
    as [[Hb | (kb & sb & Hb)] [Hk | (kk & sk & Hk)]];
    cbv zeta; rewrite Hb, Hk; repeat split;
    try (intros key Hkey; done);
    try (exists ""; intros key _; done);
    try (intros key Hkey;
         match goal with
         | |- is_Some (<[?k:=_]> _ !! _) =>
             destruct (decide (k = key)) as [-> | Hne];
             [rewrite lookup_insert_eq; eauto | by rewrite lookup_insert_ne]
         end).
  all: try (exists kb; intros key Hne; by rewrite lookup_insert_ne).
  all: try (exists kk; intros key Hne; by rewrite lookup_insert_ne).
Qed.

Lemma status_entries_are_kept_witness :
  is_Some (brokerStates
             (dispatch (fun _ => NaN) "broker_disabled"
                (Some (Map [("bridge", Str "b1"); ("instance", Str "i1")])) 0
                (setBrokerStates (insert "b2/i2" BrokerConnected) initial))
           !! "b2/i2").
Proof.
  apply (proj1 (proj2 (status_entries_are_kept (fun _ => NaN) "broker_disabled"
                         (Some (Map [("bridge", Str "b1"); ("instance", Str "i1")])) 0
                         (setBrokerStates (insert "b2/i2" BrokerConnected) initial)))).
  simpl. rewrite lookup_insert_eq. eauto.
Defined.

Lemma update_bridge_keeps (eventName : string) (data : Value) (st : State) :
  brokerStates (update_bridge eventName data st) = brokerStates st
  /\ bridgesSystemState (update_bridge eventName data st) = bridgesSystemState st
  /\ systemStartTime (update_bridge eventName data st) = systemStartTime st.
Proof. by destruct (update_bridge_shape eventName data st) as [-> | [s ->]]. Qed.

Lemma update_broker_keeps (eventName : string) (data : Value) (st : State) :
  bridgeStates (update_broker eventName data st) = bridgeStates st
  /\ bridgesSystemState (update_broker eventName data st) = bridgesSystemState st
  /\ systemStartTime (update_broker eventName data st) = systemStartTime st.
Proof. by destruct (update_broker_shape eventName data st) as [-> | [s ->]]. Qed.

(** X2: no event writes to two parts of the live state.  The bridge map
    changes on a [bridge_*] event only, the broker map on a [broker_*]
    event only, the system state and its start time on a [bridges_*]
    event only. *)
Theorem event_changes_one_part Date_getTime (eventName : string)
  (payload : option Value) (now : Z) (st : State) :
  let st' := dispatch Date_getTime eventName payload now st in
  (eventName ∉ ["bridge_disabled"; "bridge_starting"; "bridge_started";
                "bridge_stopping"; "bridge_stopped"] ->
   bridgeStates st' = bridgeStates st)
  /\ (eventName ∉ ["broker_disabled"; "broker_connecting"; "broker_connected";
                   "broker_disconnecting"; "broker_disconnected"] ->
      brokerStates st' = brokerStates st)
  /\ (eventName ∉ ["bridges_starting"; "bridges_started"; "bridges_stopping";
                   "bridges_stopped"] ->
      bridgesSystemState st' = bridgesSystemState st
      /\ systemStartTime st' = systemStartTime st).
Proof.
  unfold dispatch. case_bool_decide; [| done].
  destruct payload as [data |]; [| done].
  assert (Hgo :
    let st' := update_system Date_getTime eventName data now
                 (update_broker eventName data (update_bridge eventName data st)) in
    (eventName ∉ ["bridge_disabled"; "bridge_starting"; "bridge_started";
                  "bridge_stopping"; "bridge_stopped"] ->
     bridgeStates st' = bridgeStates st)
    /\ (eventName ∉ ["broker_disabled"; "broker_connecting"; "broker_connected";
                     "broker_disconnecting"; "broker_disconnected"] ->
        brokerStates st' = brokerStates st)
    /\ (eventName ∉ ["bridges_starting"; "bridges_started"; "bridges_stopping";
                     "bridges_stopped"] ->
        bridgesSystemState st' = bridgesSystemState st
        /\ systemStartTime st' = systemStartTime st)).
  { cbv zeta.
    destruct (update_system_maps Date_getTime eventName data now
                (update_broker eventName data (update_bridge eventName data st)))
      as [-> ->].
    destruct (update_broker_keeps eventName data (update_bridge eventName data st))
      as (Hk1 & Hk2 & Hk3).
    destruct (update_bridge_keeps eventName data st) as (Hb1 & Hb2 & Hb3).
    split; [| split]; intros Hname.
    - by rewrite Hk1, (update_bridge_other _ _ _ Hname).
    - by rewrite (update_broker_other _ _ _ Hname), Hb1.
    - rewrite (update_system_other _ _ _ _ _ Hname). split; congruence. }
  destruct data; first [exact Hgo | done].
Qed.

Lemma event_changes_one_part_witness :
  bridgeStates
    (dispatch (fun _ => NaN) "broker_connected"
       (Some (Map [("name", Str "b1"); ("bridge", Str "b1"); ("instance", Str "i1")]))
       0 initial)
  = bridgeStates initial.
Proof.
  apply (proj1 (event_changes_one_part (fun _ => NaN) "broker_connected"
                  (Some (Map [("name", Str "b1"); ("bridge", Str "b1");
                              ("instance", Str "i1")])) 0 initial)).
  decide_name.
Defined.

(** ** From the event to the broker form *)

(** The key a broker event writes, for a payload with a non-empty string
    as bridge and a non-empty string as instance. *)
Lemma dispatch_broker_event Date_getTime
  (eventName : string) (state : BrokerState) (data : Value) (bridge s : string)
  (now : Z) (st : State) :
  (eventName, state) ∈ [("broker_disabled", BrokerDisabled);
                        ("broker_connecting", BrokerConnecting);
                        ("broker_connected", BrokerConnected);
                        ("broker_disconnecting", BrokerDisconnecting);
                        ("broker_disconnected", BrokerDisconnected)] ->
  get_prop data "bridge" = Some (Str bridge) -> bridge <> "" ->
  get_prop data "instance" = Some (Str s) -> s <> "" ->
  dispatch Date_getTime eventName (Some data) now st
  = setBrokerStates
      (insert (bridge +:+ "/"
               +:+ (if String_includes "+" s
                    then List.last (String_split "+" s) "" else s)) state) st.
Proof.
  intros Hname Hbridge Hb Hinstance Hs.
  assert (Hkey : brokerKey data
                 = bridge +:+ "/"
                   +:+ (if String_includes "+" s
                        then List.last (String_split "+" s) "" else s)).
  { unfold brokerKey, prop_string, instanceName. by rewrite Hbridge, Hinstance. }
  assert (Hboth : truthy_prop data "bridge" && truthy_prop data "instance" = true).
  { unfold truthy_prop. rewrite Hbridge, Hinstance. simpl.
    by destruct (String.eqb_spec bridge ""), (String.eqb_spec s ""). }
  repeat (apply elem_of_cons in Hname as [[= -> ->] | Hname]);
    [ .. | by apply elem_of_nil in Hname ];
    unfold dispatch; (rewrite bool_decide_true by decide_name);
    destruct data; try done; unfold listener;
    (rewrite update_bridge_other by decide_name);
    (rewrite update_system_other by decide_name);
    unfold update_broker; rewrite Hboth, Hkey; reflexivity.
Qed.

Lemma String_includes_app (c : ascii) (a b : string) :
  String_includes c (a +:+ b) = String_includes c a || String_includes c b.
Proof.
  induction a as [| x a IH]; simpl; [done |]. by rewrite IH, orb_assoc.
Qed.

Lemma last_split_cons (c : ascii) (s : string) :
  String_includes "+" s = true ->
  List.last (String_split "+" (String c s)) "" = List.last (String_split "+" s) "".
Proof.
  intros Hs.
  destruct (String_split_plus s) as [[Hno _] | [_ (w & x & ws & _ & E & _)]];
    [congruence |].
  cbn [String_split]. rewrite E. by destruct (Ascii.eqb c "+").
Qed.

(** What follows the last plus sign, when it is known. *)
Lemma last_after_plus (before inst : string) :
  String_includes "+" inst = false ->
  List.last (String_split "+" (before +:+ "+" +:+ inst)) "" = inst.
Proof.
  intros Hinst.
  assert (Hsplit : String_split "+" inst = [inst]).
  { by destruct (String_split_plus inst) as [[_ ?] | [? _]]; [| congruence]. }
  induction before as [| c before IH].
  - change (List.last ("" :: String_split "+" inst) "" = inst). by rewrite Hsplit.
  - change (String c before +:+ "+" +:+ inst)
      with (String c (before +:+ "+" +:+ inst)).
    rewrite last_split_cons; [done |].
    rewrite String_includes_app. simpl. by rewrite orb_true_r.
Qed.

Lemma append_inj_l (p a b : string) : p +:+ a = p +:+ b -> a = b.
Proof. induction p as [| c p IH]; simpl; [done |]. intros [= H]. by apply IH. Qed.

(** X3: the state of a broker event reaches the form of that broker.  The
    form of the broker [instance_name] of the bridge [name] reads the
    entry that an event writes whose payload names the bridge and, as
    instance, the instance name itself or anything that ends with a plus
    sign and the instance name. *)
Theorem broker_event_reaches_form Date_getTime
  (eventName : string) (state : BrokerState) (data : Value) (before : string)
  (qualified : bool) (bridge : Bridge) (broker : Broker) (now : Z) (st : State) :
  (eventName, state) ∈ [("broker_disabled", BrokerDisabled);
                        ("broker_connecting", BrokerConnecting);
                        ("broker_connected", BrokerConnected);
                        ("broker_disconnecting", BrokerDisconnecting);
                        ("broker_disconnected", BrokerDisconnected)] ->
  name bridge <> "" ->
  instance_name (network broker) <> "" ->
  String_includes "+" (instance_name (network broker)) = false ->
  get_prop data "bridge" = Some (Str (name bridge)) ->
  get_prop data "instance"
  = Some (Str (if qualified
               then before +:+ "+" +:+ instance_name (network broker)
               else instance_name (network broker))) ->
  brokerState_shown
    (brokerStates (dispatch Date_getTime eventName (Some data) now st)) bridge broker
  = Some state.
Proof.
  intros Hname Hb Hi Hplus Hbridge Hinstance.
  rewrite (dispatch_broker_event Date_getTime eventName state data _ _ now st
             Hname Hbridge Hb Hinstance).
  - unfold brokerState_shown. simpl.
    destruct qualified.
    + rewrite String_includes_app. simpl. rewrite orb_true_r.
      rewrite last_after_plus by done. apply lookup_insert_eq.
    + rewrite Hplus. apply lookup_insert_eq.
  - destruct qualified; [| done].
    by destruct before.
Qed.

Lemma broker_event_reaches_form_witness :
  brokerState_shown
    (brokerStates
       (dispatch (fun _ => NaN) "broker_connecting"
          (Some (Map [("bridge", Str "b1"); ("instance", Str "host+i1")])) 0 initial))
    {| bridge_disabled := None; name := "b1"; bridge_prefix := None; brokers := [] |}
    {| broker_disabled := None; session_store := ""; mqtt := None;
       network := {| instance_name := "i1"; protocol := proto_in;
                     encryption := legacy; transport := stream;
                     net_in := None; net_in6 := None; net_rc := None;
                     net_l2 := None; net_un := None |};
       broker_prefix := None; topics := [] |}
  = Some BrokerConnecting.
Proof.
  apply (broker_event_reaches_form (fun _ => NaN) "broker_connecting" BrokerConnecting
           (Map [("bridge", Str "b1"); ("instance", Str "host+i1")]) "host" true);
    [decide_name | discriminate | discriminate | reflexivity | reflexivity | reflexivity].
Defined.

(** X4: a broker whose instance name contains a plus sign is not reached
    by the events that carry its name.  The event writes the entry of the
    last segment of the name, and the entry the form of the broker reads
    stays as it was. *)
Theorem plus_in_instance_name_is_not_reached Date_getTime
  (eventName : string) (state : BrokerState) (data : Value)
  (bridge : Bridge) (broker : Broker) (now : Z) (st : State) :
  (eventName, state) ∈ [("broker_disabled", BrokerDisabled);
                        ("broker_connecting", BrokerConnecting);
                        ("broker_connected", BrokerConnected);
                        ("broker_disconnecting", BrokerDisconnecting);
                        ("broker_disconnected", BrokerDisconnected)] ->
  name bridge <> "" ->
  String_includes "+" (instance_name (network broker)) = true ->
  get_prop data "bridge" = Some (Str (name bridge)) ->
  get_prop data "instance" = Some (Str (instance_name (network broker))) ->
  brokerState_shown
    (brokerStates (dispatch Date_getTime eventName (Some data) now st)) bridge broker
  = brokerState_shown (brokerStates st) bridge broker.
Proof.
  intros Hname Hb Hplus Hbridge Hinstance.
  rewrite (dispatch_broker_event Date_getTime eventName state data _ _ now st
             Hname Hbridge Hb Hinstance).
  - unfold brokerState_shown. simpl. rewrite Hplus.
    apply lookup_insert_ne. intros E.
    apply append_inj_l, (append_inj_l "/") in E.
    pose proof (last_segment (instance_name (network broker))) as Hseg.
    cbv zeta in Hseg. rewrite Hplus in Hseg. destruct Hseg as [_ Hno].
    rewrite E in Hno. congruence.
  - intros E. rewrite E in Hplus. discriminate.
Qed.

Lemma plus_in_instance_name_is_not_reached_witness :
  brokerState_shown
    (brokerStates
       (dispatch (fun _ => NaN) "broker_connected"
          (Some (Map [("bridge", Str "b1"); ("instance", Str "host+i1")])) 0 initial))
    {| bridge_disabled := None; name := "b1"; bridge_prefix := None; brokers := [] |}
    {| broker_disabled := None; session_store := ""; mqtt := None;
       network := {| instance_name := "host+i1"; protocol := proto_in;
                     encryption := legacy; transport := stream;
                     net_in := None; net_in6 := None; net_rc := None;
                     net_l2 := None; net_un := None |};
       broker_prefix := None; topics := [] |}
  = None.
Proof.
  apply (plus_in_instance_name_is_not_reached (fun _ => NaN)
           "broker_connected" BrokerConnected
           (Map [("bridge", Str "b1"); ("instance", Str "host+i1")]));
    [decide_name | discriminate | reflexivity | reflexivity | reflexivity].
Defined.

(** X5: the state of a bridge event reaches the form of that bridge, and
    no other.  After an event of the bridge table whose payload names a
    bridge, the form of the bridge of that name is given the state of
    the event, and the form of every bridge of another name is given
    what it was given before. *)
Theorem bridge_event_reaches_form Date_getTime
  (eventName : string) (state : BridgeState) (data : Value)
  (bridge : Bridge) (now : Z) (st : State) :
  (eventName, state) ∈ [("bridge_disabled", BridgeDisabled);
                        ("bridge_starting", BridgeStarting);
                        ("bridge_started", BridgeStarted);
                        ("bridge_stopping", BridgeStopping);
                        ("bridge_stopped", BridgeStopped)] ->
  name bridge <> "" ->
  get_prop data "name" = Some (Str (name bridge)) ->
  let st' := dispatch Date_getTime eventName (Some data) now st in
  bridgeState_shown (bridgeStates st') bridge = Some state
  /\ forall other,
       name other <> name bridge ->
       bridgeState_shown (bridgeStates st') other
       = bridgeState_shown (bridgeStates st) other.
Proof.
  intros Hname Hb Hget. cbv zeta.
  assert (Htruthy : truthy_prop data "name" = true).
  { unfold truthy_prop. rewrite Hget. simpl.
    by destruct (String.eqb_spec (name bridge) ""). }
  assert (Hgo : dispatch Date_getTime eventName (Some data) now st
                = setBridgeStates (insert (name bridge) state) st).
  { repeat (apply elem_of_cons in Hname as [[= -> ->] | Hname]);
      [ .. | by apply elem_of_nil in Hname ];
      unfold dispatch; (rewrite bool_decide_true by decide_name);
      destruct data; try done; unfold listener;
      (rewrite update_broker_other by decide_name);
      (rewrite update_system_other by decide_name);
      unfold update_bridge, prop_string; rewrite Htruthy, Hget; reflexivity. }
  rewrite Hgo. unfold bridgeState_shown. simpl. split.
  - apply lookup_insert_eq.
  - intros other Hother. by apply lookup_insert_ne.
Qed.

Lemma bridge_event_reaches_form_witness :
  bridgeState_shown
    (bridgeStates
       (dispatch (fun _ => NaN) "bridge_started"
          (Some (Map [("name", Str "b1")])) 0 initial))
    {| bridge_disabled := None; name := "b1"; bridge_prefix := None; brokers := [] |}
  = Some BridgeStarted.
Proof.
  apply (bridge_event_reaches_form (fun _ => NaN) "bridge_started" BridgeStarted
           (Map [("name", Str "b1")])
           {| bridge_disabled := None; name := "b1"; bridge_prefix := None;
              brokers := [] |} 0 initial);
    [decide_name | discriminate | reflexivity].
Defined.

(** ** The channel over the life of the component *)

Lemma cleanup_result (w : World) :
  channel_inv w ->
  sources (cleanup w) = [] /\ timers (cleanup w) = []
  /\ eventSourceRef (ui (cleanup w)) = None
  /\ reconnectTimeoutRef (ui (cleanup w)) = None.
Proof.
  intros Hinv. unfold cleanup.
  destruct (eventSourceRef (ui w)) as [es |] eqn:He; simpl.
  - pose proof (close_current w es Hinv He) as Hc. simpl in Hc.
    destruct (reconnectTimeoutRef (ui w)) as [t |] eqn:Hr; simpl.
    + pose proof (clear_current w t Hinv Hr) as Ht. simpl in Ht. by rewrite Hc, Ht.
    + by rewrite Hc, (no_ref_no_timer w Hinv Hr).
  - destruct (reconnectTimeoutRef (ui w)) as [t |] eqn:Hr; simpl.
    + pose proof (clear_current w t Hinv Hr) as Ht. simpl in Ht.
      by rewrite Ht, (no_ref_no_source w Hinv He).
    + by rewrite He, (no_ref_no_source w Hinv He), (no_ref_no_timer w Hinv Hr).
Qed.

Lemma step_sources (w w' : World) :
  step w w' -> channel_inv w -> length (sources w) <= 1 -> length (sources w') <= 1.
Proof.
  intros Hstep Hinv Hlen.
  destruct Hstep as [c w | w | d w Hd | es w Hes | es w Hes
                    | D es name payload w Hes | t due c w Ht Hdue];
    try exact Hlen.
  - pose proof (connectToSSE_result c w Hinv) as Hres.
    destruct c; cbv beta zeta iota in Hres; destruct Hres as (-> & _); simpl; lia.
  - destruct (cleanup_result w Hinv) as (-> & _). simpl. lia.
  - destruct (onerror_result w es Hinv Hes) as (_ & -> & _). simpl. lia.
  - destruct (clearTimeout_pending_inv w t due Hinv Ht) as (_ & _ & Hinv').
    pose proof (connectToSSE_result c (clearTimeout t w) Hinv') as Hres.
    unfold timeout_fires.
    destruct c; cbv beta zeta iota in Hres; destruct Hres as (-> & _); simpl; lia.
Qed.

(** X6: the component never holds two connections.  In every world it can
    reach, at most one event source is open; an open one is the one
    [eventSourceRef] holds, and no reconnect timeout is pending beside
    it. *)
Theorem one_open_source (w : World) :
  reachable w ->
  length (sources w) <= 1
  /\ forall es, es ∈ sources w ->
       sources w = [es] /\ eventSourceRef (ui w) = Some es /\ timers w = [].
Proof.
  intros Hreach.
  pose proof (reachable_inv w Hreach) as Hinv.
  assert (Hlen : length (sources w) <= 1).
  { unfold reachable in Hreach.
    assert (Hboot : channel_inv boot /\ length (sources boot) <= 1).
    { split; [| simpl; lia].
      split; [by intros es ?%elem_of_nil | by left]. }
    clear Hinv.
    induction Hreach as [| w1 w2 w3 Hstep _ IH]; [tauto |].
    destruct Hboot as [Hinv Hlen].
    apply IH. split; [by eapply step_inv | by eapply step_sources]. }
  split; [done |].
  intros es Hes. split; [| split].
  - destruct (sources w) as [| x [| y l]]; simpl in Hlen.
    + by apply elem_of_nil in Hes.
    + by apply list_elem_of_singleton in Hes as ->.
    + lia.
  - by apply Hinv.
  - destruct Hinv as [_ [Hnone | (t & due & _ & _ & Hs)]]; [done |].
    rewrite Hs in Hes. by apply elem_of_nil in Hes.
Qed.

Lemma one_open_source_witness :
  length (sources (connectToSSE true boot)) <= 1
  /\ forall es, es ∈ sources (connectToSSE true boot) ->
       sources (connectToSSE true boot) = [es]
       /\ eventSourceRef (ui (connectToSSE true boot)) = Some es
       /\ timers (connectToSSE true boot) = [].
Proof.
  apply (one_open_source (connectToSSE true boot)).
  apply rtc_once, step_mount.
Defined.

(** X7: the cleanup of the mount effect leaves nothing behind.  From any
    world the component can reach, it leaves no source open, no timeout
    pending and both refs empty; so the browser has nothing to deliver
    afterwards, and the state of the component stays as it is until it is
    mounted again. *)
Theorem cleanup_leaves_nothing (w : World) :
  reachable w ->
  sources (cleanup w) = [] /\ timers (cleanup w) = []
  /\ eventSourceRef (ui (cleanup w)) = None
  /\ reconnectTimeoutRef (ui (cleanup w)) = None
  /\ forall w', step (cleanup w) w' ->
       ui w' = ui (cleanup w) \/ exists constructs, w' = connectToSSE constructs (cleanup w).
Proof.
  intros Hreach.
  destruct (cleanup_result w (reachable_inv w Hreach)) as (Hs & Ht & He & Hr).
  repeat (split; [done |]).
  intros w' Hstep.
  remember (cleanup w) as v eqn:Hv.
  destruct Hstep as [c v | v | d v Hd | es v Hes | es v Hes
                    | D es name payload v Hes | t due c v Ht' Hdue].
  - right. by exists c.
  - left. unfold cleanup. by rewrite He, Hr.
  - by left.
  - rewrite Hs in Hes. by apply elem_of_nil in Hes.
  - rewrite Hs in Hes. by apply elem_of_nil in Hes.
  - rewrite Hs in Hes. by apply elem_of_nil in Hes.
  - rewrite Ht in Ht'. by apply elem_of_nil in Ht'.
Qed.

Lemma cleanup_leaves_nothing_witness :
  sources (cleanup (onerror (connectToSSE true boot))) = []
  /\ timers (cleanup (onerror (connectToSSE true boot))) = [].
Proof.
  assert (Hreach : reachable (onerror (connectToSSE true boot))).
  { eapply rtc_l; [apply (step_mount true) |].
    apply rtc_once, (step_error 0). simpl. by left. }
  destruct (cleanup_leaves_nothing _ Hreach) as (Hs & Ht & _).
  by split.
Defined.

End LiveMore.

(* ===================================================================== *)
(** * The status line *)
(* ===================================================================== *)

Module ViewFacts.
Import Json Sync Live View LiveFacts.

(** X8: what [formatUptime] keeps of a whole number of seconds from 0 to
    below 2^53.  The seconds split in one way into hours, minutes below
    sixty and seconds below sixty; the text gives the seconds alone below
    one minute, the minutes alone below one hour, and the hours with the
    minutes from there on: the seconds are dropped as soon as a minute is
    reached. *)
Theorem formatUptime_parts (seconds : Z) :
  (0 <= seconds < 2 ^ 53)%Z ->
  exists h m r : Z,
    seconds = (3600 * h + 60 * m + r)%Z
    /\ (0 <= h)%Z /\ (0 <= m < 60)%Z /\ (0 <= r < 60)%Z
    /\ formatUptime seconds
       = if (h =? 0)%Z
         then if (m =? 0)%Z then pretty r +:+ " sec" else pretty m +:+ " min"
         else pretty h +:+ " h " +:+ pretty m +:+ " min".
Proof.
  intros Hs.
  exists (seconds / 3600)%Z, (Z.rem seconds 3600 / 60)%Z, (seconds mod 60)%Z.
  assert (Hrem : Z.rem seconds 3600 = (seconds mod 3600)%Z)
    by (apply Z.rem_mod_nonneg; lia).
  rewrite Hrem.
  repeat split; try (Z.to_euclidean_division_equations; lia).
  unfold formatUptime. rewrite Hrem.
  destruct (Z.ltb_spec seconds 60) as [H60 | H60].
  - replace (seconds / 3600)%Z with 0%Z by (Z.to_euclidean_division_equations; lia).
    replace (seconds mod 3600 / 60)%Z with 0%Z
      by (Z.to_euclidean_division_equations; lia).
    simpl. by rewrite Z.mod_small by lia.
  - destruct (Z.ltb_spec seconds 3600) as [H3600 | H3600].
    + replace (seconds / 3600)%Z with 0%Z by (Z.to_euclidean_division_equations; lia).
      cbv zeta. rewrite (Z.mod_small seconds 3600) by lia.
      change (0 =? 0)%Z with true. cbv iota.
      destruct (Z.eqb_spec (seconds / 60) 0) as [E | _]; [| done].
      exfalso. Z.to_euclidean_division_equations. lia.
    + cbv zeta.
      destruct (Z.eqb_spec (seconds / 3600) 0) as [E | _]; [| done].
      exfalso. Z.to_euclidean_division_equations. lia.
Qed.

Lemma formatUptime_parts_witness :
  exists h m r : Z,
    3725%Z = (3600 * h + 60 * m + r)%Z
    /\ (0 <= h)%Z /\ (0 <= m < 60)%Z /\ (0 <= r < 60)%Z
    /\ formatUptime 3725
       = if (h =? 0)%Z
         then if (m =? 0)%Z then pretty r +:+ " sec" else pretty m +:+ " min"
         else pretty h +:+ " h " +:+ pretty m +:+ " min".
Proof. apply (formatUptime_parts 3725). lia. Defined.

(** X9: the uptime of a started system.  With a start time that is a
    number other than zero and not in the future, the effect stores the
    number of seconds begun since then: at least one, and one more than
    the whole seconds elapsed.  So the line shows seconds for the first
    59 seconds only, and ["1 min"] from there to the end of the second
    minute. *)
Theorem uptime_counts_begun_seconds (ms now uptime : Z) :
  ms <> 0%Z -> (ms <= now)%Z ->
  let u := uptime_effect (Some SystemStarted) (Some (Ms ms)) now uptime in
  (1 <= u)%Z
  /\ (1000 * (u - 1) <= now - ms < 1000 * u)%Z
  /\ ((now - ms < 59000)%Z ->
      statusText (Some SystemStarted) u
      = Some ("running - uptime: " +:+ pretty u +:+ " sec"))
  /\ ((59000 <= now - ms < 119000)%Z ->
      statusText (Some SystemStarted) u = Some "running - uptime: 1 min").
Proof.
  intros Hms Hnow. cbv zeta. unfold uptime_effect, truthy_time.
  destruct (Z.eqb_spec ms 0) as [? | _]; [done |]. cbv [negb].
  repeat split; try (Z.to_euclidean_division_equations; lia).
  - intros Hlt. unfold statusText, formatUptime.
    destruct (Z.ltb_spec ((now - ms) / 1000 + 1) 60) as [_ | Hge]; [done |].
    exfalso. Z.to_euclidean_division_equations. lia.
  - intros Hlt. unfold statusText, formatUptime.
    destruct (Z.ltb_spec ((now - ms) / 1000 + 1) 60) as [Hl | _].
    { exfalso. Z.to_euclidean_division_equations. lia. }
    destruct (Z.ltb_spec ((now - ms) / 1000 + 1) 3600) as [_ | Hge].
    2:{ exfalso. Z.to_euclidean_division_equations. lia. }
    cbv zeta.
    replace (((now - ms) / 1000 + 1) / 60)%Z with 1%Z
      by (Z.to_euclidean_division_equations; lia).
    reflexivity.
Qed.

Lemma uptime_counts_begun_seconds_witness :
  (1 <= uptime_effect (Some SystemStarted) (Some (Ms 1000)) 60500 0)%Z
  /\ statusText (Some SystemStarted)
       (uptime_effect (Some SystemStarted) (Some (Ms 1000)) 60500 0)
     = Some "running - uptime: 1 min".
Proof.
  pose proof (uptime_counts_begun_seconds 1000 60500 0 ltac:(lia) ltac:(lia)) as H.
  cbv zeta in H. destruct H as (H1 & _ & _ & H4).
  split; [exact H1 | apply H4; lia].
Defined.




End ViewFacts.

(* ===================================================================== *)
(** * The diff engine: where the operations point, and local changes *)
(* ===================================================================== *)

Module DiffMore.
Import Json Diff Shape JsonFacts DiffFacts.

Lemma append_assoc (a b c : string) : (a +:+ b) +:+ c = a +:+ b +:+ c.
Proof.
  induction a as [| x a IH]; [done |].
  change (String x ((a +:+ b) +:+ c) = String x (a +:+ b +:+ c)). by rewrite IH.
Qed.

Lemma append_nil_r (a : string) : a +:+ "" = a.
Proof.
  induction a as [| x a IH]; [done |].
  change (String x (a +:+ "") = String x a). by rewrite IH.
Qed.

Lemma entries_from_elem (base : nat) (items : list Value) (k : string) (v : Value) :
  (k, v) ∈ entries_from base items -> v ∈ items.
Proof.
  revert base. induction items as [| x l IH]; intros base; simpl.
  - by intros ?%elem_of_nil.
  - intros [[= _ ->] | H]%elem_of_cons; [left | right; by eapply IH].
Qed.

(** A property that holds an array or an object is an item of the
    array, or a field of the object. *)
Lemma get_prop_child (a : Value) (key : string) (v : Value) :
  get_prop a key = Some v -> is_object v = true ->
  match a with
  | Seq items => v ∈ items
  | Map fields => v ∈ fields.*2
  | _ => False
  end.
Proof.
  destruct a as [| | | | items | fields]; simpl; try discriminate.
  - destruct (String.eqb key "length"); [by intros [= <-] |].
    intros H%assoc_Some_elem _. by eapply entries_from_elem.
  - intros H%assoc_Some_elem _. apply list_elem_of_fmap. by exists (key, v).
Qed.

Lemma below_refl (p : string) : below p p.
Proof. exists "". split; [by rewrite append_nil_r | by left]. Qed.

Lemma below_child (p x : string) : below p (p +:+ "/" +:+ x).
Proof. exists ("/" +:+ x). split; [done | right; by exists x]. Qed.

Lemma below_trans (a b c : string) : below a b -> below b c -> below a c.
Proof.
  intros (s1 & -> & H1) (s2 & -> & H2). exists (s1 +:+ s2).
  split; [by rewrite append_assoc |].
  destruct H1 as [-> | (r1 & ->)]; [done |].
  right. exists (r1 +:+ s2). by rewrite append_assoc.
Qed.

Section Paths.
Variable a : Value.
Hypothesis children :
  forall key v, get_prop a key = Some v -> is_object v = true ->
  forall b p o, o ∈ generateJSONPatch v b p -> below p (op_path o).

Lemma changed_paths (key : string) (oldValue newValue : Value) (q : string)
  (o : PatchOp) :
  get_prop a key = Some oldValue ->
  o ∈ changed (child_diff a) key oldValue newValue q ->
  below q (op_path o).
Proof.
  intros Hget. rewrite changed_child_diff by done.
  destruct (negb (Value_eqb oldValue newValue)); [| by intros ?%elem_of_nil].
  destruct (is_object oldValue) eqn:Hobj; simpl.
  - destruct (is_object newValue).
    + by apply children with key.
    + intros ->%list_elem_of_singleton. apply below_refl.
  - intros ->%list_elem_of_singleton. apply below_refl.
Qed.

Lemma object_step_paths (b : Value) (p key : string) (o : PatchOp) :
  o ∈ object_step (child_diff a) a b p key -> below p (op_path o).
Proof.
  unfold object_step.
  set (newPath := if String.eqb p "" then "/" +:+ key else p +:+ "/" +:+ key).
  assert (Hnew : below p newPath).
  { subst newPath. destruct (String.eqb_spec p "") as [-> | _].
    - apply (below_child "" key).
    - apply below_child. }
  destruct (get_prop b key) as [newValue |].
  - destruct (get_prop a key) as [oldValue |] eqn:Hget.
    + intros Ho%changed_paths; [| done]. by eapply below_trans.
    + by intros ->%list_elem_of_singleton.
  - by intros ->%list_elem_of_singleton.
Qed.
End Paths.

Lemma array_step_paths (oldItems newItems : list Value) (p : string) (i : nat)
  (o : PatchOp) :
  (forall v, v ∈ oldItems ->
   forall b q o, o ∈ generateJSONPatch v b q -> below q (op_path o)) ->
  o ∈ array_step (child_diff (Seq oldItems)) oldItems newItems p i ->
  below (p +:+ "/" +:+ index_key i) (op_path o).
Proof.
  intros IH. unfold array_step.
  destruct (newItems !! i) as [newElement |];
    [| intros ->%list_elem_of_singleton; apply below_refl].
  destruct (oldItems !! i) as [oldElement |] eqn:Hold;
    [| intros ->%list_elem_of_singleton; apply below_refl].
  unfold changed.
  destruct (negb (Value_eqb oldElement newElement)); [| by intros ?%elem_of_nil].
  destruct (is_object oldElement && is_object newElement).
  - unfold child_diff. simpl. rewrite assoc_index_key, Hold.
    intros Ho%IH; [done | by eapply list_elem_of_lookup_2].
  - intros ->%list_elem_of_singleton. apply below_refl.
Qed.

Lemma root_path_below (p : string) :
  below p (if String.eqb p "" then "/" else p).
Proof.
  destruct (String.eqb_spec p "") as [-> | _]; [| apply below_refl].
  exists "/". split; [done | right; by exists ""].
Qed.

Lemma generateJSONPatch_paths (oldObj newObj : Value) (path : string)
  (o : PatchOp) :
  o ∈ generateJSONPatch oldObj newObj path -> below path (op_path o).
Proof.
  revert newObj path o.
  induction oldObj as [| x | x | x | items IH | fields IH] using Value_nested_ind;
    intros newObj path o; rewrite generateJSONPatch_unfold.
  1-4: destruct newObj; simpl;
       try (by intros ?%elem_of_nil);
       try (intros ->%list_elem_of_singleton; apply root_path_below);
       (case_match; [| by intros ?%elem_of_nil]);
       intros ->%list_elem_of_singleton; apply root_path_below.
  - assert (Hchildren : forall key v, get_prop (Seq items) key = Some v ->
              is_object v = true ->
              forall b p o, o ∈ generateJSONPatch v b p -> below p (op_path o)).
    { intros key v Hget Hobj. pose proof (get_prop_child _ _ _ Hget Hobj) as Hin.
      rewrite Forall_forall in IH. by apply IH. }
    destruct newObj as [| | | | ys | ys]; simpl.
    1-4: intros ->%list_elem_of_singleton; apply root_path_below.
    + intros (i & _ & Ho)%list_elem_of_In%in_flat_map.
      apply list_elem_of_In in Ho.
      eapply below_trans; [apply (below_child path (index_key i)) |].
      eapply array_step_paths; [| exact Ho].
      rewrite Forall_forall in IH. exact IH.
    + intros (key & _ & Ho)%list_elem_of_In%in_flat_map.
      apply list_elem_of_In in Ho.
      by eapply object_step_paths.
  - assert (Hchildren : forall key v, get_prop (Map fields) key = Some v ->
              is_object v = true ->
              forall b p o, o ∈ generateJSONPatch v b p -> below p (op_path o)).
    { intros key v Hget Hobj. pose proof (get_prop_child _ _ _ Hget Hobj) as Hin.
      simpl in Hin. apply list_elem_of_fmap in Hin as ([k v'] & -> & Hin).
      rewrite Forall_forall in IH. by apply (IH _ Hin). }
    destruct newObj as [| | | | ys | ys]; simpl.
    1-4: intros ->%list_elem_of_singleton; apply root_path_below.
    + intros (key & _ & Ho)%list_elem_of_In%in_flat_map.
      apply list_elem_of_In in Ho.
      by eapply object_step_paths.
    + intros (key & _ & Ho)%list_elem_of_In%in_flat_map.
      apply list_elem_of_In in Ho.
      by eapply object_step_paths.
Qed.

(** X11: every operation of a patch is addressed at the path the function
    is called with, or below it: its pointer is that path, followed by
    nothing or by a slash and further reference tokens.  The patch of two
    documents compared at a path touches nothing outside that path; the
    patch made at [/bridges/1] holds no operation on [/bridges/10]. *)
Theorem operations_stay_below_path (oldObj newObj : Value) (path : string)
  (o : PatchOp) :
  o ∈ generateJSONPatch oldObj newObj path ->
  exists suffix,
    op_path o = path +:+ suffix
    /\ (suffix = "" \/ exists rest, suffix = "/" +:+ rest).
Proof. apply generateJSONPatch_paths. Qed.

Lemma operations_stay_below_path_witness :
  exists suffix,
    op_path (Replace "/bridges/1/name" (Str "b")) = "/bridges/1" +:+ suffix
    /\ (suffix = "" \/ exists rest, suffix = "/" +:+ rest).
Proof.
  apply (operations_stay_below_path
           (Map [("name", Str "a")]) (Map [("name", Str "b")]) "/bridges/1").
  exact (list_elem_of_here _ []).
Defined.

(** ** Arrays that change at the tail or at one index *)

(** The patch of two arrays, by cases on the element at each index. *)
Lemma generateJSONPatch_Seq (xs ys : list Value) (p : string) :
  generateJSONPatch (Seq xs) (Seq ys) p
  = flat_map
      (fun i =>
         match ys !! i with
         | None => [Remove (p +:+ "/" +:+ index_key i)]
         | Some y =>
             match xs !! i with
             | None => [Add (p +:+ "/" +:+ index_key i) y]
             | Some x =>
                 if negb (Value_eqb x y) then
                   if is_object x && is_object y
                   then generateJSONPatch x y (p +:+ "/" +:+ index_key i)
                   else [Replace (p +:+ "/" +:+ index_key i) y]
                 else []
             end
         end)
      (seq 0 (Nat.max (length xs) (length ys))).
Proof.
  rewrite generateJSONPatch_unfold. simpl.
  apply flat_map_ext_elem. intros i _. unfold array_step.
  destruct (ys !! i) as [y |]; [| done].
  destruct (xs !! i) as [x |] eqn:Hx; [| done].
  unfold changed. destruct (negb (Value_eqb x y)); [| done].
  destruct (is_object x && is_object y); [| done].
  unfold child_diff. simpl. by rewrite assoc_index_key, Hx.
Qed.

Lemma generateJSONPatch_growth_at (items extra : list Value) (p : string) :
  generateJSONPatch (Seq items) (Seq (items ++ extra)) p
  = imap (fun j v => Add (p +:+ "/" +:+ index_key (length items + j)) v) extra.
Proof.
  rewrite generateJSONPatch_Seq, length_app.
  replace (Nat.max (length items) (length items + length extra))
    with (length items + length extra) by lia.
  rewrite seq_app, flat_map_app. simpl.
  rewrite flat_map_nil.
  2:{ intros i Hi%elem_of_seq.
      rewrite lookup_app_l by lia.
      destruct (lookup_lt_is_Some_2 items i) as [x ->]; [lia |].
      by rewrite Value_eqb_refl. }
  simpl. apply (flat_map_seq_imap _ (fun i v => Add (p +:+ "/" +:+ index_key i) v)).
  intros j v Hj.
  rewrite lookup_app_r by lia.
  replace (length items + j - length items) with j by lia. rewrite Hj.
  by rewrite (lookup_ge_None_2 items) by lia.
Qed.

Lemma generateJSONPatch_shrink_at (items extra : list Value) (p : string) :
  generateJSONPatch (Seq (items ++ extra)) (Seq items) p
  = (fun i => Remove (p +:+ "/" +:+ index_key i)) <$> seq (length items) (length extra).
Proof.
  rewrite generateJSONPatch_Seq, length_app.
  replace (Nat.max (length items + length extra) (length items))
    with (length items + length extra) by lia.
  rewrite seq_app, flat_map_app. simpl.
  rewrite flat_map_nil.
  2:{ intros i Hi%elem_of_seq.
      rewrite lookup_app_l by lia.
      destruct (lookup_lt_is_Some_2 items i) as [x ->]; [lia |].
      by rewrite Value_eqb_refl. }
  simpl. apply flat_map_singletons.
  intros i Hi%elem_of_seq.
  by rewrite (lookup_ge_None_2 items i) by lia.
Qed.

(** X12: an array that changes at the tail only, at any path.  What is
    appended is added in order, each element at the index it gets; what
    is cut off is removed by ascending index, each index the one of the
    old array. *)
Theorem tail_changes_at_any_path (items extra : list Value) (path : string) :
  generateJSONPatch (Seq items) (Seq (items ++ extra)) path
  = imap (fun j v => Add (path +:+ "/" +:+ index_key (length items + j)) v) extra
  /\ generateJSONPatch (Seq (items ++ extra)) (Seq items) path
     = (fun i => Remove (path +:+ "/" +:+ index_key i))
       <$> seq (length items) (length extra).
Proof. split; [apply generateJSONPatch_growth_at | apply generateJSONPatch_shrink_at]. Qed.

Lemma flat_map_one {A B} (f : A -> list B) (l : list A) (i : nat) (x : A) :
  l !! i = Some x ->
  (forall j y, l !! j = Some y -> j <> i -> f y = []) ->
  NoDup l ->
  flat_map f l = f x.
Proof.
  revert i. induction l as [| y l IH]; intros i Hx Hothers Hnd; [done |].
  apply NoDup_cons in Hnd as [Hy Hnd]. simpl.
  destruct i as [| i]; simpl in Hx.
  - injection Hx as ->. rewrite flat_map_nil; [by rewrite app_nil_r |].
    intros z Hz. apply list_elem_of_lookup in Hz as [j Hj].
    by apply (Hothers (S j)).
  - rewrite (Hothers 0 y) by done. simpl.
    apply (IH i); [done | | done].
    intros j z Hj Hne. apply (Hothers (S j)); [done | lia].
Qed.

(** The patch of an array against itself with one element replaced: the
    patch of that element, at its index. *)
Lemma generateJSONPatch_one_element (items : list Value) (i : nat) (x y : Value)
  (p : string) :
  items !! i = Some x ->
  generateJSONPatch (Seq items) (Seq (<[i := y]> items)) p
  = if negb (Value_eqb x y) then
      if is_object x && is_object y
      then generateJSONPatch x y (p +:+ "/" +:+ index_key i)
      else [Replace (p +:+ "/" +:+ index_key i) y]
    else [].
Proof.
  intros Hx. pose proof (lookup_lt_Some _ _ _ Hx) as Hi.
  rewrite generateJSONPatch_Seq, length_insert, Nat.max_id.
  rewrite (flat_map_one _ _ i i).
  - by rewrite list_lookup_insert_eq, Hx by done.
  - apply lookup_seq. lia.
  - intros j k [-> Hj]%lookup_seq Hne. simpl.
    rewrite list_lookup_insert_ne by done.
    destruct (lookup_lt_is_Some_2 items j) as [z ->]; [lia |].
    by rewrite Value_eqb_refl.
  - apply NoDup_seq.
Qed.

(** ** Objects *)

(** The patch of two objects, by cases on the value of each name. *)
Lemma generateJSONPatch_Map (xs ys : list (string * Value)) (p : string) :
  generateJSONPatch (Map xs) (Map ys) p
  = flat_map
      (fun key =>
         match assoc key ys with
         | None => [Remove (property_path p key)]
         | Some y =>
             match assoc key xs with
             | None => [Add (property_path p key) y]
             | Some x =>
                 if negb (Value_eqb x y) then
                   if is_object x && is_object y
                   then generateJSONPatch x y (property_path p key)
                   else [Replace (property_path p key) y]
                 else []
             end
         end)
      (Set_from [] (xs.*1 ++ ys.*1)).
Proof.
  rewrite generateJSONPatch_unfold. simpl.
  apply flat_map_ext_elem. intros key _. unfold object_step, property_path. simpl.
  destruct (assoc key ys) as [y |]; [| done].
  destruct (assoc key xs) as [x |] eqn:Hx; [| done].
  by rewrite changed_child_diff.
Qed.

Lemma Set_from_ext (s1 s2 names : list string) :
  (forall k, k ∈ s1 <-> k ∈ s2) -> Set_from s1 names = Set_from s2 names.
Proof.
  revert s1 s2. induction names as [| k l IH]; intros s1 s2 H; simpl; [done |].
  rewrite (bool_decide_ext (k ∈ s1) (k ∈ s2)) by apply H.
  case_bool_decide; [by apply IH |].
  f_equal. apply IH. intros x. rewrite !elem_of_cons. by rewrite H.
Qed.

Lemma Set_from_app (seen a b : list string) :
  Set_from seen (a ++ b) = Set_from seen a ++ Set_from (a ++ seen) b.
Proof.
  revert seen. induction a as [| k a IH]; intros seen; simpl; [done |].
  case_bool_decide as Hk.
  - rewrite IH. f_equal. apply Set_from_ext. intros x.
    rewrite elem_of_cons, !elem_of_app.
    split; [tauto |]. intros [-> | ?]; tauto.
  - simpl. rewrite IH. do 2 f_equal. apply Set_from_ext. intros x.
    rewrite elem_of_cons, !elem_of_app, elem_of_cons. tauto.
Qed.

Lemma filter_ext_elem {A} (P Q : A -> Prop)
  `{forall x, Decision (P x)} `{forall x, Decision (Q x)} (l : list A) :
  (forall x, x ∈ l -> P x <-> Q x) -> filter P l = filter Q l.
Proof.
  induction l as [| x l IH]; intros Hext; [done |].
  rewrite !filter_cons.
  rewrite IH by (intros y Hy; apply Hext; by right).
  destruct (decide (P x)) as [HP | HP], (decide (Q x)) as [HQ | HQ]; try done.
  - apply Hext in HP; [done | left].
  - apply Hext in HQ; [done | left].
Qed.

Lemma Set_from_NoDup (seen names : list string) :
  NoDup names -> Set_from seen names = filter (fun k => k ∉ seen) names.
Proof.
  revert seen. induction names as [| k l IH]; intros seen Hnd; simpl; [done |].
  apply NoDup_cons in Hnd as [Hk Hnd].
  case_bool_decide as Hseen.
  - rewrite filter_cons_False by tauto. by apply IH.
  - rewrite filter_cons_True by done. f_equal. rewrite IH by done.
    apply filter_ext_elem. intros x Hx. rewrite elem_of_cons.
    split; [tauto |]. intros Hseen' [-> | ?]; tauto.
Qed.

Lemma filter_all_out_elem {A} (P : A -> Prop) `{forall x, Decision (P x)}
  (l : list A) :
  (forall x, x ∈ l -> ~ P x) -> filter P l = [].
Proof.
  induction l as [| x l IH]; intros Hall; [done |].
  rewrite filter_cons_False by (apply Hall; left).
  apply IH. intros y Hy. apply Hall. by right.
Qed.

(** The names of two objects that list no name twice: the names of the
    old one, followed by the names that only the new one has. *)
Lemma Set_from_keys (a b : list string) :
  NoDup a -> NoDup b ->
  Set_from [] (a ++ b) = a ++ filter (fun k => k ∉ a) b.
Proof.
  intros Ha Hb. rewrite Set_from_app, !Set_from_NoDup, app_nil_r by done.
  f_equal. clear. induction a as [| x a IH]; [done |].
  rewrite filter_cons_True by (by intros ?%elem_of_nil). by rewrite IH.
Qed.

Lemma assoc_app (key : string) (xs ys : list (string * Value)) :
  assoc key (xs ++ ys)
  = match assoc key xs with Some v => Some v | None => assoc key ys end.
Proof.
  induction xs as [| [k x] xs IH]; simpl; [done |].
  by destruct (String.eqb key k).
Qed.

Lemma assoc_None (key : string) (xs : list (string * Value)) :
  key ∉ xs.*1 -> assoc key xs = None.
Proof.
  intros Hkey. destruct (assoc key xs) as [v |] eqn:E; [| done].
  apply assoc_Some_elem in E. exfalso. apply Hkey.
  apply list_elem_of_fmap. by exists (key, v).
Qed.

(** The patch of an object against itself with the value of one name
    replaced: the patch of that value, at the path of the name. *)
Lemma generateJSONPatch_one_field (before after : list (string * Value))
  (key : string) (x y : Value) (p : string) :
  NoDup ((before ++ (key, x) :: after).*1) ->
  generateJSONPatch (Map (before ++ (key, x) :: after))
                    (Map (before ++ (key, y) :: after)) p
  = if negb (Value_eqb x y) then
      if is_object x && is_object y
      then generateJSONPatch x y (property_path p key)
      else [Replace (property_path p key) y]
    else [].
Proof.
  intros Hnd. rewrite generateJSONPatch_Map.
  assert (Hkeys : (before ++ (key, y) :: after).*1 = (before ++ (key, x) :: after).*1).
  { by rewrite !fmap_app. }
  rewrite Hkeys, Set_from_keys by done.
  rewrite (filter_all_out_elem _ ((before ++ (key, x) :: after).*1)) by tauto.
  rewrite app_nil_r.
  rewrite fmap_app in Hnd. cbn [fmap list_fmap fst] in Hnd.
  apply NoDup_app in Hnd as (Hb & Hdisj & Ha).
  apply NoDup_cons in Ha as [Hka Ha].
  assert (Hkb : key ∉ before.*1).
  { intros Hin. apply (Hdisj _ Hin). left. }
  rewrite (flat_map_one _ _ (length before) key).
  - rewrite !assoc_app, (assoc_None key before) by done. simpl.
    by rewrite String.eqb_refl.
  - rewrite fmap_app. rewrite lookup_app_r by (by rewrite length_fmap).
    by rewrite length_fmap, Nat.sub_diag.
  - intros j k Hj Hne.
    assert (Hk : k <> key).
    { intros ->. apply Hne.
      rewrite fmap_app in Hj. cbn [fmap list_fmap fst] in Hj.
      destruct (decide (j < length before)) as [Hlt | Hge].
      - rewrite lookup_app_l in Hj by (by rewrite length_fmap).
        apply list_elem_of_lookup_2 in Hj. done.
      - rewrite lookup_app_r in Hj by (rewrite length_fmap; lia).
        rewrite length_fmap in Hj.
        destruct (j - length before) as [| m] eqn:E; [lia |].
        simpl in Hj. apply list_elem_of_lookup_2 in Hj. done. }
    rewrite !assoc_app. simpl.
    destruct (String.eqb_spec k key) as [? | _]; [done |].
    destruct (assoc k before) as [v |] eqn:Eb.
    + by rewrite Value_eqb_refl.
    + destruct (assoc k after) as [v |] eqn:E.
      * by rewrite Value_eqb_refl.
      * exfalso. apply list_elem_of_lookup_2 in Hj.
        rewrite fmap_app in Hj. cbn [fmap list_fmap fst] in Hj.
        apply elem_of_app in Hj as [Hj | [-> | Hj]%elem_of_cons]; [| done |].
        -- apply assoc_is_Some in Hj as [? Hs]. congruence.
        -- apply assoc_is_Some in Hj as [? Hs]. congruence.
  - rewrite fmap_app. cbn [fmap list_fmap fst].
    apply NoDup_app. split; [done |]. split; [done |]. by apply NoDup_cons.
Qed.

(** ** The empty patch *)

Lemma flat_map_nil_inv {A B} (f : A -> list B) (l : list A) :
  flat_map f l = [] -> forall x, x ∈ l -> f x = [].
Proof.
  induction l as [| y l IH]; simpl; intros H x Hx.
  - by apply elem_of_nil in Hx.
  - apply app_eq_nil in H as [Hy Hl].
    apply elem_of_cons in Hx as [-> | Hx]; [done | by apply IH].
Qed.

Lemma Set_from_complete (seen names : list string) (k : string) :
  k ∈ names -> k ∉ seen -> k ∈ Set_from seen names.
Proof.
  revert seen. induction names as [| x l IH]; intros seen; simpl.
  - by intros ?%elem_of_nil.
  - intros [-> | Hk]%elem_of_cons Hseen.
    + rewrite bool_decide_false by done. left.
    + case_bool_decide; [by apply IH |].
      destruct (decide (k = x)) as [-> | Hne]; [left | right].
      apply IH; [done |]. by intros [? | ?]%elem_of_cons.
Qed.

Lemma deep_equal_Seq_intro (xs ys : list Value) :
  Forall2 (fun x y => deep_equal x y = true) xs ys ->
  deep_equal (Seq xs) (Seq ys) = true.
Proof.
  simpl. induction 1 as [| x y xs ys Hxy _ IH]; [done |]. by rewrite Hxy, IH.
Qed.

Lemma deep_equal_Map_intro (xs ys : list (string * Value)) :
  (forall key, key ∈ xs.*1 ++ ys.*1 ->
   exists x y, assoc key xs = Some x /\ assoc key ys = Some y
               /\ deep_equal x y = true) ->
  deep_equal (Map xs) (Map ys) = true.
Proof.
  intros H. simpl. apply forallb_forall. intros key Hkey%list_elem_of_In.
  destruct (H key Hkey) as (x & y & Hx & -> & Hxy).
  clear H Hkey. induction xs as [| [k v] l IH]; [discriminate |].
  simpl in Hx. destruct (String.eqb key k); [by injection Hx as -> | by apply IH].
Qed.

Lemma aligned_Seq (xs ys : list Value) (i : nat) (x y : Value) :
  aligned (Seq xs) (Seq ys) = true -> xs !! i = Some x -> ys !! i = Some y ->
  aligned x y = true.
Proof.
  simpl. revert ys i.
  induction xs as [| x' xs IH]; intros [| y' ys] [| i]; try discriminate.
  - intros [H _]%andb_prop [= ->] [= ->]. done.
  - intros [_ H]%andb_prop. simpl. by apply IH.
Qed.

Lemma aligned_Map (xs ys : list (string * Value)) (key : string) (x y : Value) :
  aligned (Map xs) (Map ys) = true -> (key, x) ∈ xs -> assoc key ys = Some y ->
  aligned x y = true.
Proof.
  simpl. intros Hall Hin Hy.
  induction xs as [| [k v] l IH]; [by apply elem_of_nil in Hin |].
  apply andb_prop in Hall as [Hv Hl].
  apply elem_of_cons in Hin as [[= <- <-] | Hin]; [| by apply IH].
  by rewrite Hy in Hv.
Qed.

(** What an index or a name contributes to an empty patch. *)
Lemma changed_nothing (x y : Value) (q : string) :
  (if negb (Value_eqb x y) then
     if is_object x && is_object y then generateJSONPatch x y q
     else [Replace q y]
   else []) = [] ->
  x = y \/ generateJSONPatch x y q = [].
Proof.
  destruct (Value_eqb x y) eqn:E; simpl.
  - left. by apply Value_eqb_eq.
  - destruct (is_object x && is_object y); [by right | discriminate].
Qed.

Lemma generateJSONPatch_nil_inv (oldObj newObj : Value) (path : string) :
  aligned oldObj newObj = true ->
  generateJSONPatch oldObj newObj path = [] ->
  deep_equal oldObj newObj = true.
Proof.
  revert newObj path.
  induction oldObj as [| x | x | x | items IH | fields IH] using Value_nested_ind;
    intros newObj path Hal.
  1-4: rewrite generateJSONPatch_unfold;
       destruct newObj; simpl; try discriminate; try reflexivity;
       by (case_match; [discriminate | intros _; by apply negb_false_iff]).
  - destruct newObj as [| | | | ys | ys]; try discriminate.
    rewrite generateJSONPatch_Seq. intros Hnil.
    pose proof (flat_map_nil_inv _ _ Hnil) as Hall. clear Hnil.
    assert (Hlen : length items = length ys).
    { destruct (decide (length items < length ys)) as [Hlt | Hge].
      - specialize (Hall (length items)). simpl in Hall.
        destruct (lookup_lt_is_Some_2 ys (length items) Hlt) as [y Hy].
        rewrite Hy, (lookup_ge_None_2 items) in Hall by lia.
        discriminate Hall. apply elem_of_seq. lia.
      - destruct (decide (length ys < length items)) as [Hlt | Hge']; [| lia].
        specialize (Hall (length ys)). simpl in Hall.
        rewrite (lookup_ge_None_2 ys) in Hall by lia.
        discriminate Hall. apply elem_of_seq. lia. }
    apply deep_equal_Seq_intro. apply Forall2_same_length_lookup_2; [done |].
    intros i x y Hx Hy.
    specialize (Hall i). simpl in Hall. rewrite Hx, Hy in Hall.
    destruct (changed_nothing x y _ (Hall ltac:(apply elem_of_seq;
                apply lookup_lt_Some in Hx; lia))) as [-> | Hxy].
    + apply deep_equal_refl.
    + rewrite Forall_lookup in IH. eapply IH; [done | | done].
      by eapply aligned_Seq.
  - destruct newObj as [| | | | ys | ys]; try discriminate.
    rewrite generateJSONPatch_Map. intros Hnil.
    pose proof (flat_map_nil_inv _ _ Hnil) as Hall. clear Hnil.
    apply deep_equal_Map_intro. intros key Hkey.
    specialize (Hall key (Set_from_complete _ _ _ Hkey ltac:(by intros ?%elem_of_nil))).
    simpl in Hall.
    destruct (assoc key ys) as [y |] eqn:Hy; [| discriminate].
    destruct (assoc key fields) as [x |] eqn:Hx; [| discriminate].
    exists x, y. split; [done |]. split; [done |].
    apply assoc_Some_elem in Hx.
    destruct (changed_nothing x y _ Hall) as [-> | Hxy].
    + apply deep_equal_refl.
    + rewrite Forall_forall in IH. eapply (IH _ Hx); [| done].
      by eapply aligned_Map.
Qed.

(** X13: an empty patch means equal documents.  For two plain documents
    (no property named like one inherited from [Object.prototype], every
    number a whole number of at most 2^53 in absolute value) that are
    aligned, the function emits no operation if and only if the two are
    deep-equal: a difference between them always shows in the patch. *)
Theorem empty_patch_means_equal (oldObj newObj : Value) (path : string) :
  plain_document oldObj = true -> plain_document newObj = true ->
  aligned oldObj newObj = true ->
  generateJSONPatch oldObj newObj path = [] <-> deep_equal oldObj newObj = true.
Proof.
  intros _ _ Hal. split.
  - by apply generateJSONPatch_nil_inv.
  - apply generateJSONPatch_deep_equal.
Qed.

Lemma empty_patch_means_equal_witness :
  deep_equal (Map [("a", Num 1); ("b", Seq [Str "s"])])
             (Map [("b", Seq [Str "s"]); ("a", Num 1)]) = true.
Proof.
  apply (empty_patch_means_equal _ _ "/x"); reflexivity.
Defined.

End DiffMore.

(* ===================================================================== *)
(** * The sync client: what the handlers send *)
(* ===================================================================== *)

Module SyncMore.
Import Json Diff Shape Env Sync Arrays App JsonFacts DiffFacts DiffMore.

(** ** Cleaned documents *)

(** Two values that are arrays or objects: the changed case is the
    recursive call, which gives nothing when they are the same. *)
Lemma changed_objects (x y : Value) (q : string) :
  is_object x = true -> is_object y = true ->
  (if negb (Value_eqb x y) then
     if is_object x && is_object y then generateJSONPatch x y q
     else [Replace q y]
   else []) = generateJSONPatch x y q.
Proof.
  intros -> ->. destruct (Value_eqb x y) eqn:E; simpl; [| done].
  apply Value_eqb_eq in E as ->. by rewrite generateJSONPatch_same.
Qed.

Lemma cleanConfig_diff (a b : BridgesConfig) :
  generateJSONPatch (cleanConfig a) (cleanConfig b) ""
  = generateJSONPatch (Seq (cleanBridge <$> bridges a))
                      (Seq (cleanBridge <$> bridges b)) "/bridges".
Proof.
  unfold cleanConfig.
  etrans; [apply (generateJSONPatch_one_field [] [] "bridges"), NoDup_singleton |].
  by apply changed_objects.
Qed.

Lemma aligned_Seq_intro (xs ys : list Value) :
  (forall x y, x ∈ xs -> y ∈ ys -> aligned x y = true) ->
  aligned (Seq xs) (Seq ys) = true.
Proof.
  simpl. revert ys. induction xs as [| x xs IH]; intros [| y ys] H; try done.
  rewrite (H x y) by left. simpl. apply IH.
  intros x' y' Hx Hy. apply H; by right.
Qed.

(** An object whose values are primitives is aligned with any object. *)
Lemma aligned_flat (xs ys : list (string * Value)) :
  Forall (fun kv => is_object kv.2 = false) xs -> aligned (Map xs) (Map ys) = true.
Proof.
  simpl. induction 1 as [| [k x] l Hx _ IH]; [done |].
  rewrite IH, andb_true_r. destruct (assoc k ys) as [y |]; [| done].
  simpl in Hx. by destruct x.
Qed.

Lemma aligned_network (n1 n2 : Network) :
  aligned
    (Map ([("instance_name", Str (instance_name n1));
           ("protocol", Str (Protocol_string (protocol n1)));
           ("encryption", Str (Encryption_string (encryption n1)));
           ("transport", Str (Transport_string (transport n1)))]
          ++ address_field n1))
    (Map ([("instance_name", Str (instance_name n2));
           ("protocol", Str (Protocol_string (protocol n2)));
           ("encryption", Str (Encryption_string (encryption n2)));
           ("transport", Str (Transport_string (transport n2)))]
          ++ address_field n2))
  = true.
Proof.
  unfold address_field.
  destruct (protocol n1);
    [destruct (net_in n1) | destruct (net_in6 n1) | destruct (net_l2 n1)
    | destruct (net_rc n1) | destruct (net_un n1)];
    (destruct (protocol n2);
     [destruct (net_in n2) | destruct (net_in6 n2) | destruct (net_l2 n2)
     | destruct (net_rc n2) | destruct (net_un n2)]);
    reflexivity.
Qed.

Lemma aligned_broker_fields (N1 N2 M1 M2 T1 T2 : Value)
  (d1 d2 : option bool) (s1 s2 p1 p2 : option string) :
  aligned N1 N2 = true -> aligned M1 M2 = true -> aligned T1 T2 = true ->
  aligned
    (Map ([("network", N1); ("mqtt", M1); ("topics", T1)]
          ++ when_some "disabled" Bool d1 ++ when_some "session_store" Str s1
          ++ when_some "prefix" Str p1))
    (Map ([("network", N2); ("mqtt", M2); ("topics", T2)]
          ++ when_some "disabled" Bool d2 ++ when_some "session_store" Str s2
          ++ when_some "prefix" Str p2))
  = true.
Proof.
  intros HN HM HT.
  destruct d1, d2, s1, s2, p1, p2; cbn -[aligned];
    cbn [aligned assoc String.eqb Ascii.eqb Bool.eqb]; by rewrite HN, HM, HT.
Qed.

Lemma aligned_cleanBroker (b1 b2 : Broker) :
  aligned (cleanBroker b1) (cleanBroker b2) = true.
Proof.
  unfold cleanBroker. apply aligned_broker_fields.
  - apply aligned_network.
  - destruct (mqtt b1), (mqtt b2); reflexivity.
  - apply aligned_Seq_intro.
    intros x y (t1 & -> & _)%list_elem_of_fmap (t2 & -> & _)%list_elem_of_fmap.
    reflexivity.
Qed.

Lemma aligned_cleanBridge (b1 b2 : Bridge) :
  aligned (cleanBridge b1) (cleanBridge b2) = true.
Proof.
  unfold cleanBridge.
  assert (HB : aligned (Seq (cleanBroker <$> brokers b1))
                       (Seq (cleanBroker <$> brokers b2)) = true).
  { apply aligned_Seq_intro.
    intros x y (x' & -> & _)%list_elem_of_fmap (y' & -> & _)%list_elem_of_fmap.
    apply aligned_cleanBroker. }
  revert HB.
  generalize (Seq (cleanBroker <$> brokers b1)), (Seq (cleanBroker <$> brokers b2)).
  intros B1 B2 HB.
  destruct (truthy_bool (bridge_disabled b1)), (truthy_bool (bridge_disabled b2)),
    (truthy_string (bridge_prefix b1)), (truthy_string (bridge_prefix b2));
    cbn -[aligned]; cbn [aligned assoc String.eqb Ascii.eqb Bool.eqb];
    by rewrite HB.
Qed.

Lemma aligned_cleanConfig (a b : BridgesConfig) :
  aligned (cleanConfig a) (cleanConfig b) = true.
Proof.
  unfold cleanConfig.
  assert (HB : aligned (Seq (cleanBridge <$> bridges a))
                       (Seq (cleanBridge <$> bridges b)) = true).
  { apply aligned_Seq_intro.
    intros x y (x' & -> & _)%list_elem_of_fmap (y' & -> & _)%list_elem_of_fmap.
    apply aligned_cleanBridge. }
  revert HB.
  generalize (Seq (cleanBridge <$> bridges a)), (Seq (cleanBridge <$> bridges b)).
  intros B1 B2 HB. cbn [aligned assoc String.eqb Ascii.eqb Bool.eqb].
  by rewrite HB.
Qed.

(** ** When a request is sent *)

(** X14: a save is skipped exactly when there is nothing to save.  A call
    of [sendPatchToServer] issues no request if and only if there is no
    reference document yet, or the cleaned document it is called with is
    deep-equal to the cleaned reference: no difference between the two
    is dropped silently. *)
Theorem request_skipped_iff_equal (newConfig : BridgesConfig) (st : State) :
  sendPatchToServer_begin newConfig st = None
  <-> match lastSavedConfigRef st with
      | None => True
      | Some saved => deep_equal (cleanConfig saved) (cleanConfig newConfig) = true
      end.
Proof.
  unfold sendPatchToServer_begin.
  destruct (lastSavedConfigRef st) as [saved |]; [| done].
  cbv zeta. split.
  - intros H. apply (generateJSONPatch_nil_inv _ _ ""); [apply aligned_cleanConfig |].
    by destruct (generateJSONPatch (cleanConfig saved) (cleanConfig newConfig) "").
  - intros H. by rewrite generateJSONPatch_deep_equal.
Qed.

Lemma request_skipped_iff_equal_witness :
  sendPatchToServer_begin
    {| bridges := [{| bridge_disabled := Some false; name := "b1";
                      bridge_prefix := Some ""; brokers := [] |}] |}
    (set_lastSavedConfigRef
       {| bridges := [{| bridge_disabled := None; name := "b1";
                         bridge_prefix := None; brokers := [] |}] |}
       initial)
  = None.
Proof.
  apply (proj2 (request_skipped_iff_equal
                  {| bridges := [{| bridge_disabled := Some false; name := "b1";
                                    bridge_prefix := Some ""; brokers := [] |}] |}
                  (set_lastSavedConfigRef
                     {| bridges := [{| bridge_disabled := None; name := "b1";
                                       bridge_prefix := None; brokers := [] |}] |}
                     initial))).
  reflexivity.
Defined.

(** X15: a document that was saved is not sent again.  When the response
    to the save of a document arrives and is a success, and the document
    on screen is still that one, the next save sends nothing and changes
    nothing. *)
Theorem saved_document_is_not_sent_again (sys : System) (k : nat) (req : Request)
  (c : BridgesConfig) (r : Response) :
  inflight sys !! k = Some (req, AwaitSave c) ->
  latestConfigRef (app sys) = c ->
  succeeded r = true ->
  let sys' := step sys (Settle k r) in
  lastSavedConfigRef (app sys') = Some c
  /\ handleSaveToServer sys' = sys'.
Proof.
  intros Hk Hc Hr. cbv zeta. unfold handleSaveToServer.
  cbn [step]. rewrite Hk. cbn [app resume].
  destruct r as [m | ok txt body]; [discriminate |].
  simpl in Hr. subst ok. cbn [sendPatchToServer_resume negb].
  split; [done |].
  cbn [set_lastSavedConfigRef latestConfigRef]. rewrite Hc.
  unfold sendPatchToServer_begin. cbn [lastSavedConfigRef set_lastSavedConfigRef].
  unfold deep_clone. cbv zeta. by rewrite generateJSONPatch_same.
Qed.

Lemma saved_document_is_not_sent_again_witness :
  let loaded := step (step boot Mount)
                  (Settle 0 (HttpResponse true "OK" (BodyConfig {| bridges := [] |}))) in
  let sys' := step (addBridge loaded) (Settle 0 (HttpResponse true "OK" BodyInvalid)) in
  lastSavedConfigRef (app sys') = Some {| bridges := [defaultBridge] |}
  /\ handleSaveToServer sys' = sys'.
Proof.
  cbv zeta.
  eapply (saved_document_is_not_sent_again
            (addBridge (step (step boot Mount)
                          (Settle 0 (HttpResponse true "OK"
                                       (BodyConfig {| bridges := [] |})))))
            0 _ {| bridges := [defaultBridge] |} (HttpResponse true "OK" BodyInvalid));
    reflexivity.
Defined.

(** ** Bridges added, duplicated and removed *)

(** The request of a save of a document with one more bridge than the
    saved one, when the reference document cleans to the same document
    as the one on screen. *)
Lemma growth_request (st : State) (saved : BridgesConfig) (bs : list Bridge)
  (b : Bridge) :
  lastSavedConfigRef st = Some saved ->
  cleanConfig saved = cleanConfig {| bridges := bs |} ->
  sendPatchToServer_begin {| bridges := bs ++ [b] |} st
  = Some (PATCH "/api/bridge/config" "application/json-patch+json"
            [Add ("/bridges/" +:+ index_key (length bs)) (cleanBridge b)]).
Proof.
  intros Hsaved Hclean. unfold sendPatchToServer_begin. rewrite Hsaved. cbv zeta.
  rewrite Hclean, cleanConfig_diff. cbn [bridges].
  rewrite fmap_app, generateJSONPatch_growth_at. cbn [fmap list_fmap imap].
  by rewrite length_fmap, Nat.add_0_r.
Qed.

(** X17: adding a bridge sends one [add].  When the document on screen is
    the saved one, [addBridge] shows the document with a default bridge
    at the end and sends exactly one request, whose patch is the one
    operation that adds the cleaned default bridge at the index past the
    last bridge; the reference document stays as it is until the
    response arrives. *)
Theorem addBridge_sends_one_add (sys : System) (saved : BridgesConfig) :
  lastSavedConfigRef (app sys) = Some saved ->
  cleanConfig saved = cleanConfig (config (app sys)) ->
  let sys' := addBridge sys in
  config (app sys') = {| bridges := bridges (config (app sys)) ++ [defaultBridge] |}
  /\ latestConfigRef (app sys') = config (app sys')
  /\ lastSavedConfigRef (app sys') = Some saved
  /\ sent sys'
     = sent sys
       ++ [PATCH "/api/bridge/config" "application/json-patch+json"
             [Add ("/bridges/" +:+ index_key (length (bridges (config (app sys)))))
                  (cleanBridge defaultBridge)]].
Proof.
  intros Hsaved Hclean. cbv zeta. unfold addBridge. cbn [step].
  rewrite (growth_request _ saved (bridges (config (app sys)))); [done | done |].
  by destruct (config (app sys)).
Qed.

Lemma addBridge_sends_one_add_witness :
  let loaded := step (step boot Mount)
                  (Settle 0 (HttpResponse true "OK" (BodyConfig {| bridges := [] |}))) in
  sent (addBridge loaded)
  = sent loaded
    ++ [PATCH "/api/bridge/config" "application/json-patch+json"
          [Add "/bridges/0" (cleanBridge defaultBridge)]].
Proof.
  cbv zeta.
  pose proof (addBridge_sends_one_add
                (step (step boot Mount)
                   (Settle 0 (HttpResponse true "OK" (BodyConfig {| bridges := [] |}))))
                {| bridges := [] |} eq_refl eq_refl) as H.
  cbv zeta in H. destruct H as (_ & _ & _ & H). exact H.
Defined.

(** X18: duplicating a bridge sends one [add].  When the document on screen
    is the saved one, [duplicateBridge] of a bridge of the document shows
    the document with a copy of that bridge at the end, named after the
    original with [-copy] appended, or [copy] when the original has no
    name, and sends exactly one request, whose patch is the one
    operation that adds the cleaned copy past the last bridge.  For an
    index that is no bridge of the document the handler throws. *)
Theorem duplicateBridge_sends_one_add (sys : System) (saved : BridgesConfig)
  (index : nat) :
  lastSavedConfigRef (app sys) = Some saved ->
  cleanConfig saved = cleanConfig (config (app sys)) ->
  match bridges (config (app sys)) !! index with
  | None => duplicateBridge index sys = None
  | Some bridge =>
      let copy :=
        {| bridge_disabled := bridge_disabled bridge;
           name := if String.eqb (name bridge) "" then "copy"
                   else name bridge +:+ "-copy";
           bridge_prefix := bridge_prefix bridge;
           brokers := brokers bridge |} in
      exists sys',
        duplicateBridge index sys = Some sys'
        /\ config (app sys')
           = {| bridges := bridges (config (app sys)) ++ [copy] |}
        /\ latestConfigRef (app sys') = config (app sys')
        /\ sent sys'
           = sent sys
             ++ [PATCH "/api/bridge/config" "application/json-patch+json"
                   [Add ("/bridges/"
                         +:+ index_key (length (bridges (config (app sys)))))
                        (cleanBridge copy)]]
  end.
Proof.
  intros Hsaved Hclean. unfold duplicateBridge.
  destruct (bridges (config (app sys)) !! index) as [bridge |]; [| done].
  cbv zeta. cbn [mbind option_bind]. eexists. split; [reflexivity |].
  cbn [step].
  rewrite (growth_request _ saved (bridges (config (app sys)))); [| done |].
  - by destruct (String.eqb (name bridge) "").
  - by destruct (config (app sys)).
Qed.

Lemma duplicateBridge_sends_one_add_witness :
  let loaded := step (step boot Mount)
                  (Settle 0 (HttpResponse true "OK"
                               (BodyConfig {| bridges := [defaultBridge] |}))) in
  exists sys',
    duplicateBridge 0 loaded = Some sys'
    /\ name <$> bridges (config (app sys')) = [""; "copy"].
Proof.
  cbv zeta.
  pose proof (duplicateBridge_sends_one_add
                (step (step boot Mount)
                   (Settle 0 (HttpResponse true "OK"
                                (BodyConfig {| bridges := [defaultBridge] |}))))
                {| bridges := [defaultBridge] |} 0 eq_refl eq_refl) as H.
  cbv zeta in H. destruct H as (sys' & H1 & H2 & _).
  exists sys'. split; [exact H1 |]. rewrite H2. reflexivity.
Defined.

Lemma imap_all_pass {A} (m k : nat) (l : list A) :
  m < k ->
  filter (fun p => p.1 <> m) (imap (fun j x => (k + j, x)) l)
  = imap (fun j x => (k + j, x)) l.
Proof.
  revert k. induction l as [| x l IH]; intros k Hm; [done |].
  rewrite imap_cons. rewrite filter_cons_True by (simpl; lia). f_equal.
  rewrite (imap_ext _ (fun j y => (S k + j, y))) by (intros; simpl; f_equal; lia).
  apply IH. lia.
Qed.

Lemma imap_pair_snd {A} (k : nat) (l : list A) :
  (imap (fun j x => (k + j, x)) l).*2 = l.
Proof.
  revert k. induction l as [| x l IH]; intros k; [done |].
  rewrite imap_cons. cbn [fmap list_fmap snd]. f_equal.
  rewrite (imap_ext _ (fun j y => (S k + j, y))) by (intros; simpl; f_equal; lia).
  apply IH.
Qed.

Lemma filter_index_shift {A} (k i : nat) (l : list A) :
  (filter (fun p => p.1 <> k + i) (imap (fun j x => (k + j, x)) l)).*2 = delete i l.
Proof.
  revert k i. induction l as [| x l IH]; intros k i; [done |].
  rewrite imap_cons.
  rewrite (imap_ext _ (fun j y => (S k + j, y))) by (intros; simpl; f_equal; lia).
  destruct i as [| i].
  - rewrite filter_cons_False by (simpl; lia).
    rewrite imap_all_pass by lia. apply imap_pair_snd.
  - rewrite filter_cons_True by (simpl; lia). cbn [fmap list_fmap snd delete list_delete].
    f_equal. replace (k + S i) with (S k + i) by lia. apply IH.
Qed.

(** [filter((_, i) => i !== index)] deletes the element at the index, and
    nothing when there is none. *)
Lemma filter_index_delete {A} (i : nat) (l : list A) : filter_index i l = delete i l.
Proof. apply (filter_index_shift 0 i l). Qed.

Lemma delete_out_of_range {A} (i : nat) (l : list A) :
  length l <= i -> delete i l = l.
Proof.
  revert i. induction l as [| x l IH]; intros [| i] Hi; simpl in *; try done; [lia |].
  f_equal. apply IH. lia.
Qed.

(** The patch of an array of arrays or objects against itself with one
    element deleted: from that index on each element is compared with
    its successor, and the last index is removed. *)
Lemma generateJSONPatch_delete (xs : list Value) (i : nat) (p : string) :
  i < length xs -> Forall (fun x => is_object x = true) xs ->
  generateJSONPatch (Seq xs) (Seq (delete i xs)) p
  = flat_map
      (fun j =>
         match xs !! j, xs !! S j with
         | Some x, Some y => generateJSONPatch x y (p +:+ "/" +:+ index_key j)
         | _, _ => []
         end)
      (seq i (length xs - 1 - i))
    ++ [Remove (p +:+ "/" +:+ index_key (length xs - 1))].
Proof.
  intros Hi Hobj. rewrite generateJSONPatch_Seq.
  rewrite length_delete by (by apply lookup_lt_is_Some_2).
  replace (Nat.max (length xs) (length xs - 1)) with (length xs) by lia.
  assert (Hseq : seq 0 (length xs)
                 = seq 0 i ++ seq i (length xs - 1 - i) ++ [length xs - 1]).
  { replace (length xs) with (i + ((length xs - 1 - i) + 1)) at 1 by lia.
    rewrite seq_app, seq_app. cbn [Nat.add seq]. do 3 f_equal. lia. }
  rewrite Hseq, !flat_map_app. cbn [flat_map].
  rewrite flat_map_nil.
  2:{ intros j Hj%elem_of_seq.
      rewrite list_lookup_delete_lt by lia.
      destruct (lookup_lt_is_Some_2 xs j) as [x ->]; [lia |].
      by rewrite Value_eqb_refl. }
  rewrite (lookup_ge_None_2 (delete i xs))
    by (rewrite length_delete by (by apply lookup_lt_is_Some_2); lia).
  rewrite app_nil_r. cbn [List.app]. f_equal.
  apply flat_map_ext_elem. intros j Hj%elem_of_seq.
  rewrite list_lookup_delete_ge by lia.
  destruct (lookup_lt_is_Some_2 xs j) as [x Hx]; [lia |].
  destruct (lookup_lt_is_Some_2 xs (S j)) as [y Hy]; [lia |].
  rewrite Hx, Hy. rewrite Forall_lookup in Hobj.
  apply changed_objects; by eapply Hobj.
Qed.

(** X19: what removing a bridge sends.  When the document on screen is the
    saved one, [removeBridge] shows the document without the bridge at
    the index.  For an index that is no bridge of the document nothing
    changes and nothing is sent.  Otherwise one request is sent.  Its
    patch is, for each position from the index to the last but one, in
    order, the patch that turns the cleaned bridge at that position into
    the cleaned bridge that followed it, made at the path of that
    position, so that each of its operations is addressed at that
    position or below it; and then the removal of the last position,
    whichever bridge was removed.  For the last bridge the removal is the
    whole patch. *)
Theorem removeBridge_removes_last_position (sys : System) (saved : BridgesConfig)
  (index : nat) :
  lastSavedConfigRef (app sys) = Some saved ->
  cleanConfig saved = cleanConfig (config (app sys)) ->
  let bs := bridges (config (app sys)) in
  let n := length bs in
  let sys' := removeBridge index sys in
  let rewrites :=
    flat_map
      (fun j =>
         match bs !! j, bs !! S j with
         | Some b, Some b' =>
             generateJSONPatch (cleanBridge b) (cleanBridge b')
               ("/bridges/" +:+ index_key j)
         | _, _ => []
         end)
      (seq index (n - 1 - index)) in
  config (app sys') = {| bridges := delete index bs |}
  /\ latestConfigRef (app sys') = config (app sys')
  /\ (n <= index -> config (app sys') = config (app sys) /\ sent sys' = sent sys)
  /\ (index < n ->
      sent sys'
      = sent sys
        ++ [PATCH "/api/bridge/config" "application/json-patch+json"
              (rewrites ++ [Remove ("/bridges/" +:+ index_key (n - 1))])]
      /\ (forall o, o ∈ rewrites ->
          exists j suffix,
            index <= j < n - 1
            /\ op_path o = "/bridges/" +:+ index_key j +:+ suffix
            /\ (suffix = "" \/ exists rest, suffix = "/" +:+ rest))
      /\ (S index = n -> rewrites = [])).
Proof.
  intros Hsaved Hclean. cbv zeta. unfold removeBridge.
  rewrite filter_index_delete. cbn [step].
  unfold sendPatchToServer_begin. cbn [show on_app app lastSavedConfigRef
    set_latestConfigRef setConfig]. rewrite Hsaved. cbv zeta.
  rewrite Hclean, cleanConfig_diff. cbn [bridges]. rewrite list_fmap_delete.
  set (bs := bridges (config (app sys))).
  set (xs := cleanBridge <$> bs).
  assert (Hlen : length xs = length bs) by (subst xs; apply length_fmap).
  destruct (decide (index < length bs)) as [Hlt | Hge].
  - assert (Hobj : Forall (fun x => is_object x = true) xs).
    { subst xs. apply Forall_fmap, Forall_forall. by intros b _. }
    rewrite (generateJSONPatch_delete xs index "/bridges") by (done || lia).
    rewrite Hlen.
    assert (Hsame :
      flat_map
        (fun j =>
           match xs !! j, xs !! S j with
           | Some x, Some y =>
               generateJSONPatch x y ("/bridges" +:+ "/" +:+ index_key j)
           | _, _ => []
           end) (seq index (length bs - 1 - index))
      = flat_map
          (fun j =>
             match bs !! j, bs !! S j with
             | Some b, Some b' =>
                 generateJSONPatch (cleanBridge b) (cleanBridge b')
                   ("/bridges/" +:+ index_key j)
             | _, _ => []
             end) (seq index (length bs - 1 - index))).
    { apply flat_map_ext_elem. intros j _. subst xs.
      rewrite !list_lookup_fmap.
      by destruct (bs !! j), (bs !! S j). }
    rewrite Hsame.
    set (rewrites := flat_map _ (seq index (length bs - 1 - index))).
    destruct (rewrites ++ [Remove ("/bridges" +:+ "/" +:+ index_key (length bs - 1))])
      as [| o l] eqn:E; [by destruct rewrites |].
    rewrite <- E. clear E o l.
    split; [done |]. split; [done |]. split; [lia |].
    intros _. split; [done |]. split.
    + subst rewrites.
      intros o (j & Hj%list_elem_of_In%elem_of_seq & Ho%list_elem_of_In)%list_elem_of_In%in_flat_map.
      exists j.
      destruct (bs !! j) as [b |]; [| by apply elem_of_nil in Ho].
      destruct (bs !! S j) as [b' |]; [| by apply elem_of_nil in Ho].
      apply generateJSONPatch_paths in Ho as (suffix & Hpath & Hsuffix).
      exists suffix. split; [lia |]. split; [| done].
      by rewrite Hpath, append_assoc.
    + intros Hlast. subst rewrites.
      by replace (length bs - 1 - index) with 0 by lia.
  - rewrite delete_out_of_range by lia. rewrite generateJSONPatch_same.
    split; [done |]. split; [done |]. split; [| lia].
    intros _. split; [| done].
    subst xs bs. rewrite delete_out_of_range by lia.
    by destruct (config (app sys)).
Qed.

Lemma removeBridge_removes_last_position_witness :
  let loaded := step (step boot Mount)
                  (Settle 0 (HttpResponse true "OK"
                               (BodyConfig {| bridges := [defaultBridge; defaultBridge] |}))) in
  sent (removeBridge 1 loaded)
  = sent loaded
    ++ [PATCH "/api/bridge/config" "application/json-patch+json"
          [Remove "/bridges/1"]].
Proof.
  cbv zeta.
  pose proof (removeBridge_removes_last_position
                (step (step boot Mount)
                   (Settle 0 (HttpResponse true "OK"
                                (BodyConfig {| bridges := [defaultBridge; defaultBridge] |}))))
                {| bridges := [defaultBridge; defaultBridge] |} 1 eq_refl eq_refl) as H.
  cbv zeta in H. destruct H as (_ & _ & _ & H).
  destruct (H ltac:(simpl; lia)) as (Hsent & _ & _). exact Hsent.
Defined.

(** ** Edits in a form, and the save that follows *)

Lemma property_path_below (q key : string) :
  q <> "" -> property_path q key = q +:+ "/" +:+ key.
Proof. intros Hq. unfold property_path. by destruct (String.eqb_spec q ""). Qed.

(** Evaluating the patch of two objects whose names are known. *)
Ltac diff_fields :=
  rewrite generateJSONPatch_Map;
  cbn [fmap list_fmap fst List.app when_some];
  match goal with
  | |- context [Set_from [] ?l] =>
      let r := eval vm_compute in (Set_from [] l) in
      change (Set_from [] l) with r
  end;
  cbn [flat_map assoc String.eqb Ascii.eqb Bool.eqb List.app];
  rewrite ?Value_eqb_refl;
  cbn [negb List.app].

Lemma disabled_diff (N B : Value) (d d' : option bool) (s : option string)
  (q : string) :
  q <> "" ->
  generateJSONPatch
    (Map ([("name", N); ("brokers", B)]
          ++ when_some "disabled" Bool d ++ when_some "prefix" Str s))
    (Map ([("name", N); ("brokers", B)]
          ++ when_some "disabled" Bool d' ++ when_some "prefix" Str s)) q
  = match d, d' with
    | None, None => []
    | None, Some v' => [Add (q +:+ "/disabled") (Bool v')]
    | Some _, None => [Remove (q +:+ "/disabled")]
    | Some v, Some v' =>
        if Bool.eqb v v' then [] else [Replace (q +:+ "/disabled") (Bool v')]
    end.
Proof.
  intros Hq.
  destruct d as [v |], d' as [v' |], s as [s |]; diff_fields.
  all: rewrite ?property_path_below by done; try reflexivity.
  all: by destruct v, v'.
Qed.

Lemma name_diff (N N' B : Value) (d : option bool) (s : option string) (q : string) :
  q <> "" ->
  generateJSONPatch
    (Map ([("name", N); ("brokers", B)]
          ++ when_some "disabled" Bool d ++ when_some "prefix" Str s))
    (Map ([("name", N'); ("brokers", B)]
          ++ when_some "disabled" Bool d ++ when_some "prefix" Str s)) q
  = if negb (Value_eqb N N') then
      if is_object N && is_object N' then generateJSONPatch N N' (q +:+ "/name")
      else [Replace (q +:+ "/name") N']
    else [].
Proof.
  intros Hq.
  destruct d as [v |], s as [s |]; diff_fields.
  all: rewrite ?property_path_below by done; by rewrite app_nil_r.
Qed.

Lemma brokers_diff (N B B' : Value) (d : option bool) (s : option string)
  (q : string) :
  q <> "" -> is_object B = true -> is_object B' = true ->
  generateJSONPatch
    (Map ([("name", N); ("brokers", B)]
          ++ when_some "disabled" Bool d ++ when_some "prefix" Str s))
    (Map ([("name", N); ("brokers", B')]
          ++ when_some "disabled" Bool d ++ when_some "prefix" Str s)) q
  = generateJSONPatch B B' (q +:+ "/brokers").
Proof.
  intros Hq HB HB'. rewrite <- (changed_objects B B') by done.
  destruct d as [v |], s as [s |]; diff_fields.
  all: rewrite ?property_path_below by done; by rewrite app_nil_r.
Qed.

Lemma network_diff (N N' M T : Value) (d : option bool) (s p : option string)
  (q : string) :
  q <> "" -> is_object N = true -> is_object N' = true ->
  generateJSONPatch
    (Map ([("network", N); ("mqtt", M); ("topics", T)]
          ++ when_some "disabled" Bool d ++ when_some "session_store" Str s
          ++ when_some "prefix" Str p))
    (Map ([("network", N'); ("mqtt", M); ("topics", T)]
          ++ when_some "disabled" Bool d ++ when_some "session_store" Str s
          ++ when_some "prefix" Str p)) q
  = generateJSONPatch N N' (q +:+ "/network").
Proof.
  intros Hq HN HN'. rewrite <- (changed_objects N N') by done.
  destruct d as [v |], s as [s |], p as [p |]; diff_fields.
  all: rewrite ?property_path_below by done; by rewrite app_nil_r.
Qed.

Lemma set_index_in_range {A} (i : nat) (x y : A) (l : list A) :
  l !! i = Some y -> set_index i x l = Some (<[i := x]> l).
Proof.
  intros H%lookup_lt_Some. unfold set_index. by rewrite decide_True.
Qed.

Lemma path_not_empty (a b : string) : "/" +:+ a +:+ b <> "".
Proof. discriminate. Qed.

(** The request of a save, when the document on screen is the saved one
    but for the bridge at one index. *)
Lemma bridge_edit_request (st : State) (saved : BridgesConfig) (bs : list Bridge)
  (i : nat) (b b' : Bridge) :
  lastSavedConfigRef st = Some saved ->
  cleanConfig saved = cleanConfig {| bridges := bs |} ->
  bs !! i = Some b ->
  sendPatchToServer_begin {| bridges := <[i := b']> bs |} st
  = match generateJSONPatch (cleanBridge b) (cleanBridge b')
            ("/bridges/" +:+ index_key i) with
    | [] => None
    | patch => Some (PATCH "/api/bridge/config" "application/json-patch+json" patch)
    end.
Proof.
  intros Hsaved Hclean Hb. unfold sendPatchToServer_begin. rewrite Hsaved. cbv zeta.
  rewrite Hclean, cleanConfig_diff. cbn [bridges].
  rewrite list_fmap_insert.
  rewrite (generateJSONPatch_one_element _ i (cleanBridge b))
    by (by rewrite list_lookup_fmap, Hb).
  rewrite changed_objects by done.
  change ("/bridges" +:+ "/" +:+ index_key i) with ("/bridges/" +:+ index_key i).
  by destruct (generateJSONPatch _ _ _).
Qed.

Lemma bridge_changed_saved (sys : System) (saved : BridgesConfig) (index : nat)
  (bridge updatedBridge : Bridge) (change : Bridge -> option Bridge) :
  lastSavedConfigRef (app sys) = Some saved ->
  cleanConfig saved = cleanConfig (config (app sys)) ->
  bridges (config (app sys)) !! index = Some bridge ->
  change bridge = Some updatedBridge ->
  exists sys',
    bridge_changed index change sys = Some sys'
    /\ config (app sys')
       = {| bridges := <[index := updatedBridge]> (bridges (config (app sys))) |}
    /\ latestConfigRef (app sys') = config (app sys')
    /\ sent sys' = sent sys
    /\ sent (handleSaveToServer sys')
       = sent sys
         ++ match generateJSONPatch (cleanBridge bridge) (cleanBridge updatedBridge)
                  ("/bridges/" +:+ index_key index) with
            | [] => []
            | patch =>
                [PATCH "/api/bridge/config" "application/json-patch+json" patch]
            end.
Proof.
  intros Hsaved Hclean Hbridge Hchange.
  unfold bridge_changed, updateBridge. rewrite Hbridge. cbn [mbind option_bind].
  rewrite Hchange. cbn [mbind option_bind].
  rewrite (set_index_in_range _ _ bridge) by done. cbn [mbind option_bind].
  eexists. split; [reflexivity |].
  split; [done |]. split; [done |]. split; [done |].
  unfold handleSaveToServer. cbn [step show on_app app latestConfigRef
    set_latestConfigRef].
  rewrite (bridge_edit_request _ saved _ _ bridge); [| done | | done].
  - destruct (generateJSONPatch _ _ _); [by rewrite app_nil_r | done].
  - by destruct (config (app sys)).
Qed.

(** X20: an edit is sent when it is saved, and as the patch of the bridge
    alone.  When the document on screen is the saved one, a change that
    the form of a bridge hands to [updateBridge] shows the document with
    that bridge replaced and sends nothing; the save that follows sends
    one request, whose patch is the patch of the cleaned bridge against
    the cleaned changed bridge at the path of the bridge, or no request
    when that patch is empty. *)
Theorem edit_is_sent_on_save (sys : System) (saved : BridgesConfig) (index : nat)
  (bridge updatedBridge : Bridge) (change : Bridge -> option Bridge) :
  lastSavedConfigRef (app sys) = Some saved ->
  cleanConfig saved = cleanConfig (config (app sys)) ->
  bridges (config (app sys)) !! index = Some bridge ->
  change bridge = Some updatedBridge ->
  exists sys',
    bridge_changed index change sys = Some sys'
    /\ config (app sys')
       = {| bridges := <[index := updatedBridge]> (bridges (config (app sys))) |}
    /\ latestConfigRef (app sys') = config (app sys')
    /\ sent sys' = sent sys
    /\ sent (handleSaveToServer sys')
       = sent sys
         ++ match generateJSONPatch (cleanBridge bridge) (cleanBridge updatedBridge)
                  ("/bridges/" +:+ index_key index) with
            | [] => []
            | patch =>
                [PATCH "/api/bridge/config" "application/json-patch+json" patch]
            end.
Proof. apply bridge_changed_saved. Qed.

Lemma edit_is_sent_on_save_witness :
  let loaded := step (step boot Mount)
                  (Settle 0 (HttpResponse true "OK"
                               (BodyConfig {| bridges := [defaultBridge] |}))) in
  exists sys',
    bridge_changed 0 (fun b => Some (BridgeForm.addBroker b)) loaded = Some sys'
    /\ sent sys' = sent loaded.
Proof.
  cbv zeta.
  destruct (edit_is_sent_on_save
              (step (step boot Mount)
                 (Settle 0 (HttpResponse true "OK"
                              (BodyConfig {| bridges := [defaultBridge] |}))))
              {| bridges := [defaultBridge] |} 0 defaultBridge
              (BridgeForm.addBroker defaultBridge)
              (fun b => Some (BridgeForm.addBroker b))
              eq_refl eq_refl eq_refl eq_refl) as (sys' & H1 & _ & _ & H4 & _).
  exists sys'. split; [exact H1 | exact H4].
Defined.

(** X21: renaming a bridge sends one [replace].  When the document on
    screen is the saved one, typing another name into the form of a
    bridge sends nothing, and the save that follows sends one request
    whose patch is the one operation that replaces the name of that
    bridge. *)
Theorem rename_sends_one_replace (sys : System) (saved : BridgesConfig)
  (index : nat) (bridge : Bridge) (new : string) :
  lastSavedConfigRef (app sys) = Some saved ->
  cleanConfig saved = cleanConfig (config (app sys)) ->
  bridges (config (app sys)) !! index = Some bridge ->
  new <> name bridge ->
  exists sys',
    bridge_changed index
      (fun b => Some (BridgeForm.updateField b (BridgeForm.field_name new))) sys
    = Some sys'
    /\ sent sys' = sent sys
    /\ sent (handleSaveToServer sys')
       = sent sys
         ++ [PATCH "/api/bridge/config" "application/json-patch+json"
               [Replace ("/bridges/" +:+ index_key index +:+ "/name") (Str new)]].
Proof.
  intros Hsaved Hclean Hbridge Hnew.
  destruct (bridge_changed_saved sys saved index bridge _
              (fun b => Some (BridgeForm.updateField b (BridgeForm.field_name new)))
              Hsaved Hclean Hbridge eq_refl)
    as (sys' & H1 & _ & _ & H4 & H5).
  exists sys'. split; [done |]. split; [done |]. rewrite H5. f_equal.
  unfold cleanBridge.
  cbn [BridgeForm.updateField name brokers bridge_disabled bridge_prefix].
  rewrite name_diff by discriminate. cbn [Value_eqb is_object andb].
  destruct (String.eqb_spec (name bridge) new) as [? | _]; [congruence |].
  cbn [negb]. by rewrite append_assoc.
Qed.

Lemma rename_sends_one_replace_witness :
  let loaded := step (step boot Mount)
                  (Settle 0 (HttpResponse true "OK"
                               (BodyConfig {| bridges := [defaultBridge] |}))) in
  exists sys',
    bridge_changed 0
      (fun b => Some (BridgeForm.updateField b (BridgeForm.field_name "attic"))) loaded
    = Some sys'
    /\ sent (handleSaveToServer sys')
       = sent loaded
         ++ [PATCH "/api/bridge/config" "application/json-patch+json"
               [Replace "/bridges/0/name" (Str "attic")]].
Proof.
  cbv zeta.
  destruct (rename_sends_one_replace
              (step (step boot Mount)
                 (Settle 0 (HttpResponse true "OK"
                              (BodyConfig {| bridges := [defaultBridge] |}))))
              {| bridges := [defaultBridge] |} 0 defaultBridge "attic"
              eq_refl eq_refl eq_refl ltac:(discriminate)) as (sys' & H1 & _ & H3).
  exists sys'. split; [exact H1 | exact H3].
Defined.

Lemma truthy_bool_cases (b : option bool) :
  truthy_bool b = None \/ truthy_bool b = Some true.
Proof. destruct b as [[] |]; auto. Qed.

(** X22: the switch of a bridge is sent as the presence of [disabled].
    When the document on screen is the saved one, unticking the box of
    an enabled bridge and saving sends the one operation that adds
    [disabled] with the value true; ticking the box of a disabled bridge
    and saving sends the one operation that removes [disabled]; the
    value false is never sent, and a box left as it was sends
    nothing. *)
Theorem switch_is_sent_as_presence (sys : System) (saved : BridgesConfig)
  (index : nat) (bridge : Bridge) (checked : bool) :
  lastSavedConfigRef (app sys) = Some saved ->
  cleanConfig saved = cleanConfig (config (app sys)) ->
  bridges (config (app sys)) !! index = Some bridge ->
  exists sys',
    bridge_changed index
      (fun b => Some (BridgeForm.updateField b
                        (BridgeForm.field_disabled (Some (negb checked))))) sys
    = Some sys'
    /\ sent sys' = sent sys
    /\ sent (handleSaveToServer sys')
       = sent sys
         ++ match truthy_bool (bridge_disabled bridge), checked with
            | None, false =>
                [PATCH "/api/bridge/config" "application/json-patch+json"
                   [Add ("/bridges/" +:+ index_key index +:+ "/disabled")
                        (Bool true)]]
            | Some _, true =>
                [PATCH "/api/bridge/config" "application/json-patch+json"
                   [Remove ("/bridges/" +:+ index_key index +:+ "/disabled")]]
            | _, _ => []
            end.
Proof.
  intros Hsaved Hclean Hbridge.
  destruct (bridge_changed_saved sys saved index bridge _
              (fun b => Some (BridgeForm.updateField b
                                (BridgeForm.field_disabled (Some (negb checked)))))
              Hsaved Hclean Hbridge eq_refl)
    as (sys' & H1 & _ & _ & H4 & H5).
  exists sys'. split; [done |]. split; [done |]. rewrite H5. f_equal.
  unfold cleanBridge.
  cbn [BridgeForm.updateField name brokers bridge_disabled bridge_prefix].
  rewrite disabled_diff by discriminate. rewrite append_assoc.
  destruct (truthy_bool_cases (bridge_disabled bridge)) as [-> | ->];
    by destruct checked.
Qed.

Lemma switch_is_sent_as_presence_witness :
  let loaded := step (step boot Mount)
                  (Settle 0 (HttpResponse true "OK"
                               (BodyConfig {| bridges := [defaultBridge] |}))) in
  exists sys',
    bridge_changed 0
      (fun b => Some (BridgeForm.updateField b
                        (BridgeForm.field_disabled (Some (negb false))))) loaded
    = Some sys'
    /\ sent (handleSaveToServer sys')
       = sent loaded
         ++ [PATCH "/api/bridge/config" "application/json-patch+json"
               [Add "/bridges/0/disabled" (Bool true)]].
Proof.
  cbv zeta.
  destruct (switch_is_sent_as_presence
              (step (step boot Mount)
                 (Settle 0 (HttpResponse true "OK"
                              (BodyConfig {| bridges := [defaultBridge] |}))))
              {| bridges := [defaultBridge] |} 0 defaultBridge false
              eq_refl eq_refl eq_refl) as (sys' & H1 & _ & H3).
  exists sys'. split; [exact H1 | exact H3].
Defined.

Lemma broker_changed_saved (sys : System) (saved : BridgesConfig)
  (index brokerIndex : nat) (bridge : Bridge) (broker : Broker)
  (change : Broker -> Broker) :
  lastSavedConfigRef (app sys) = Some saved ->
  cleanConfig saved = cleanConfig (config (app sys)) ->
  bridges (config (app sys)) !! index = Some bridge ->
  brokers bridge !! brokerIndex = Some broker ->
  exists sys',
    broker_changed index brokerIndex change sys = Some sys'
    /\ sent sys' = sent sys
    /\ sent (handleSaveToServer sys')
       = sent sys
         ++ match generateJSONPatch (cleanBroker broker) (cleanBroker (change broker))
                  ("/bridges/" +:+ index_key index
                   +:+ "/brokers/" +:+ index_key brokerIndex) with
            | [] => []
            | patch =>
                [PATCH "/api/bridge/config" "application/json-patch+json" patch]
            end.
Proof.
  intros Hsaved Hclean Hbridge Hbroker.
  destruct (bridge_changed_saved sys saved index bridge
              (BridgeForm.updateField bridge
                 (BridgeForm.field_brokers
                    (<[brokerIndex := change broker]> (brokers bridge))))
              (fun bridge =>
                 broker ← brokers bridge !! brokerIndex;
                 BridgeForm.updateBroker bridge brokerIndex (change broker))
              Hsaved Hclean Hbridge)
    as (sys' & H1 & _ & _ & H4 & H5).
  { rewrite Hbroker. cbn [mbind option_bind]. unfold BridgeForm.updateBroker.
    by rewrite (set_index_in_range _ _ broker). }
  exists sys'. split; [done |]. split; [done |]. rewrite H5. f_equal.
  unfold cleanBridge.
  cbn [BridgeForm.updateField name brokers bridge_disabled bridge_prefix].
  rewrite brokers_diff by done.
  rewrite list_fmap_insert.
  rewrite (generateJSONPatch_one_element _ brokerIndex (cleanBroker broker))
    by (by rewrite list_lookup_fmap, Hbroker).
  rewrite changed_objects by done.
  by rewrite !append_assoc.
Qed.

(** The address a protocol starts with. *)
Lemma protocol_diff (broker : Broker) (p' : Protocol) (q : string) :
  q <> "" -> p' <> protocol (network broker) ->
  generateJSONPatch
    (cleanBroker broker)
    (cleanBroker (BrokerForm.updateNetworkField broker (BrokerForm.field_protocol p')))
    q
  = [Replace (q +:+ "/network/protocol") (Str (Protocol_string p'))]
    ++ ((fun kv => Remove (q +:+ "/network/" +:+ kv.1))
        <$> address_field (network broker))
    ++ [Add (q +:+ "/network/" +:+ Protocol_string p')
          match p' with
          | proto_in | proto_in6 => Map [("host", Str ""); ("port", Num 1883)]
          | proto_rc => Map [("host", Str ""); ("channel", Num 1)]
          | proto_l2 => Map [("host", Str ""); ("psm", Num 1)]
          | proto_un => Map [("path", Str "")]
          end].
Proof.
  intros Hq Hp. unfold cleanBroker.
  cbn [BrokerForm.updateNetworkField BrokerForm.updateField BrokerForm.assign
       network mqtt topics broker_disabled session_store broker_prefix].
  rewrite network_diff by done.
  assert (Hq' : q +:+ "/network" <> "").
  { destruct q; [done | discriminate]. }
  destruct p';
    cbn [NetworkAddressForm.with_in NetworkAddressForm.with_in6
         NetworkAddressForm.with_rc NetworkAddressForm.with_l2
         NetworkAddressForm.with_un BrokerForm.assign
         instance_name protocol encryption transport
         net_in net_in6 net_rc net_l2 net_un address_field when_some];
    unfold address_field;
    destruct (protocol (network broker)) eqn:Ep; try congruence;
    repeat (match goal with
            | |- context [when_some _ _ (?f (network broker))] =>
                destruct (f (network broker))
            end);
    diff_fields;
    rewrite !property_path_below by done; rewrite !append_assoc; reflexivity.
Qed.

(** X23: choosing another protocol sends three operations.  When the
    document on screen is the saved one, choosing a protocol other than
    the one a broker has sends nothing by itself; the save that follows
    sends one request whose patch, below the path of the network of that
    broker, replaces [protocol], removes the address of the old protocol
    if the broker had one, and adds the address of the new protocol with
    its default values. *)
Theorem protocol_choice_is_sent (sys : System) (saved : BridgesConfig)
  (index brokerIndex : nat) (bridge : Bridge) (broker : Broker) (p' : Protocol) :
  lastSavedConfigRef (app sys) = Some saved ->
  cleanConfig saved = cleanConfig (config (app sys)) ->
  bridges (config (app sys)) !! index = Some bridge ->
  brokers bridge !! brokerIndex = Some broker ->
  p' <> protocol (network broker) ->
  let broker_path :=
    "/bridges/" +:+ index_key index +:+ "/brokers/" +:+ index_key brokerIndex in
  exists sys',
    broker_changed index brokerIndex
      (fun k => BrokerForm.updateNetworkField k (BrokerForm.field_protocol p')) sys
    = Some sys'
    /\ sent sys' = sent sys
    /\ sent (handleSaveToServer sys')
       = sent sys
         ++ [PATCH "/api/bridge/config" "application/json-patch+json"
               ([Replace (broker_path +:+ "/network/protocol")
                         (Str (Protocol_string p'))]
                ++ ((fun kv => Remove (broker_path +:+ "/network/" +:+ kv.1))
                    <$> address_field (network broker))
                ++ [Add (broker_path +:+ "/network/" +:+ Protocol_string p')
                      match p' with
                      | proto_in | proto_in6 =>
                          Map [("host", Str ""); ("port", Num 1883)]
                      | proto_rc => Map [("host", Str ""); ("channel", Num 1)]
                      | proto_l2 => Map [("host", Str ""); ("psm", Num 1)]
                      | proto_un => Map [("path", Str "")]
                      end])].
Proof.
  intros Hsaved Hclean Hbridge Hbroker Hp. cbv zeta.
  destruct (broker_changed_saved sys saved index brokerIndex bridge broker
              (fun k => BrokerForm.updateNetworkField k (BrokerForm.field_protocol p'))
              Hsaved Hclean Hbridge Hbroker)
    as (sys' & H1 & H2 & H3).
  exists sys'. split; [done |]. split; [done |]. rewrite H3. f_equal.
  by rewrite protocol_diff by done.
Qed.

Lemma protocol_choice_is_sent_witness :
  let loaded := step (step boot Mount)
                  (Settle 0 (HttpResponse true "OK"
                               (BodyConfig {| bridges := [defaultBridge] |}))) in
  exists sys',
    broker_changed 0 1
      (fun k => BrokerForm.updateNetworkField k (BrokerForm.field_protocol proto_un))
      loaded
    = Some sys'
    /\ sent (handleSaveToServer sys')
       = sent loaded
         ++ [PATCH "/api/bridge/config" "application/json-patch+json"
               [Replace "/bridges/0/brokers/1/network/protocol" (Str "un");
                Remove "/bridges/0/brokers/1/network/in";
                Add "/bridges/0/brokers/1/network/un" (Map [("path", Str "")])]].
Proof.
  cbv zeta.
  pose proof (protocol_choice_is_sent
                (step (step boot Mount)
                   (Settle 0 (HttpResponse true "OK"
                                (BodyConfig {| bridges := [defaultBridge] |}))))
                {| bridges := [defaultBridge] |} 0 1 defaultBridge defaultBroker proto_un
                eq_refl eq_refl eq_refl eq_refl ltac:(discriminate)) as H.
  cbv zeta in H. destruct H as (sys' & H1 & _ & H3).
  exists sys'. split; [exact H1 | exact H3].
Defined.


Lemma topics_diff (N M T T' : Value) (d : option bool) (s p : option string)
  (q : string) :
  q <> "" -> is_object T = true -> is_object T' = true ->
  generateJSONPatch
    (Map ([("network", N); ("mqtt", M); ("topics", T)]
          ++ when_some "disabled" Bool d ++ when_some "session_store" Str s
          ++ when_some "prefix" Str p))
    (Map ([("network", N); ("mqtt", M); ("topics", T')]
          ++ when_some "disabled" Bool d ++ when_some "session_store" Str s
          ++ when_some "prefix" Str p)) q
  = generateJSONPatch T T' (q +:+ "/topics").
Proof.
  intros Hq HT HT'. rewrite <- (changed_objects T T') by done.
  destruct d as [v |], s as [s |], p as [p |]; diff_fields.
  all: rewrite ?property_path_below by done; by rewrite app_nil_r.
Qed.

(** X24: a broker added to a bridge is sent as one [add].  When the
    document on screen is the saved one, the button [Add Broker] of the
    form of a bridge, and the save it schedules, send one request whose
    patch is the one operation that adds the cleaned default broker past
    the last broker of that bridge. *)
Theorem addBroker_sends_one_add (sys : System) (saved : BridgesConfig)
  (index : nat) (bridge : Bridge) :
  lastSavedConfigRef (app sys) = Some saved ->
  cleanConfig saved = cleanConfig (config (app sys)) ->
  bridges (config (app sys)) !! index = Some bridge ->
  exists sys',
    bridge_changed index (fun b => Some (BridgeForm.addBroker b)) sys = Some sys'
    /\ sent sys' = sent sys
    /\ sent (handleSaveToServer sys')
       = sent sys
         ++ [PATCH "/api/bridge/config" "application/json-patch+json"
               [Add ("/bridges/" +:+ index_key index +:+ "/brokers/"
                     +:+ index_key (length (brokers bridge)))
                    (cleanBroker defaultBroker)]].
Proof.
  intros Hsaved Hclean Hbridge.
  destruct (bridge_changed_saved sys saved index bridge _
              (fun b => Some (BridgeForm.addBroker b))
              Hsaved Hclean Hbridge eq_refl)
    as (sys' & H1 & _ & _ & H4 & H5).
  exists sys'. split; [done |]. split; [done |]. rewrite H5. f_equal.
  unfold cleanBridge.
  cbn [BridgeForm.addBroker BridgeForm.updateField name brokers bridge_disabled
       bridge_prefix].
  rewrite brokers_diff by done.
  rewrite fmap_app, generateJSONPatch_growth_at. cbn [fmap list_fmap imap].
  by rewrite length_fmap, Nat.add_0_r, !append_assoc.
Qed.

Lemma addBroker_sends_one_add_witness :
  let loaded := step (step boot Mount)
                  (Settle 0 (HttpResponse true "OK"
                               (BodyConfig {| bridges := [defaultBridge] |}))) in
  exists sys',
    bridge_changed 0 (fun b => Some (BridgeForm.addBroker b)) loaded = Some sys'
    /\ sent (handleSaveToServer sys')
       = sent loaded
         ++ [PATCH "/api/bridge/config" "application/json-patch+json"
               [Add "/bridges/0/brokers/2" (cleanBroker defaultBroker)]].
Proof.
  cbv zeta.
  destruct (addBroker_sends_one_add
              (step (step boot Mount)
                 (Settle 0 (HttpResponse true "OK"
                              (BodyConfig {| bridges := [defaultBridge] |}))))
              {| bridges := [defaultBridge] |} 0 defaultBridge
              eq_refl eq_refl eq_refl) as (sys' & H1 & _ & H3).
  exists sys'. split; [exact H1 | exact H3].
Defined.

(** X25: a topic added to a broker is sent as one [add].  When the document
    on screen is the saved one, the button [Add Topic] of the form of a
    broker, and the save it schedules, send one request whose patch is
    the one operation that adds a topic with the empty pattern and
    quality of service 0 past the last topic of that broker. *)
Theorem addTopic_sends_one_add (sys : System) (saved : BridgesConfig)
  (index brokerIndex : nat) (bridge : Bridge) (broker : Broker) :
  lastSavedConfigRef (app sys) = Some saved ->
  cleanConfig saved = cleanConfig (config (app sys)) ->
  bridges (config (app sys)) !! index = Some bridge ->
  brokers bridge !! brokerIndex = Some broker ->
  exists sys',
    broker_changed index brokerIndex
      (fun k => BrokerForm.updateField k
                  (BrokerForm.field_topics (TopicsForm.addTopic (topics k)))) sys
    = Some sys'
    /\ sent sys' = sent sys
    /\ sent (handleSaveToServer sys')
       = sent sys
         ++ [PATCH "/api/bridge/config" "application/json-patch+json"
               [Add ("/bridges/" +:+ index_key index +:+ "/brokers/"
                     +:+ index_key brokerIndex +:+ "/topics/"
                     +:+ index_key (length (topics broker)))
                    (Map [("topic", Str ""); ("qos", Num 0)])]].
Proof.
  intros Hsaved Hclean Hbridge Hbroker.
  destruct (broker_changed_saved sys saved index brokerIndex bridge broker
              (fun k => BrokerForm.updateField k
                          (BrokerForm.field_topics (TopicsForm.addTopic (topics k))))
              Hsaved Hclean Hbridge Hbroker)
    as (sys' & H1 & H2 & H3).
  exists sys'. split; [done |]. split; [done |]. rewrite H3. f_equal.
  unfold cleanBroker.
  cbn [BrokerForm.updateField TopicsForm.addTopic
       network mqtt topics broker_disabled session_store broker_prefix].
  rewrite topics_diff by done. unfold TopicsForm.addTopic.
  rewrite fmap_app, generateJSONPatch_growth_at. cbn [fmap list_fmap imap].
  by rewrite length_fmap, Nat.add_0_r, !append_assoc.
Qed.

Lemma addTopic_sends_one_add_witness :
  let loaded := step (step boot Mount)
                  (Settle 0 (HttpResponse true "OK"
                               (BodyConfig {| bridges := [defaultBridge] |}))) in
  exists sys',
    broker_changed 0 1
      (fun k => BrokerForm.updateField k
                  (BrokerForm.field_topics (TopicsForm.addTopic (topics k)))) loaded
    = Some sys'
    /\ sent (handleSaveToServer sys')
       = sent loaded
         ++ [PATCH "/api/bridge/config" "application/json-patch+json"
               [Add "/bridges/0/brokers/1/topics/1"
                    (Map [("topic", Str ""); ("qos", Num 0)])]].
Proof.
  cbv zeta.
  destruct (addTopic_sends_one_add
              (step (step boot Mount)
                 (Settle 0 (HttpResponse true "OK"
                              (BodyConfig {| bridges := [defaultBridge] |}))))
              {| bridges := [defaultBridge] |} 0 1 defaultBridge defaultBroker
              eq_refl eq_refl eq_refl eq_refl) as (sys' & H1 & _ & H3).
  exists sys'. split; [exact H1 | exact H3].
Defined.

Lemma nothing_to_send (st : State) (c : BridgesConfig) :
  lastSavedConfigRef st = Some c -> sendPatchToServer_begin c st = None.
Proof.
  intros H. unfold sendPatchToServer_begin. rewrite H. cbv zeta.
  by rewrite generateJSONPatch_same.
Qed.

(** X16: when a load settles, nothing is left to save.  Whatever the
    response to the load is, the reference document is then the one
    [latestConfigRef] holds, so the next save sends nothing; and when
    the load has failed the document on screen is not touched, also when
    it is not the one the load was started with: what was edited while
    the load was in flight is on screen, and is not sent. *)
Theorem save_after_load_sends_nothing (sys : System) (k : nat) (req : Request)
  (c : BridgesConfig) (r : Response) :
  inflight sys !! k = Some (req, AwaitLoad c) ->
  let sys' := step sys (Settle k r) in
  lastSavedConfigRef (app sys') = Some (latestConfigRef (app sys'))
  /\ handleSaveToServer sys' = sys'
  /\ match loaded r with
     | Some data => config (app sys') = data /\ latestConfigRef (app sys') = data
     | None => config (app sys') = config (app sys)
               /\ latestConfigRef (app sys') = c
     end.
Proof.
  intros Hk. cbv zeta. unfold handleSaveToServer. cbn [step]. rewrite Hk.
  cbn [app resume].
  assert (Hcatch : forall m,
            lastSavedConfigRef (loadConfig_catch c m (app sys))
            = Some (latestConfigRef (loadConfig_catch c m (app sys)))
            /\ config (loadConfig_catch c m (app sys)) = config (app sys)
            /\ latestConfigRef (loadConfig_catch c m (app sys)) = c) by done.
  destruct r as [m | [] txt [m | | data]]; cbn [loadConfig_resume negb loaded];
    try (destruct (Hcatch m) as (H1 & H2 & H3));
    try (destruct (Hcatch ("Failed to load configuration: " +:+ txt))
           as (H1 & H2 & H3));
    try (destruct (Hcatch "Invalid configuration format received from server")
           as (H1 & H2 & H3));
    (split; [done |]); (split; [| done]);
    by rewrite nothing_to_send.
Qed.

Lemma save_after_load_sends_nothing_witness :
  let edited :=
    App.show {| bridges := [] |} (step boot Mount) in
  let sys' := step edited (Settle 0 (NetworkError "offline")) in
  handleSaveToServer sys' = sys'
  /\ config (app sys') = {| bridges := [] |}
  /\ latestConfigRef (app sys') = {| bridges := [defaultBridge] |}.
Proof.
  cbv zeta.
  pose proof (save_after_load_sends_nothing
                (App.show {| bridges := [] |} (step boot Mount)) 0
                (GET "/api/bridge/config") {| bridges := [defaultBridge] |}
                (NetworkError "offline") eq_refl) as H.
  cbv zeta in H. destruct H as (_ & H2 & H3 & H4).
  split; [exact H2 |]. split; [exact H3 | exact H4].
Defined.

Lemma truthy_string_cases (s : option string) :
  truthy_string s = None \/ exists t, truthy_string s = Some t /\ t <> "".
Proof.
  destruct s as [t |]; simpl; [| by left].
  destruct (String.eqb_spec t ""); [by left | right; eauto].
Qed.

(** X29: what a cleaned document never carries.  In the cleaned form of a
    bridge and of a broker, [disabled] is absent or true, never false;
    [prefix] and [session_store] are absent or non-empty strings; the
    broker always has [mqtt], an object, which is empty when the broker
    has no settings; and its [network] has the four common properties
    followed by at most one address, the one named after its protocol:
    addresses of other protocols that the broker still holds are not
    sent. *)
Theorem cleaned_documents_omit_defaults (bridge : Bridge) (broker : Broker) :
  (get_prop (cleanBridge bridge) "disabled" = None
   \/ get_prop (cleanBridge bridge) "disabled" = Some (Bool true))
  /\ get_prop (cleanBridge bridge) "prefix" <> Some (Str "")
  /\ (get_prop (cleanBroker broker) "disabled" = None
      \/ get_prop (cleanBroker broker) "disabled" = Some (Bool true))
  /\ get_prop (cleanBroker broker) "prefix" <> Some (Str "")
  /\ get_prop (cleanBroker broker) "session_store" <> Some (Str "")
  /\ (exists fields,
        get_prop (cleanBroker broker) "mqtt" = Some (Map fields)
        /\ (mqtt broker = None -> fields = []))
  /\ exists fields,
       get_prop (cleanBroker broker) "network" = Some (Map fields)
       /\ (fields.*1 = ["instance_name"; "protocol"; "encryption"; "transport"]
           \/ fields.*1 = ["instance_name"; "protocol"; "encryption"; "transport";
                           Protocol_string (protocol (network broker))]).
Proof.
  unfold cleanBridge, cleanBroker.
  destruct (truthy_bool_cases (bridge_disabled bridge)) as [-> | ->],
    (truthy_string_cases (bridge_prefix bridge)) as [-> | (t1 & -> & Ht1)],
    (truthy_bool_cases (broker_disabled broker)) as [-> | ->],
    (truthy_string_cases (broker_prefix broker)) as [-> | (t2 & -> & Ht2)],
    (truthy_string_cases (Some (session_store broker))) as [-> | (t3 & -> & Ht3)];
    simpl;
    (do 5 (split; [first [by auto | congruence] |]));
    (split;
     [destruct (mqtt broker); eexists; (split; [reflexivity | done]) |]);
    unfold address_field;
    (destruct (protocol (network broker));
     [destruct (net_in (network broker)) | destruct (net_in6 (network broker))
     | destruct (net_l2 (network broker)) | destruct (net_rc (network broker))
     | destruct (net_un (network broker))]);
    eexists; (split; [reflexivity |]); simpl; auto.
Qed.

Lemma cleaned_documents_omit_defaults_witness :
  exists fields,
    get_prop
      (cleanBroker
         {| broker_disabled := Some false; session_store := ""; mqtt := None;
            network := defaultNetwork; broker_prefix := Some ""; topics := [] |})
      "mqtt"
    = Some (Map fields)
    /\ fields = [].
Proof.
  destruct (cleaned_documents_omit_defaults defaultBridge
              {| broker_disabled := Some false; session_store := ""; mqtt := None;
                 network := defaultNetwork; broker_prefix := Some "";
                 topics := [] |})
    as (_ & _ & _ & _ & _ & (fields & H1 & H2) & _).
  exists fields. split; [exact H1 | exact (H2 eq_refl)].
Defined.

End SyncMore.

(* ===================================================================== *)
(** * The forms: addresses and brokers *)
(* ===================================================================== *)

Module FormsFacts.
Import Json Sync Arrays NetworkAddressForm.

(** X26: an address edit leaves the broker with the address of its
    protocol, and changes only the field that was typed into.  Whatever
    is typed into an input of the address form, the network handed on
    has the protocol and the other fields it had, and its cleaned form
    carries one address, the one of that protocol, also when the network
    had none before.  A text typed into the first input becomes the host
    (or the socket path), beside the number the address had, or the
    default number when there was no address.  A text typed into the
    number input becomes the number, beside the host the address had, or
    the empty host when there was none: the number is the one [parseInt]
    reads when it reads one other than zero, and the default of the
    field (1883 for a port, 1 for a channel and for a PSM) when it reads
    [NaN] or zero. *)
Theorem address_edit_keeps_one_address (network : Network) (typed : Typed)
  (e : AddressEdit) :
  renderAddressFields network typed = Some e ->
  let updated := updateProtocolField network e in
  let p := protocol network in
  protocol updated = p
  /\ instance_name updated = instance_name network
  /\ encryption updated = encryption network
  /\ transport updated = transport network
  /\ match typed with
     | typed_text text =>
         address_field updated
         = [(Protocol_string p,
             address_value p text
               (default (default_number p) (address_number network)))]
     | typed_number parsed =>
         exists number,
           address_field updated
           = [(Protocol_string p,
               address_value p (default "" (address_text network)) number)]
           /\ (forall n, parsed = Some n -> n <> 0%Z -> number = n)
           /\ (parsed = None \/ parsed = Some 0%Z -> number = default_number p)
     end.
Proof.
  intros He. cbv zeta. unfold renderAddressFields in He.
  assert (Hor : forall parsed fallback,
            (forall n, parsed = Some n -> n <> 0%Z -> parseInt_or parsed fallback = n)
            /\ (parsed = None \/ parsed = Some 0%Z ->
                parseInt_or parsed fallback = fallback)).
  { intros parsed fallback. split.
    - intros n -> Hn. simpl. by destruct (Z.eqb_spec n 0).
    - by intros [-> | ->]. }
  unfold address_text, address_number, address_field.
  destruct network as [iname p enc tr nin nin6 nrc nl2 nun]. simpl in *.
  destruct p, typed as [text | parsed]; try discriminate; injection He as <-;
    cbn -[parseInt_or]; do 4 (split; [done |]).
  all: try (eexists; split; [| apply Hor]).
  all: first [ by destruct nin | by destruct nin6 | by destruct nrc
             | by destruct nl2 | by destruct nun ].
Qed.

Lemma address_edit_keeps_one_address_witness :
  exists number,
    address_field
      (updateProtocolField
         {| instance_name := "i1"; protocol := proto_rc; encryption := legacy;
            transport := stream; net_in := None; net_in6 := None;
            net_rc := Some {| rc_host := "00:1A:7D:DA:71:13"; rc_channel := 4 |};
            net_l2 := None; net_un := None |}
         (edit_rc_channel 1))
    = [("rc", Map [("host", Str "00:1A:7D:DA:71:13"); ("channel", Num number)])]
    /\ number = 1%Z.
Proof.
  destruct (address_edit_keeps_one_address
              {| instance_name := "i1"; protocol := proto_rc; encryption := legacy;
                 transport := stream; net_in := None; net_in6 := None;
                 net_rc := Some {| rc_host := "00:1A:7D:DA:71:13";
                                   rc_channel := 4 |};
                 net_l2 := None; net_un := None |}
              (typed_number None) (edit_rc_channel 1) eq_refl)
    as (_ & _ & _ & _ & number & Hv & _ & Hdefault).
  exists number. split; [exact Hv | exact (Hdefault (or_introl eq_refl))].
Defined.

(** X27: the header of an L2CAP broker shows no PSM.  For a broker that is
    given the protocol [l2] in its form, and then a host and a PSM, the
    cleaned network carries the host and the PSM, but the address in the
    header of the folded form is the host followed by [:undefined],
    whatever the PSM is. *)
Theorem header_of_l2_shows_no_psm (broker : Broker) (host : string) (psm : Z) :
  let chosen :=
    network (BrokerForm.updateNetworkField broker (BrokerForm.field_protocol proto_l2)) in
  let edited :=
    updateProtocolField (updateProtocolField chosen (edit_l2_host host))
      (edit_l2_psm psm) in
  renderAddressFields chosen (typed_text host) = Some (edit_l2_host host)
  /\ address_field edited = [("l2", Map [("host", Str host); ("psm", Num psm)])]
  /\ BrokerForm.getNetworkAddress edited = host +:+ ":undefined".
Proof. repeat split. Qed.

(** X28: the buttons of a bridge form never leave fewer than two brokers.
    Starting from a bridge with at least two brokers, whatever buttons
    are clicked, each on the form as it is rendered then, the bridge
    keeps at least two brokers, and its name, switch and prefix. *)
Theorem brokers_never_below_two (bridge bridge' : Bridge)
  (bs : list BridgeForm.Button) :
  2 <= length (brokers bridge) ->
  BridgeForm.clicks bridge bs = Some bridge' ->
  2 <= length (brokers bridge')
  /\ name bridge' = name bridge
  /\ bridge_disabled bridge' = bridge_disabled bridge
  /\ bridge_prefix bridge' = bridge_prefix bridge.
Proof.
  revert bridge. induction bs as [| b bs IH]; intros bridge Hlen; simpl.
  - by intros [= ->].
  - destruct b as [| j]; simpl.
    + intros H. apply IH in H; [done |].
      simpl. rewrite length_app. simpl. lia.
    + unfold BridgeForm.canDelete.
      case_bool_decide as Hcan; [| discriminate]. simpl.
      case_bool_decide as Hj; [| discriminate]. simpl.
      intros H. apply IH in H; [done |].
      simpl. rewrite SyncMore.filter_index_delete.
      rewrite length_delete by (by apply lookup_lt_is_Some_2). lia.
Qed.

Lemma brokers_never_below_two_witness :
  exists bridge',
    BridgeForm.clicks defaultBridge
      [BridgeForm.add_broker; BridgeForm.delete_broker 0] = Some bridge'
    /\ 2 <= length (brokers bridge').
Proof.
  eexists. split; [reflexivity |].
  eapply (brokers_never_below_two defaultBridge _
            [BridgeForm.add_broker; BridgeForm.delete_broker 0]);
    [simpl; lia | reflexivity].
Defined.

End FormsFacts.
